(** * Music-Bot: the guild playback engine

    A shallow embedding of the queue scheduler ([services/queue_service.py]),
    the song-info cache ([services/music_service.py]), the playback controller
    ([services/playback_service.py]), the voice supervisor ([bot.py]) and the
    seek clamp ([cogs/music_commands.py]), with the properties of the engine
    stated over it.

    Python [int] is [Z]; [len] is [length] injected into [Z] where it meets an
    [int]; a Python [list] is a [list]; [None]-able values are [option];
    the per-guild [dict] is the record [GuildData]; timestamps are [Z]. *)

From Stdlib Require Import String Ascii.
From Stdlib Require Import List ZArith Bool Lia Arith Permutation Sorted.
Import ListNotations.

Local Open Scope string_scope.
Local Open Scope list_scope.

(** ** config.py *)

Module Config.
Definition MAX_HISTORY_SIZE : nat := 30.
Definition MAX_CACHE_SIZE : nat := 500.
Definition CACHE_TTL : Z := 3600.
End Config.

(** ** models/song.py *)

Record Song := mkSong {
  url : string;
  title : string;
  duration : Z;
  thumbnail : string;
  uploader : string;
  webpage_url : string;
  requested_by : string
}.

(** The [dict] a song is built from: a key may be absent. *)
Record SongDict := mkSongDict {
  d_url : option string;
  d_title : option string;
  d_duration : option Z;
  d_thumbnail : option string;
  d_uploader : option string;
  d_webpage_url : option string;
  d_requested_by : option string
}.

(** [data.get(key, default)] *)
Definition dict_get {A} (v : option A) (default : A) : A :=
  match v with Some x => x | None => default end.

Module SongModel.

(** [Song.__init__] *)
Definition init (data : SongDict) : Song :=
  {| url := dict_get (d_url data) "";
     title := dict_get (d_title data) "Unknown Title";
     duration := dict_get (d_duration data) 0%Z;
     thumbnail := dict_get (d_thumbnail data) "";
     uploader := dict_get (d_uploader data) "Unknown";
     webpage_url := dict_get (d_webpage_url data) "";
     requested_by := dict_get (d_requested_by data) "Unknown" |}.

Definition to_dict (s : Song) : SongDict :=
  {| d_url := Some (url s);
     d_title := Some (title s);
     d_duration := Some (duration s);
     d_thumbnail := Some (thumbnail s);
     d_uploader := Some (uploader s);
     d_webpage_url := Some (webpage_url s);
     d_requested_by := Some (requested_by s) |}.

Definition from_dict (data : SongDict) : Song := init data.

End SongModel.

(** [Song.from_dict(song.to_dict())], the copy the services take. *)
Definition copy_song (s : Song) : Song :=
  SongModel.from_dict (SongModel.to_dict s).

(** ** bot.py: the per-guild state *)

(** What the voice transport's handle answers when asked. *)
Record VoiceClient := mkVoiceClient {
  is_connected : bool;
  is_playing : bool;
  is_paused : bool
}.

Record GuildData := mkGuildData {
  guild_id : Z;
  queue : list Song;
  loop_backup : list Song;
  history : list Song;
  history_position : Z;
  current : option Song;
  position : Z;
  seek_offset : Z;
  loop_mode : string;
  shuffle : bool;
  volume : Z;
  voice_client : option VoiceClient;
  intentional_disconnect : bool;
  last_activity : Z;
  now_playing_message : option Z;
  music_channel_id : option Z;
  start_time : option Z;
  message_ready_for_timestamps : bool;
  message_last_validated : Z;
  seeking : bool;
  pause_position : option Z
}.

(** Assignments [guild_data[key] = value]. *)

Definition set_queue (v : list Song) (g : GuildData) : GuildData :=
  mkGuildData (guild_id g) v (loop_backup g) (history g) (history_position g)
    (current g) (position g) (seek_offset g) (loop_mode g) (shuffle g)
    (volume g) (voice_client g) (intentional_disconnect g) (last_activity g)
    (now_playing_message g) (music_channel_id g) (start_time g)
    (message_ready_for_timestamps g) (message_last_validated g) (seeking g)
    (pause_position g).

Definition set_loop_backup (v : list Song) (g : GuildData) : GuildData :=
  mkGuildData (guild_id g) (queue g) v (history g) (history_position g)
    (current g) (position g) (seek_offset g) (loop_mode g) (shuffle g)
    (volume g) (voice_client g) (intentional_disconnect g) (last_activity g)
    (now_playing_message g) (music_channel_id g) (start_time g)
    (message_ready_for_timestamps g) (message_last_validated g) (seeking g)
    (pause_position g).

Definition set_history (v : list Song) (g : GuildData) : GuildData :=
  mkGuildData (guild_id g) (queue g) (loop_backup g) v (history_position g)
    (current g) (position g) (seek_offset g) (loop_mode g) (shuffle g)
    (volume g) (voice_client g) (intentional_disconnect g) (last_activity g)
    (now_playing_message g) (music_channel_id g) (start_time g)
    (message_ready_for_timestamps g) (message_last_validated g) (seeking g)
    (pause_position g).

Definition set_history_position (v : Z) (g : GuildData) : GuildData :=
  mkGuildData (guild_id g) (queue g) (loop_backup g) (history g) v
    (current g) (position g) (seek_offset g) (loop_mode g) (shuffle g)
    (volume g) (voice_client g) (intentional_disconnect g) (last_activity g)
    (now_playing_message g) (music_channel_id g) (start_time g)
    (message_ready_for_timestamps g) (message_last_validated g) (seeking g)
    (pause_position g).

Definition set_current (v : option Song) (g : GuildData) : GuildData :=
  mkGuildData (guild_id g) (queue g) (loop_backup g) (history g)
    (history_position g) v (position g) (seek_offset g) (loop_mode g)
    (shuffle g) (volume g) (voice_client g) (intentional_disconnect g)
    (last_activity g) (now_playing_message g) (music_channel_id g)
    (start_time g) (message_ready_for_timestamps g) (message_last_validated g)
    (seeking g) (pause_position g).

Definition set_position (v : Z) (g : GuildData) : GuildData :=
  mkGuildData (guild_id g) (queue g) (loop_backup g) (history g)
    (history_position g) (current g) v (seek_offset g) (loop_mode g)
    (shuffle g) (volume g) (voice_client g) (intentional_disconnect g)
    (last_activity g) (now_playing_message g) (music_channel_id g)
    (start_time g) (message_ready_for_timestamps g) (message_last_validated g)
    (seeking g) (pause_position g).

Definition set_seek_offset (v : Z) (g : GuildData) : GuildData :=
  mkGuildData (guild_id g) (queue g) (loop_backup g) (history g)
    (history_position g) (current g) (position g) v (loop_mode g)
    (shuffle g) (volume g) (voice_client g) (intentional_disconnect g)
    (last_activity g) (now_playing_message g) (music_channel_id g)
    (start_time g) (message_ready_for_timestamps g) (message_last_validated g)
    (seeking g) (pause_position g).

Definition set_loop_mode_field (v : string) (g : GuildData) : GuildData :=
  mkGuildData (guild_id g) (queue g) (loop_backup g) (history g)
    (history_position g) (current g) (position g) (seek_offset g) v
    (shuffle g) (volume g) (voice_client g) (intentional_disconnect g)
    (last_activity g) (now_playing_message g) (music_channel_id g)
    (start_time g) (message_ready_for_timestamps g) (message_last_validated g)
    (seeking g) (pause_position g).

Definition set_shuffle (v : bool) (g : GuildData) : GuildData :=
  mkGuildData (guild_id g) (queue g) (loop_backup g) (history g)
    (history_position g) (current g) (position g) (seek_offset g)
    (loop_mode g) v (volume g) (voice_client g) (intentional_disconnect g)
    (last_activity g) (now_playing_message g) (music_channel_id g)
    (start_time g) (message_ready_for_timestamps g) (message_last_validated g)
    (seeking g) (pause_position g).

Definition set_voice_client (v : option VoiceClient) (g : GuildData)
  : GuildData :=
  mkGuildData (guild_id g) (queue g) (loop_backup g) (history g)
    (history_position g) (current g) (position g) (seek_offset g)
    (loop_mode g) (shuffle g) (volume g) v (intentional_disconnect g)
    (last_activity g) (now_playing_message g) (music_channel_id g)
    (start_time g) (message_ready_for_timestamps g) (message_last_validated g)
    (seeking g) (pause_position g).

Definition set_intentional_disconnect (v : bool) (g : GuildData)
  : GuildData :=
  mkGuildData (guild_id g) (queue g) (loop_backup g) (history g)
    (history_position g) (current g) (position g) (seek_offset g)
    (loop_mode g) (shuffle g) (volume g) (voice_client g) v
    (last_activity g) (now_playing_message g) (music_channel_id g)
    (start_time g) (message_ready_for_timestamps g) (message_last_validated g)
    (seeking g) (pause_position g).

Definition set_last_activity (v : Z) (g : GuildData) : GuildData :=
  mkGuildData (guild_id g) (queue g) (loop_backup g) (history g)
    (history_position g) (current g) (position g) (seek_offset g)
    (loop_mode g) (shuffle g) (volume g) (voice_client g)
    (intentional_disconnect g) v (now_playing_message g) (music_channel_id g)
    (start_time g) (message_ready_for_timestamps g) (message_last_validated g)
    (seeking g) (pause_position g).

Definition set_now_playing_message (v : option Z) (g : GuildData)
  : GuildData :=
  mkGuildData (guild_id g) (queue g) (loop_backup g) (history g)
    (history_position g) (current g) (position g) (seek_offset g)
    (loop_mode g) (shuffle g) (volume g) (voice_client g)
    (intentional_disconnect g) (last_activity g) v (music_channel_id g)
    (start_time g) (message_ready_for_timestamps g) (message_last_validated g)
    (seeking g) (pause_position g).

Definition set_start_time (v : option Z) (g : GuildData) : GuildData :=
  mkGuildData (guild_id g) (queue g) (loop_backup g) (history g)
    (history_position g) (current g) (position g) (seek_offset g)
    (loop_mode g) (shuffle g) (volume g) (voice_client g)
    (intentional_disconnect g) (last_activity g) (now_playing_message g)
    (music_channel_id g) v (message_ready_for_timestamps g)
    (message_last_validated g) (seeking g) (pause_position g).

Module Bot.

(** [MusicBot.get_guild_data], the state created on first access;
    [now] is [datetime.now()]. *)
Definition get_guild_data (gid : Z) (now : Z) : GuildData :=
  {| guild_id := gid;
     queue := [];
     loop_backup := [];
     history := [];
     history_position := 0;
     current := None;
     position := 0;
     seek_offset := 0;
     loop_mode := "off";
     shuffle := false;
     volume := 100;
     voice_client := None;
     intentional_disconnect := false;
     last_activity := now;
     now_playing_message := None;
     music_channel_id := None;
     start_time := None;
     message_ready_for_timestamps := false;
     message_last_validated := 0;
     seeking := false;
     pause_position := None |}.

Definition voice_reconnect_enabled : bool := true.
Definition voice_reconnect_delay : Z := 2.

End Bot.

(** ** Python list primitives *)

Section PyList.
Context {A : Type}.

(** [l.pop(i)] for an index [0 <= i < len(l)]: the element and the rest;
    [None] where Python raises [IndexError]. *)
Fixpoint list_pop (i : nat) (l : list A) : option (A * list A) :=
  match l, i with
  | [], _ => None
  | x :: t, O => Some (x, t)
  | x :: t, S j =>
      match list_pop j t with
      | Some (y, t') => Some (y, x :: t')
      | None => None
      end
  end.

(** [l.insert(i, x)] for [0 <= i]: before index [i], at the end when
    [i >= len(l)]. *)
Fixpoint list_insert (i : nat) (x : A) (l : list A) : list A :=
  match i, l with
  | O, _ => x :: l
  | S j, [] => [x]
  | S j, y :: t => y :: list_insert j x t
  end.

(** [l[-n:]] for [n > 0]. *)
Definition list_last_n (n : nat) (l : list A) : list A :=
  skipn (length l - n) l.

(** [l[i] = x] for an index in range. *)
Fixpoint list_set (i : nat) (x : A) (l : list A) : list A :=
  match l, i with
  | [], _ => []
  | _ :: t, O => x :: t
  | y :: t, S j => y :: list_set j x t
  end.

(** [l[i], l[j] = l[j], l[i]] for indices in range. *)
Definition list_swap (i j : nat) (l : list A) : list A :=
  match nth_error l i, nth_error l j with
  | Some xi, Some xj => list_set j xi (list_set i xj l)
  | _, _ => l
  end.

(** [random.shuffle(l)]: for [i] from [len(l) - 1] down to [1], draw
    [j = randbelow(i + 1)] and swap [l[i]] with [l[j]].  [randbelow i] is
    the draw made at index [i]; it is reduced into [0 .. i]. *)
Fixpoint shuffle_from (randbelow : nat -> nat) (i : nat) (l : list A)
  : list A :=
  match i with
  | O => l
  | S k =>
      shuffle_from randbelow k (list_swap i (randbelow i mod (i + 1)) l)
  end.

Definition random_shuffle (randbelow : nat -> nat) (l : list A) : list A :=
  shuffle_from randbelow (length l - 1) l.

End PyList.

(** ** services/queue_service.py *)

Module QueueService.

(** [any(s.webpage_url == u for s in songs)], and [u in {s.webpage_url ...}] *)
Definition has_url (u : string) (songs : list Song) : bool :=
  existsb (fun s => String.eqb (webpage_url s) u) songs.

(** The loop of [sync_loop_backup]: keep the first song of each
    [webpage_url]. *)
Fixpoint dedup_loop (songs : list Song) (seen_urls : list string)
  (deduplicated : list Song) : list Song :=
  match songs with
  | [] => deduplicated
  | song :: rest =>
      if existsb (String.eqb (webpage_url song)) seen_urls
      then dedup_loop rest seen_urls deduplicated
      else dedup_loop rest (webpage_url song :: seen_urls)
             (deduplicated ++ [song])
  end.

Definition sync_loop_backup (force_rebuild : bool) (g : GuildData)
  : GuildData :=
  if force_rebuild
  then set_loop_backup (dedup_loop (loop_backup g) [] []) g
  else g.

Definition get_visible_queue (g : GuildData) : list Song :=
  let visible_songs := queue g in
  if String.eqb (loop_mode g) "queue"
     && negb (Nat.eqb (length (loop_backup g)) 0)
  then visible_songs
       ++ filter (fun song => negb (has_url (webpage_url song) (queue g)))
            (loop_backup g)
  else visible_songs.

Definition add_to_history (song : Song) (g : GuildData) : GuildData :=
  if has_url (webpage_url song) (history g) then g
  else
    let history_song := copy_song song in
    let g := set_history (history g ++ [history_song]) g in
    let g := set_history_position (Z.of_nat (length (history g))) g in
    let g :=
      if Nat.ltb Config.MAX_HISTORY_SIZE (length (history g))
      then
        let g :=
          set_history (list_last_n Config.MAX_HISTORY_SIZE (history g)) g in
        set_history_position
          (Z.min (history_position g) (Z.of_nat (length (history g)))) g
      else g in
    if negb (has_url (webpage_url song) (loop_backup g))
    then set_loop_backup (loop_backup g ++ [copy_song song]) g
    else g.

(** [randbelow] feeds [random.shuffle] should this call shuffle. *)
Definition get_next_song (randbelow : nat -> nat) (g : GuildData)
  : option Song * GuildData :=
  match String.eqb (loop_mode g) "song", current g with
  | true, Some cur => (Some (copy_song cur), g)
  | _, _ =>
      match queue g with
      | front :: rest => (Some front, set_queue rest g)
      | [] =>
          if String.eqb (loop_mode g) "queue"
             && negb (Nat.eqb (length (loop_backup g)) 0)
          then
            let g := set_queue (map copy_song (loop_backup g)) g in
            let g :=
              if shuffle g
              then set_queue (random_shuffle randbelow (queue g)) g
              else g in
            match queue g with
            | front :: rest => (Some front, set_queue rest g)
            | [] => (None, g)
            end
          else (None, g)
      end
  end.

Definition clear_queue (g : GuildData) : GuildData :=
  set_loop_backup [] (set_queue [] g).

Definition remove_song_from_queue (position : Z) (g : GuildData)
  : option Song * GuildData :=
  if (position <? 0)%Z || (position >=? Z.of_nat (length (queue g)))%Z
  then (None, g)
  else
    match list_pop (Z.to_nat position) (queue g) with
    | Some (song, rest) => (Some song, set_queue rest g)
    | None => (None, g)
    end.

Definition move_song_in_queue (from_pos to_pos : Z) (g : GuildData)
  : bool * GuildData :=
  if (from_pos <? 0)%Z || (from_pos >=? Z.of_nat (length (queue g)))%Z
     || (to_pos <? 0)%Z || (to_pos >=? Z.of_nat (length (queue g)))%Z
  then (false, g)
  else
    match list_pop (Z.to_nat from_pos) (queue g) with
    | Some (song, rest) =>
        (true, set_queue (list_insert (Z.to_nat to_pos) song rest) g)
    | None => (false, g)
    end.

(** The two shuffles draw independently. *)
Definition shuffle_queue (rand_queue rand_backup : nat -> nat)
  (g : GuildData) : GuildData :=
  let g :=
    match queue g with
    | [] => g
    | _ => set_queue (random_shuffle rand_queue (queue g)) g
    end in
  match loop_backup g with
  | [] => g
  | _ => set_loop_backup (random_shuffle rand_backup (loop_backup g)) g
  end.

Definition toggle_shuffle (rand_queue rand_backup : nat -> nat)
  (g : GuildData) : bool * GuildData :=
  let g := set_shuffle (negb (shuffle g)) g in
  let g := if shuffle g then shuffle_queue rand_queue rand_backup g else g in
  (shuffle g, g).

Definition set_loop_mode (mode : string) (g : GuildData) : GuildData :=
  let g := set_loop_mode_field mode g in
  if String.eqb mode "queue" then sync_loop_backup false g else g.

Definition add_song_to_queue (song : Song) (g : GuildData) : GuildData :=
  let g := set_queue (queue g ++ [song]) g in
  set_loop_backup (loop_backup g ++ [copy_song song]) g.

End QueueService.

(** ** services/music_service.py: the song-info cache *)

Module MusicService.

(** [bot.max_cache_size], [bot.cache_ttl] as [MusicBot.__init__] sets
    them. *)
Definition max_cache_size : nat := 500.
Definition cache_ttl : Z := 3600.

(** [str.lower()] and [str.strip()] on ASCII text. *)
Definition lower_ascii (c : ascii) : ascii :=
  let n := nat_of_ascii c in
  if (65 <=? n)%nat && (n <=? 90)%nat then ascii_of_nat (n + 32) else c.

Fixpoint lower (s : string) : string :=
  match s with
  | EmptyString => EmptyString
  | String c t => String (lower_ascii c) (lower t)
  end.

Definition is_space (c : ascii) : bool :=
  let n := nat_of_ascii c in
  (n =? 32)%nat || ((9 <=? n)%nat && (n <=? 13)%nat)
  || ((28 <=? n)%nat && (n <=? 31)%nat).

Fixpoint lstrip (s : string) : string :=
  match s with
  | EmptyString => EmptyString
  | String c t => if is_space c then lstrip t else s
  end.

Fixpoint rstrip (s : string) : string :=
  match s with
  | EmptyString => EmptyString
  | String c t =>
      match rstrip t with
      | EmptyString => if is_space c then EmptyString else String c EmptyString
      | t' => String c t'
      end
  end.

Definition strip (s : string) : string := rstrip (lstrip s).

Section Cache.
(** What the extraction collaborator answers: a track's [dict], or the
    list of them for a playlist link. *)
Variable Info : Type.

Record CacheEntry := mkCacheEntry {
  data : Info;
  cached_at : Z
}.

(** [bot.song_cache], a [dict] in insertion order. *)
Definition SongCache : Type := list (string * CacheEntry).

(** [cache[key]] when [key in cache] *)
Fixpoint cache_get (key : string) (c : SongCache) : option CacheEntry :=
  match c with
  | [] => None
  | (k, e) :: t => if String.eqb k key then Some e else cache_get key t
  end.

(** [cache[key] = e]: a key already there keeps its place. *)
Fixpoint cache_set (key : string) (e : CacheEntry) (c : SongCache)
  : SongCache :=
  match c with
  | [] => [(key, e)]
  | (k, e') :: t =>
      if String.eqb k key then (k, e) :: t
      else (k, e') :: cache_set key e t
  end.

(** [del cache[key]] *)
Fixpoint cache_del (key : string) (c : SongCache) : SongCache :=
  match c with
  | [] => []
  | (k, e) :: t =>
      if String.eqb k key then t else (k, e) :: cache_del key t
  end.

(** [sorted(items, key=cached_at)]: a stable sort. *)
Fixpoint insert_sorted (x : string * CacheEntry) (l : SongCache)
  : SongCache :=
  match l with
  | [] => [x]
  | y :: t =>
      if (cached_at (snd x) <=? cached_at (snd y))%Z then x :: y :: t
      else y :: insert_sorted x t
  end.

Definition sorted_items (c : SongCache) : SongCache :=
  fold_right insert_sorted [] c.

Definition _cleanup_cache_if_needed (c : SongCache) : SongCache :=
  if (max_cache_size <? length c)%nat
  then fold_left (fun c kv => cache_del (fst kv) c)
         (firstn 100 (sorted_items c)) c
  else c.

(** [get_song_info_cached].  [t_lookup] and [t_store] are the two readings
    of the event loop's clock, [resolved] is what [get_song_info] answers
    if it is asked ([None] for a falsy answer).  The result comes with the
    cache left behind and the queries passed to [get_song_info]. *)
Definition get_song_info_cached (url_or_query : string)
  (t_lookup t_store : Z) (resolved : option Info) (c : SongCache)
  : option Info * SongCache * list string :=
  let cache_key := strip (lower url_or_query) in
  let hit :=
    match cache_get cache_key c with
    | Some cached_data =>
        if (t_lookup - cached_at cached_data <? cache_ttl)%Z
        then Some (data cached_data)
        else None
    | None => None
    end in
  match hit with
  | Some d => (Some d, c, [])
  | None =>
      match resolved with
      | Some d =>
          let c := cache_set cache_key (mkCacheEntry d t_store) c in
          (Some d, _cleanup_cache_if_needed c, [url_or_query])
      | None => (None, c, [url_or_query])
      end
  end.

End Cache.

Arguments data {Info} _.
Arguments cached_at {Info} _.
Arguments mkCacheEntry {Info} _ _.
Arguments cache_get {Info} _ _.
Arguments cache_set {Info} _ _ _.
Arguments cache_del {Info} _ _.
Arguments insert_sorted {Info} _ _.
Arguments sorted_items {Info} _.
Arguments _cleanup_cache_if_needed {Info} _.
Arguments get_song_info_cached {Info} _ _ _ _ _.

End MusicService.

(** ** cogs/music_commands.py: the clamp of [seek_slash] *)

Module MusicCommands.

(** [seek_seconds] after the clamp, for the current song's [duration]. *)
Definition seek_clamp (duration seek_seconds : Z) : Z :=
  if (seek_seconds <? 0)%Z then 0%Z
  else if (duration >? 0)%Z && (seek_seconds >=? duration - 5)%Z
  then Z.max 0 (duration - 5)
  else seek_seconds.

End MusicCommands.

(** ** services/playback_service.py *)

(** Calls that leave the engine, in the order they are made. *)
Inductive Effect :=
| Sleep (milliseconds : Z)
| GetSongInfo (query : string)
| ValidateUrl (stream_url : string)
| Play (stream_url : string) (volume_percent : Z)
| UpdateNowPlaying
| EditNowPlaying (embed_title : string)
| ClearReactions
| SaveGuildQueue
| ChannelSend (embed_title embed_description : string)
    (delete_after : option Z)
| CreateTaskAttemptVoiceReconnect (voice_channel : Z)
| VoiceConnect (voice_channel : Z)
| ClearGuildQueueFromDb.

(** What [_start_playback] meets inside its [try]: every call goes through;
    building the source raises; [voice_client.play] raises; or, the stream
    already running, [update_now_playing] raises (it is called only when the
    music cog is loaded) or [save_guild_queue] raises. *)
Inductive StartOutcome :=
| Started
| SourceError
| PlayError
| UpdateError
| SaveError.

(** The collaborators' answers during one transition.  [w_get_song_info] is
    asked per candidate ([skip_count]) and attempt, and [None] stands for
    [None] as for an exception; [w_randbelow] serves the shuffle of the
    candidate's [get_next_song]. *)
Record World := mkWorld {
  w_now : Z;
  w_get_song_info : nat -> nat -> string -> option SongDict;
  w_start : nat -> StartOutcome;
  w_music_cog : bool;
  w_music_channel : option Z;
  w_randbelow : nat -> nat -> nat
}.

(** A coroutine over the guild's state: its result, the state it leaves and
    the calls it made. *)
Definition M (A : Type) : Type := GuildData -> A * GuildData * list Effect.

Definition ret {A} (a : A) : M A := fun g => (a, g, []).

Definition bind {A B} (m : M A) (k : A -> M B) : M B :=
  fun g =>
    match m g with
    | (a, g1, e1) =>
        match k a g1 with
        | (b, g2, e2) => (b, g2, e1 ++ e2)
        end
    end.

Definition get : M GuildData := fun g => (g, g, []).
Definition modify (f : GuildData -> GuildData) : M unit :=
  fun g => (tt, f g, []).
Definition emit (e : Effect) : M unit := fun g => (tt, g, [e]).
Definition when (b : bool) (m : M unit) : M unit := if b then m else ret tt.

Notation "x <- m ;; k" := (bind m (fun x => k))
  (at level 61, m at next level, right associativity).
Notation "m ;;; k" := (bind m (fun _ => k))
  (at level 61, right associativity).

(** Truthiness of [d.get(key)]. *)
Definition str_truthy (v : option string) : bool :=
  match v with Some s => negb (String.eqb s "") | None => false end.
Definition int_truthy (v : option Z) : bool :=
  match v with Some n => negb (n =? 0)%Z | None => false end.

Module PlaybackService.

Definition max_skip_attempts : nat := 10.
Definition max_retries : nat := 3.

(** The music cog's channel, when the cog is loaded and finds one. *)
Definition notify_channel (w : World) : option Z :=
  if w_music_cog w then w_music_channel w else None.

Definition _handle_song_skip (w : World) (song : Song) : M unit :=
  g <- get ;;
  when (negb (String.eqb (loop_mode g) "song"))
    (modify (QueueService.add_to_history song)) ;;;
  match notify_channel w with
  | Some _ =>
      emit (ChannelSend "Song Skipped"
              ("**" ++ title song ++ "** was skipped (stream unavailable)")
              (Some 10%Z))
  | None => ret tt
  end ;;;
  g <- get ;;
  when (String.eqb (loop_mode g) "song") (modify (set_loop_mode_field "off")).

(** Whether the call of [update_now_playing] is made and raises. *)
Definition update_raises (w : World) (outcome : StartOutcome) : bool :=
  match outcome with
  | UpdateError => w_music_cog w
  | _ => false
  end.

Definition _start_playback (w : World) (song : Song) (skip_count : nat)
  : M bool :=
  match w_start w skip_count with
  | SourceError => _handle_song_skip w song ;;; ret false
  | outcome =>
      modify (set_current (Some song)) ;;;
      modify (set_seek_offset 0) ;;;
      modify (set_position 0) ;;;
      modify (set_start_time (Some (w_now w))) ;;;
      modify (set_last_activity (w_now w)) ;;;
      match outcome with
      | SourceError | PlayError => _handle_song_skip w song ;;; ret false
      | after_play =>
          g <- get ;;
          emit (Play (url song) (volume g)) ;;;
          emit (Sleep 200) ;;;
          when (w_music_cog w) (emit UpdateNowPlaying) ;;;
          if update_raises w after_play
          then _handle_song_skip w song ;;; ret false
          else
            emit SaveGuildQueue ;;;
            match after_play with
            | SaveError => _handle_song_skip w song ;;; ret false
            | _ => ret true
            end
      end
  end.

(** The assignments to [song] once fresh data has a stream URL. *)
Definition refresh (song : Song) (fresh_data : SongDict) : Song :=
  {| url := dict_get (d_url fresh_data) "";
     title := if str_truthy (d_title fresh_data)
              then dict_get (d_title fresh_data) "" else title song;
     duration := if int_truthy (d_duration fresh_data)
                 then dict_get (d_duration fresh_data) 0%Z
                 else duration song;
     thumbnail := if str_truthy (d_thumbnail fresh_data)
                  then dict_get (d_thumbnail fresh_data) ""
                  else thumbnail song;
     uploader := if str_truthy (d_uploader fresh_data)
                 then dict_get (d_uploader fresh_data) ""
                 else uploader song;
     webpage_url := webpage_url song;
     requested_by := requested_by song |}.

(** The [for attempt in range(max_retries)] loop of
    [_extract_and_play_song] over the attempts left, and what follows it. *)
Fixpoint extract_attempts (w : World) (song : Song) (skip_count : nat)
  (attempts : list nat) : M bool :=
  match attempts with
  | [] => _handle_song_skip w song ;;; ret false
  | attempt :: rest =>
      let retry :=
        when (attempt <? max_retries - 1)%nat
          (emit (Sleep (2 ^ Z.of_nat attempt * 1000))) ;;;
        extract_attempts w song skip_count rest in
      emit (GetSongInfo (webpage_url song)) ;;;
      match w_get_song_info w skip_count attempt (webpage_url song) with
      | Some fresh_data =>
          if str_truthy (d_url fresh_data)
          then
            emit (ValidateUrl (dict_get (d_url fresh_data) "")) ;;;
            _start_playback w (refresh song fresh_data) skip_count
          else retry
      | None => retry
      end
  end.

Definition _extract_and_play_song (w : World) (song : Song)
  (skip_count : nat) : M bool :=
  extract_attempts w song skip_count (seq 0 max_retries).

Definition _handle_empty_queue (w : World) : M unit :=
  modify (set_current None) ;;;
  modify (set_position 0) ;;;
  modify (set_start_time None) ;;;
  modify (set_last_activity (w_now w)) ;;;
  g <- get ;;
  match now_playing_message g with
  | Some _ =>
      emit (EditNowPlaying "Queue Empty") ;;;
      emit ClearReactions ;;;
      modify (set_now_playing_message None)
  | None => ret tt
  end ;;;
  emit SaveGuildQueue.

Definition _handle_max_retries_exceeded (w : World) : M unit :=
  modify (set_current None) ;;;
  modify (set_start_time None) ;;;
  emit SaveGuildQueue ;;;
  match notify_channel w with
  | Some _ =>
      emit (ChannelSend "Playback Stopped"
              "Too many consecutive song failures. Please check your queue and try again."
              None)
  | None => ret tt
  end.

Definition get_next_song (w : World) (skip_count : nat) : M (option Song) :=
  fun g =>
    match QueueService.get_next_song (w_randbelow w skip_count) g with
    | (next_song, g') => (next_song, g', [])
    end.

(** The [while skip_count < max_skip_attempts] loop of [play_next]:
    [Some skip_count] when the loop is left by its condition or by [break],
    [None] when [play_next] returns from inside it.  [fuel] bounds the
    iterations. *)
Fixpoint play_loop (w : World) (fuel : nat) (skip_count : nat)
  : M (option nat) :=
  if (skip_count <? max_skip_attempts)%nat
  then
    match fuel with
    | O => ret (Some skip_count)
    | S fuel' =>
        next_song <- get_next_song w skip_count ;;
        match next_song with
        | None => _handle_empty_queue w ;;; ret None
        | Some song =>
            stream_success <- _extract_and_play_song w song skip_count ;;
            if stream_success then ret (Some skip_count)
            else play_loop w fuel' (skip_count + 1)
        end
    end
  else ret (Some skip_count).

Definition voice_busy (g : GuildData) : bool :=
  match current g, voice_client g with
  | Some _, Some vc => is_playing vc || is_paused vc
  | _, _ => false
  end.

Definition voice_live (g : GuildData) : bool :=
  match voice_client g with
  | Some vc => is_connected vc
  | None => false
  end.

(** [play_next], run under the guild's [play_lock]. *)
Definition play_next (w : World) : M unit :=
  g <- get ;;
  if seeking g then ret tt
  else if voice_busy g then ret tt
  else if negb (voice_live g)
  then
    modify (set_current None) ;;;
    modify (set_position 0) ;;;
    modify (set_start_time None) ;;;
    modify (set_last_activity (w_now w))
  else
    left_at <- play_loop w max_skip_attempts 0 ;;
    match left_at with
    | Some skip_count =>
        when (max_skip_attempts <=? skip_count)%nat
          (_handle_max_retries_exceeded w)
    | None => ret tt
    end.

End PlaybackService.

(** ** bot.py: the voice supervisor *)

(** What [voice_channel.connect] does. *)
Inductive ConnectOutcome :=
| Connected (vc : VoiceClient)
| AlreadyConnectedError
| ClientError
| TimeoutError
| OtherError.

(** The voice side of the world: [guild.voice_client] as the library
    reports it, the outcome of a connection attempt, and whether
    [get_channel] finds the guild's music channel. *)
Record VoiceWorld := mkVoiceWorld {
  vw_guild_voice_client : option VoiceClient;
  vw_connect : ConnectOutcome;
  vw_get_channel : bool;
  vw_world : World
}.

Module MusicBot.

Definition _resume_playback_after_reconnect (w : World) : M unit :=
  g <- get ;;
  match current g with
  | Some current_song =>
      modify (set_current None) ;;;
      modify (fun g => set_queue (list_insert 0 current_song (queue g)) g) ;;;
      PlaybackService.play_next w
  | None =>
      match queue g with
      | _ :: _ => PlaybackService.play_next w
      | [] => ret tt
      end
  end.

Definition _cleanup_after_failed_reconnect (vw : VoiceWorld) : M unit :=
  modify (set_current None) ;;;
  modify (set_start_time None) ;;;
  modify (set_voice_client None) ;;;
  g <- get ;;
  when (w_music_cog (vw_world vw) && int_truthy (music_channel_id g)
        && vw_get_channel vw)
    (emit (ChannelSend "Voice Connection Lost"
             "The bot was disconnected from voice and couldn't reconnect. Use `/play` to start again."
             (Some 30%Z))).

Definition connected_client (v : option VoiceClient) : bool :=
  match v with
  | Some vc => is_connected vc
  | None => false
  end.

Definition _attempt_voice_reconnect (vw : VoiceWorld) (voice_channel : Z)
  : M unit :=
  let w := vw_world vw in
  emit (Sleep (Bot.voice_reconnect_delay * 1000)) ;;;
  if connected_client (vw_guild_voice_client vw)
  then
    modify (set_voice_client (vw_guild_voice_client vw)) ;;;
    _resume_playback_after_reconnect w
  else
    g <- get ;;
    if connected_client (voice_client g)
    then _resume_playback_after_reconnect w
    else
      emit (VoiceConnect voice_channel) ;;;
      match vw_connect vw with
      | Connected vc =>
          modify (set_voice_client (Some vc)) ;;;
          _resume_playback_after_reconnect w
      | AlreadyConnectedError =>
          match vw_guild_voice_client vw with
          | Some vc =>
              modify (set_voice_client (Some vc)) ;;;
              _resume_playback_after_reconnect w
          | None => ret tt
          end
      | ClientError | TimeoutError | OtherError =>
          _cleanup_after_failed_reconnect vw
      end.

Definition clear_playback_state : M unit :=
  modify (set_current None) ;;;
  modify (set_start_time None) ;;;
  modify (fun g => set_history_position (Z.of_nat (length (history g))) g) ;;;
  modify (set_queue []) ;;;
  modify (set_loop_backup []) ;;;
  emit ClearGuildQueueFromDb.

(** [on_voice_state_update] for [member], [before.channel] and
    [after.channel]; [is_self] is [member.id == self.user.id]. *)
Definition on_voice_state_update (vw : VoiceWorld) (is_self : bool)
  (before_channel after_channel : option Z) : M unit :=
  if negb is_self then ret tt
  else
    match before_channel, after_channel with
    | None, Some _ =>
        match vw_guild_voice_client vw with
        | Some vc =>
            modify (set_voice_client (Some vc)) ;;;
            emit (Sleep 1000) ;;;
            _resume_playback_after_reconnect (vw_world vw)
        | None => ret tt
        end
    | Some voice_channel, None =>
        g <- get ;;
        let had_current_song :=
          match current g with Some _ => true | None => false end in
        let had_queue := (0 <? length (queue g))%nat in
        modify (set_voice_client None) ;;;
        if intentional_disconnect g
        then
          modify (set_intentional_disconnect false) ;;;
          clear_playback_state
        else if Bot.voice_reconnect_enabled
                && (had_current_song || had_queue)
        then emit (CreateTaskAttemptVoiceReconnect voice_channel)
        else clear_playback_state
    | _, _ => ret tt
    end.

End MusicBot.

(** ** Specification-side definitions and sample data *)

(** The policy of [dequeue_next] in the words of the specification: repeat
    the current song under song-repeat, else pop the front of the queue, else
    under queue-repeat rebuild the queue from the backup (shuffled when
    [shuffle] is on) and pop its front, else nothing. *)
Definition dequeue_next_spec (randbelow : nat -> nat) (g : GuildData)
  : option Song * GuildData :=
  let song_repeat :=
    String.eqb (loop_mode g) "song"
    && match current g with Some _ => true | None => false end in
  let queue_repeat :=
    String.eqb (loop_mode g) "queue"
    && match loop_backup g with [] => false | _ => true end in
  if song_repeat then (current g, g)
  else if match queue g with [] => false | _ => true end
  then (hd_error (queue g), set_queue (tl (queue g)) g)
  else if queue_repeat
  then
    let rebuilt :=
      if shuffle g then random_shuffle randbelow (loop_backup g)
      else loop_backup g in
    (hd_error rebuilt, set_queue (tl rebuilt) g)
  else (None, g).

(** [n] calls of [add_to_history], one per song, oldest first. *)
Definition add_all_to_history (songs : list Song) (g : GuildData)
  : GuildData :=
  fold_left (fun g song => QueueService.add_to_history song g) songs g.

(** [n] calls of [add_song_to_queue]. *)
Definition add_all_to_queue (songs : list Song) (g : GuildData) : GuildData :=
  fold_left (fun g song => QueueService.add_song_to_queue song g) songs g.

Definition sample_song (name : string) : Song :=
  {| url := "";
     title := name;
     duration := 180;
     thumbnail := "";
     uploader := "Unknown";
     webpage_url := "https://youtu.be/" ++ name;
     requested_by := "Unknown" |}.

Definition song_A : Song := sample_song "A".
Definition song_B : Song := sample_song "B".
Definition song_C : Song := sample_song "C".

(** Songs with pairwise distinct [webpage_url]: the [n]-th is named by [n]
    strokes. *)
Fixpoint strokes (n : nat) : string :=
  match n with
  | O => EmptyString
  | S k => String "i"%char (strokes k)
  end.

Definition numbered_songs (n : nat) : list Song :=
  map (fun k => sample_song (strokes k)) (seq 0 n).

Definition fresh_guild : GuildData := Bot.get_guild_data 1 0.

(** A guild that enqueued [song_A] and has since played it: the queue is
    empty again, the backup still holds the song. *)
Definition guild_after_playing_A : GuildData :=
  snd (QueueService.get_next_song (fun _ => O)
         (QueueService.add_song_to_queue song_A fresh_guild)).

(** The bound and the uniqueness the history keeps. *)
Definition history_ok (g : GuildData) : Prop :=
  (length (history g) <= Config.MAX_HISTORY_SIZE)%nat
  /\ NoDup (map webpage_url (history g)).

(** What a [dict] guarantees of [bot.song_cache], and the bound
    [_cleanup_cache_if_needed] keeps on it. *)
Definition cache_ok {Info} (c : MusicService.SongCache Info) : Prop :=
  NoDup (map fst c) /\ (length c <= MusicService.max_cache_size)%nat.

(** Every entry was cached at [t] or before: the clock does not run
    backwards. *)
Definition cached_by {Info} (t : Z) (c : MusicService.SongCache Info) : Prop :=
  Forall (fun kv => (MusicService.cached_at (snd kv) <= t)%Z) c.

(** Whether the collaborator's answer for this candidate and attempt carries
    a stream URL. *)
Definition resolves (w : World) (skip_count attempt : nat) (u : string)
  : bool :=
  match w_get_song_info w skip_count attempt u with
  | Some fresh_data => str_truthy (d_url fresh_data)
  | None => false
  end.

(** The notification of a skipped song, when there is a channel for it. *)
Definition skip_notice (w : World) (song : Song) : list Effect :=
  match PlaybackService.notify_channel w with
  | Some _ =>
      [ChannelSend "Song Skipped"
         ("**" ++ title song ++ "** was skipped (stream unavailable)")
         (Some 10%Z)]
  | None => []
  end.

Definition is_terminal_notice (e : Effect) : bool :=
  match e with
  | ChannelSend embed_title _ _ => String.eqb embed_title "Playback Stopped"
  | _ => false
  end.

Definition is_skip_notice (e : Effect) : bool :=
  match e with
  | ChannelSend embed_title _ _ => String.eqb embed_title "Song Skipped"
  | _ => false
  end.

(** The guild plays nothing: no current song, no start time. *)
Definition idle (g : GuildData) : Prop :=
  current g = None /\ start_time g = None.

(** A world where no stream can be resolved; the music cog has a channel. *)
Definition failing_world : World :=
  {| w_now := 50;
     w_get_song_info := fun _ _ _ => None;
     w_start := fun _ => Started;
     w_music_cog := true;
     w_music_channel := Some 7%Z;
     w_randbelow := fun _ _ => O |}.

Definition live_client : VoiceClient :=
  {| is_connected := true; is_playing := false; is_paused := false |}.

(** Twelve songs queued on a connected guild. *)
Definition guild_with_twelve : GuildData :=
  set_voice_client (Some live_client)
    (add_all_to_queue (numbered_songs 12) fresh_guild).

(** [song_A] on repeat with nothing queued. *)
Definition song_repeat_guild : GuildData :=
  set_voice_client (Some live_client)
    (set_loop_mode_field "song" (set_current (Some song_A) fresh_guild)).

(** A coroutine that sends no terminal failure notification. *)
Definition quiet {A} (m : M A) : Prop :=
  forall g, filter is_terminal_notice (snd (m g)) = [].

(** The loop of [play_next] is left by its condition: each of its ten rounds
    drew a candidate and none of them could be started. *)
Definition all_candidates_failed (w : World) (g : GuildData) : Prop :=
  fst (fst (PlaybackService.play_loop w PlaybackService.max_skip_attempts 0 g))
  = Some PlaybackService.max_skip_attempts.

(** The reconnection yields the live handle [vc]: the library healed the
    connection by itself, or the attempt to connect went through. *)
Definition reconnects_with (vw : VoiceWorld) (vc : VoiceClient) : Prop :=
  is_connected vc = true
  /\ (vw_guild_voice_client vw = Some vc
      \/ (MusicBot.connected_client (vw_guild_voice_client vw) = false
          /\ vw_connect vw = Connected vc)).

(** A world where the connection can be made again and a stream resolves
    at the second attempt. *)
Definition fresh_B : SongDict :=
  {| d_url := Some "https://cdn.example/b.m4a";
     d_title := Some "B (remastered)";
     d_duration := Some 200%Z;
     d_thumbnail := None;
     d_uploader := None;
     d_webpage_url := Some "https://youtu.be/B";
     d_requested_by := None |}.

Definition healing_world : VoiceWorld :=
  {| vw_guild_voice_client := None;
     vw_connect := Connected live_client;
     vw_get_channel := true;
     vw_world :=
       {| w_now := 90;
          w_get_song_info :=
            fun _ attempt _ =>
              match attempt with O => None | S _ => Some fresh_B end;
          w_start := fun _ => Started;
          w_music_cog := true;
          w_music_channel := Some 7%Z;
          w_randbelow := fun _ _ => O |} |}.

(** [song_B] is playing, [song_C] is queued. *)
Definition guild_playing_B : GuildData :=
  set_voice_client
    (Some {| is_connected := true; is_playing := true; is_paused := false |})
    (set_current (Some song_B)
       (QueueService.add_song_to_queue song_C fresh_guild)).

(** The calls of [k] failed attempts to resolve [u]: each asks the
    collaborator and backs off (1s, 2s), for [k] below the last attempt. *)
Definition retried (u : string) (k : nat) : list Effect :=
  flat_map (fun attempt =>
              [GetSongInfo u; Sleep (2 ^ Z.of_nat attempt * 1000)])
    (seq 0 k).

(** The guild once [song] has been started at time [now]. *)
Definition started (song : Song) (now : Z) (g : GuildData) : GuildData :=
  set_last_activity now
    (set_start_time (Some now)
       (set_position 0
          (set_seek_offset 0 (set_current (Some song) g)))).

(** ** utils/helpers.py *)

Module Helpers.


End Helpers.

(** ** Callers of the queue service in the cogs *)

Module QueueCommands.






(** The queue surgery of [remove_slash] ([cogs/music_commands.py]) for a
    1-based [position] in the visible queue: the song named in the reply and
    the guild left behind, [None] where the command answers with an error. *)
Definition remove_slash (position : Z) (g : GuildData)
  : option Song * GuildData :=
  let visible_songs := QueueService.get_visible_queue g in
  match visible_songs with
  | [] => (None, g)
  | _ =>
      if (position <? 1)%Z || (position >? Z.of_nat (length visible_songs))%Z
      then (None, g)
      else
        match nth_error visible_songs (Z.to_nat (position - 1)) with
        | None => (None, g)
        | Some song_to_remove =>
            let actual_queue_size := Z.of_nat (length (queue g)) in
            let '(removed_song, g) :=
              if (position <=? actual_queue_size)%Z
              then QueueService.remove_song_from_queue (position - 1) g
              else (None, g) in
            let g :=
              set_loop_backup
                (filter (fun song =>
                           negb (String.eqb (webpage_url song)
                                   (webpage_url song_to_remove)))
                   (loop_backup g)) g in
            (Some (match removed_song with
                   | Some song => song
                   | None => song_to_remove
                   end), g)
        end
  end.

(** The index check and shift of [move_slash] for 1-based positions. *)
Definition move_slash (from_pos to_pos : Z) (g : GuildData)
  : bool * GuildData :=
  match queue g with
  | [] => (false, g)
  | _ =>
      let queue_length := Z.of_nat (length (queue g)) in
      if (from_pos <? 1)%Z || (from_pos >? queue_length)%Z
         || (to_pos <? 1)%Z || (to_pos >? queue_length)%Z
      then (false, g)
      else
        (true,
         snd (QueueService.move_song_in_queue (from_pos - 1) (to_pos - 1) g))
  end.

End QueueCommands.

(** ** services/music_service.py: search results *)

(** The keys of an extraction entry the normalization reads; [None] for a
    key that is absent or holds [None]. *)
Record YtEntry := mkYtEntry {
  e_title : option string;
  e_alt_title : option string;
  e_webpage_url : option string;
  e_url : option string;
  e_id : option string
}.

Module MusicSearch.

(** [a or b] on strings that may be missing. *)
Definition str_or (a b : option string) : option string :=
  if str_truthy a then a else b.

(** [_normalize_youtube_entry]; [None] stands for [None] and for the empty
    [dict]. *)
Definition _normalize_youtube_entry (entry : option YtEntry)
  : option YtEntry :=
  match entry with
  | None => None
  | Some normalized =>
      let title := str_or (e_title normalized) (e_alt_title normalized) in
      if negb (str_truthy title) then None
      else
        let webpage_url := e_webpage_url normalized in
        let url := e_url normalized in
        let video_id := e_id normalized in
        let webpage_url :=
          if negb (str_truthy webpage_url)
          then
            match url with
            | Some u =>
                if String.prefix "http" u then Some u
                else if str_truthy video_id
                then Some ("https://www.youtube.com/watch?v="
                           ++ dict_get video_id "")%string
                else webpage_url
            | None =>
                if str_truthy video_id
                then Some ("https://www.youtube.com/watch?v="
                           ++ dict_get video_id "")%string
                else webpage_url
            end
          else webpage_url in
        if negb (str_truthy webpage_url) then None
        else
          Some {| e_title := title;
                  e_alt_title := e_alt_title normalized;
                  e_webpage_url := webpage_url;
                  e_url := if negb (str_truthy url) then webpage_url else url;
                  e_id := video_id |}
  end.

(** The loop of [search_youtube] over the entries the extraction answered:
    the first entry that normalizes. *)
Fixpoint first_normalized (entries : list (option YtEntry))
  : option YtEntry :=
  match entries with
  | [] => None
  | raw_entry :: rest =>
      match _normalize_youtube_entry raw_entry with
      | Some normalized => Some normalized
      | None => first_normalized rest
      end
  end.

(** [search_youtube] given what [extract_info] answers: [None] for [None],
    for an exception and for an answer without ["entries"]. *)
Definition search_youtube (answer : option (list (option YtEntry)))
  : option YtEntry :=
  match answer with
  | Some entries => first_normalized entries
  | None => None
  end.

End MusicSearch.

(** ** bot.py: background tasks and persistence *)

Definition set_volume (v : Z) (g : GuildData) : GuildData :=
  mkGuildData (guild_id g) (queue g) (loop_backup g) (history g)
    (history_position g) (current g) (position g) (seek_offset g)
    (loop_mode g) (shuffle g) v (voice_client g) (intentional_disconnect g)
    (last_activity g) (now_playing_message g) (music_channel_id g)
    (start_time g) (message_ready_for_timestamps g) (message_last_validated g)
    (seeking g) (pause_position g).

Definition set_music_channel_id (v : option Z) (g : GuildData) : GuildData :=
  mkGuildData (guild_id g) (queue g) (loop_backup g) (history g)
    (history_position g) (current g) (position g) (seek_offset g)
    (loop_mode g) (shuffle g) (volume g) (voice_client g)
    (intentional_disconnect g) (last_activity g) (now_playing_message g) v
    (start_time g) (message_ready_for_timestamps g) (message_last_validated g)
    (seeking g) (pause_position g).

(** The [dict] that [_delayed_save_guild_queue] serializes and
    [load_persistent_queues] reads back with [data.get(key, default)]. *)
Record QueueData := mkQueueData {
  qd_queue : option (list SongDict);
  qd_loop_backup : option (list SongDict);
  qd_history : option (list SongDict);
  qd_history_position : option Z;
  qd_loop_mode : option string;
  qd_shuffle : option bool;
  qd_volume : option Z
}.

(** The [queue_data] column of a row: [NULL] or empty, text that
    [json.loads] rejects, or the decoded [dict]. *)
Inductive StoredQueue :=
| NoQueueData
| CorruptJson
| Json (data : QueueData).

Module BotTasks.

(** [cleanup_cache]: the periodic sweep of the song cache at [current_time]. *)
Definition expired_keys {Info} (current_time : Z)
  (c : MusicService.SongCache Info) : list string :=
  map fst
    (filter (fun kv =>
               (current_time - MusicService.cached_at (snd kv)
                >? MusicService.cache_ttl)%Z) c).

Definition cleanup_cache {Info} (current_time : Z)
  (c : MusicService.SongCache Info) : MusicService.SongCache Info :=
  fold_left (fun c key => MusicService.cache_del key c)
    (expired_keys current_time c) c.

(** The body of [check_voice_health] for one guild. *)
Definition check_voice_health (w : World) : M unit :=
  g <- get ;;
  match voice_client g with
  | None => ret tt
  | Some vc =>
      if is_connected vc
      then
        let has_current :=
          match current g with Some _ => true | None => false end in
        if has_current && negb (is_playing vc) && negb (is_paused vc)
        then modify (set_current None) ;;; PlaybackService.play_next w
        else ret tt
      else
        let active :=
          match current g, queue g with
          | None, [] => false
          | _, _ => true
          end in
        when active (modify (set_voice_client None))
  end.

(** The body of [cleanup_inactive] for one guild, in seconds: whether the
    bot disconnects, and the guild left behind. *)
Definition cleanup_inactive (now : Z) (g : GuildData) : bool * GuildData :=
  match voice_client g with
  | Some vc =>
      if is_connected vc
      then
        let inactive_time := (now - last_activity g)%Z in
        let is_truly_inactive :=
          negb (is_playing vc) && negb (is_paused vc)
          && match current g with Some _ => false | None => true end in
        if (inactive_time >? 5 * 60)%Z && is_truly_inactive
        then (true, set_voice_client None g)
        else (false, g)
      else (false, g)
  | None => (false, g)
  end.

(** The [queue_data] of [_delayed_save_guild_queue]. *)
Definition queue_data_of (g : GuildData) : QueueData :=
  {| qd_queue := Some (map SongModel.to_dict (queue g));
     qd_loop_backup := Some (map SongModel.to_dict (loop_backup g));
     qd_history := Some (map SongModel.to_dict (history g));
     qd_history_position := Some (history_position g);
     qd_loop_mode := Some (loop_mode g);
     qd_shuffle := Some (shuffle g);
     qd_volume := Some (volume g) |}.

(** The [queue_data] of [clear_guild_queue_from_db]. *)
Definition cleared_queue_data (g : GuildData) : QueueData :=
  {| qd_queue := Some [];
     qd_loop_backup := Some [];
     qd_history := Some (map SongModel.to_dict (history g));
     qd_history_position := Some (history_position g);
     qd_loop_mode := Some "off";
     qd_shuffle := Some false;
     qd_volume := Some (volume g) |}.

(** The body of [load_persistent_queues] for one row, on the guild's
    state. *)
Definition load_row (stored_channel_id : option Z) (queue_data : StoredQueue)
  (g : GuildData) : GuildData :=
  let g :=
    if int_truthy stored_channel_id
    then set_music_channel_id stored_channel_id g
    else g in
  match queue_data with
  | NoQueueData => g
  | CorruptJson => g
  | Json data =>
      let g := set_queue (map SongModel.from_dict (dict_get (qd_queue data) [])) g in
      let g :=
        set_loop_backup
          (map SongModel.from_dict (dict_get (qd_loop_backup data) [])) g in
      let history_data := dict_get (qd_history data) [] in
      let g := set_history (map SongModel.from_dict history_data) g in
      let g :=
        set_history_position
          (dict_get (qd_history_position data) (Z.of_nat (length (history g))))
          g in
      let g := set_loop_mode_field (dict_get (qd_loop_mode data) "off") g in
      let g := set_shuffle (dict_get (qd_shuffle data) false) g in
      set_volume (dict_get (qd_volume data) 100%Z) g
  end.

End BotTasks.

(** [n] successive calls of [get_next_song], every shuffle drawing from
    [randbelow]: what each answered, and the guild left behind. *)
Fixpoint take_songs (randbelow : nat -> nat) (n : nat) (g : GuildData)
  : list (option Song) * GuildData :=
  match n with
  | O => ([], g)
  | S k =>
      let '(next_song, g1) := QueueService.get_next_song randbelow g in
      let '(later, g2) := take_songs randbelow k g1 in
      (next_song :: later, g2)
  end.

(** No song is about to repeat. *)
Definition no_song_repeat (g : GuildData) : Prop :=
  loop_mode g <> "song" \/ current g = None.

(** The URLs of a list of songs, and lists that hold each URL once. *)
Definition urls (songs : list Song) : list string := map webpage_url songs.

Definition distinct_urls (songs : list Song) : Prop := NoDup (urls songs).

(** Entries in the order of [cached_at], oldest first. *)
Definition older_or_same {Info} (x y : string * MusicService.CacheEntry Info)
  : Prop :=
  (MusicService.cached_at (snd x) <= MusicService.cached_at (snd y))%Z.

(** A cache of [n] entries under distinct keys, the [k]-th cached at time
    [k]. *)
Definition numbered_cache (n : nat) : MusicService.SongCache string :=
  map (fun k => (strokes k, MusicService.mkCacheEntry "data" (Z.of_nat k)))
    (seq 0 n).

(** An entry known by its alternative title and its id only. *)
Definition bare_entry : YtEntry :=
  {| e_title := None;
     e_alt_title := Some "Song";
     e_webpage_url := None;
     e_url := None;
     e_id := Some "xyz" |}.

(** ** services/playback_service.py: the completion callback *)

Module PlaybackCallbacks.

(** [after_playing] of [_start_playback]; [error] tells whether the
    transport reported one.  The [play_next] it schedules on the event loop
    is run at once. *)
Definition after_playing (w : World) (error : bool) : M unit :=
  g <- get ;;
  when (negb error)
    (match current g with
     | Some cur =>
         when (negb (seeking g)) (modify (QueueService.add_to_history cur))
     | None => ret tt
     end) ;;;
  g <- get ;;
  when (negb (seeking g)) (PlaybackService.play_next w).

End PlaybackCallbacks.

Definition is_play (e : Effect) : bool :=
  match e with
  | Play _ _ => true
  | _ => false
  end.

(** The history is bounded and free of duplicates, and so is the backup of
    duplicates. *)
Definition tidy (g : GuildData) : Prop :=
  history_ok g /\ distinct_urls (loop_backup g).

(** A coroutine that keeps a property of the guild. *)
Definition keeps (P : GuildData -> Prop) {A} (m : M A) : Prop :=
  forall g, P g -> P (snd (fst (m g))).

(** At most one song is started, and then it is the current one, from
    offset 0. *)
Definition starts_at_most_one (now : Z) (g' : GuildData)
  (effs : list Effect) : Prop :=
  filter is_play effs = []
  \/ exists song,
      filter is_play effs = [Play (url song) (volume g')]
      /\ current g' = Some song
      /\ seek_offset g' = 0%Z
      /\ start_time g' = Some now.

(** What an attempt to start a candidate leaves: on [True] one [Play], of
    the song that is now current from offset 0; on [False] none. *)
Definition start_result (now : Z) (r : bool * GuildData * list Effect)
  : Prop :=
  if fst (fst r)
  then exists song,
      filter is_play (snd r) = [Play (url song) (volume (snd (fst r)))]
      /\ current (snd (fst r)) = Some song
      /\ seek_offset (snd (fst r)) = 0%Z
      /\ start_time (snd (fst r)) = Some now
  else filter is_play (snd r) = [].

(** [song_B] has just ended on a live connection, [song_C] is queued. *)
Definition guild_finished_B : GuildData :=
  set_voice_client (Some live_client)
    (set_current (Some song_B)
       (QueueService.add_song_to_queue song_C fresh_guild)).

(** The same guild while a seek restarts the stream of [song_B]. *)
Definition guild_seeking_B : GuildData :=
  let g := guild_finished_B in
  mkGuildData (guild_id g) (queue g) (loop_backup g) (history g)
    (history_position g) (current g) (position g) (seek_offset g)
    (loop_mode g) (shuffle g) (volume g) (voice_client g)
    (intentional_disconnect g) (last_activity g) (now_playing_message g)
    (music_channel_id g) (start_time g) (message_ready_for_timestamps g)
    (message_last_validated g) true (pause_position g).

(** The outcomes of [connect] that end in
    [_cleanup_after_failed_reconnect]. *)
Definition connect_failed (outcome : ConnectOutcome) : bool :=
  match outcome with
  | ClientError | TimeoutError | OtherError => true
  | Connected _ | AlreadyConnectedError => false
  end.

(** The notification of a lost connection, when the cog is loaded and the
    guild's music channel is found. *)
Definition lost_notice (vw : VoiceWorld) (g : GuildData) : list Effect :=
  if w_music_cog (vw_world vw) && int_truthy (music_channel_id g)
     && vw_get_channel vw
  then [ChannelSend "Voice Connection Lost"
          "The bot was disconnected from voice and couldn't reconnect. Use `/play` to start again."
          (Some 30%Z)]
  else [].

(** [guild_playing_B] once [/leave] has flagged the disconnect. *)
Definition guild_leaving : GuildData :=
  set_intentional_disconnect true guild_playing_B.

(** A world where the voice channel cannot be reached. *)
Definition unreachable_world : VoiceWorld :=
  {| vw_guild_voice_client := None;
     vw_connect := TimeoutError;
     vw_get_channel := true;
     vw_world := failing_world |}.

(** [guild_playing_B] cut off from voice, with a music channel. *)
Definition guild_cut_off : GuildData :=
  set_music_channel_id (Some 7%Z) (set_voice_client None guild_playing_B).

(** A connected guild that plays nothing while [song_C] is queued. *)
Definition guild_idle_queued : GuildData :=
  set_voice_client (Some live_client)
    (QueueService.add_song_to_queue song_C fresh_guild).

(** The conditions of [check_voice_health]: a live connection that neither
    plays nor is paused although a song is current, and a dead handle kept
    while there is something to play. *)
Definition stalled (g : GuildData) : bool :=
  match voice_client g, current g with
  | Some vc, Some _ =>
      is_connected vc && negb (is_playing vc) && negb (is_paused vc)
  | _, _ => false
  end.

Definition orphaned (g : GuildData) : bool :=
  match voice_client g with
  | Some vc =>
      negb (is_connected vc)
      && match current g, queue g with
         | None, [] => false
         | _, _ => true
         end
  | None => false
  end.

(** Whether a call made after [voice_client.play] raises, so that the song
    whose stream is running is skipped. *)
Definition raises_after_play (w : World) (outcome : StartOutcome) : bool :=
  PlaybackService.update_raises w outcome
  || match outcome with
     | SaveError => true
     | _ => false
     end.

(** No start of this world is followed by such a failure. *)
Definition clean_starts (w : World) : Prop :=
  forall skip_count, raises_after_play w (w_start w skip_count) = false.

(** A world where every stream resolves at once, [update_now_playing]
    raises for the first candidate, and the transport, then playing,
    refuses the later ones. *)
Definition flaky_update_world : VoiceWorld :=
  {| vw_guild_voice_client := None;
     vw_connect := Connected live_client;
     vw_get_channel := true;
     vw_world :=
       {| w_now := 90;
          w_get_song_info := fun _ _ _ => Some fresh_B;
          w_start :=
            fun skip_count =>
              match skip_count with O => UpdateError | S _ => PlayError end;
          w_music_cog := true;
          w_music_channel := Some 7%Z;
          w_randbelow := fun _ _ => O |} |}.

(** A connected guild that plays nothing while [song_B] and [song_C] are
    queued. *)
Definition guild_idle_two : GuildData :=
  set_voice_client (Some live_client)
    (QueueService.add_song_to_queue song_C
       (QueueService.add_song_to_queue song_B fresh_guild)).

(** The terminal notification, when there is a channel for it. *)
Definition stop_notice (w : World) : list Effect :=
  match PlaybackService.notify_channel w with
  | Some _ =>
      [ChannelSend "Playback Stopped"
         "Too many consecutive song failures. Please check your queue and try again."
         None]
  | None => []
  end.

(** [failing_world] without a text channel for the guild. *)
Definition silent_world : World :=
  {| w_now := 50;
     w_get_song_info := fun _ _ _ => None;
     w_start := fun _ => Started;
     w_music_cog := true;
     w_music_channel := None;
     w_randbelow := fun _ _ => O |}.

Definition fresh_C : SongDict :=
  {| d_url := Some "https://cdn.example/c.m4a";
     d_title := None;
     d_duration := None;
     d_thumbnail := None;
     d_uploader := None;
     d_webpage_url := Some "https://youtu.be/C";
     d_requested_by := None |}.

(** A world where the connection can be made again and the streams of
    [song_B] and [song_C] resolve at once. *)
Definition rejoin_world : VoiceWorld :=
  {| vw_guild_voice_client := None;
     vw_connect := Connected live_client;
     vw_get_channel := true;
     vw_world :=
       {| w_now := 90;
          w_get_song_info :=
            fun _ _ u =>
              if String.eqb u (webpage_url song_B) then Some fresh_B
              else if String.eqb u (webpage_url song_C) then Some fresh_C
              else None;
          w_start := fun _ => Started;
          w_music_cog := true;
          w_music_channel := Some 7%Z;
          w_randbelow := fun _ _ => O |} |}.



(** * Properties *)

(** Reading a field back after assignments. *)
Ltac guild_simpl :=
  cbn [guild_id queue loop_backup history history_position current position
       seek_offset loop_mode shuffle volume voice_client
       intentional_disconnect last_activity now_playing_message
       music_channel_id start_time message_ready_for_timestamps
       message_last_validated seeking pause_position
       set_queue set_loop_backup set_history set_history_position
       set_current set_position set_seek_offset set_loop_mode_field
       set_shuffle set_voice_client set_intentional_disconnect
       set_last_activity set_now_playing_message set_start_time] in *.

(** ** Copies and list primitives *)

Lemma from_dict_to_dict (s : Song) :
  SongModel.from_dict (SongModel.to_dict s) = s.
Proof. destruct s; reflexivity. Qed.

Lemma copy_song_eq (s : Song) : copy_song s = s.
Proof. apply from_dict_to_dict. Qed.

Lemma map_copy_song (l : list Song) : map copy_song l = l.
Proof.
  induction l as [|s l IH]; simpl; [reflexivity|].
  now rewrite copy_song_eq, IH.
Qed.

Section PyListFacts.
Context {A : Type}.
Implicit Types (l : list A) (i j : nat).

Lemma list_pop_spec l : forall i x rest,
  list_pop i l = Some (x, rest) <->
  nth_error l i = Some x /\ rest = firstn i l ++ skipn (S i) l.
Proof.
  induction l as [|a l IH]; intros i x rest.
  - destruct i; simpl; split; [discriminate | intros [H _]; discriminate
                              | discriminate | intros [H _]; discriminate].
  - destruct i as [|i]; simpl.
    + split.
      * intros H; inversion H; subst; auto.
      * intros [H1 H2]; inversion H1; subst; reflexivity.
    + destruct (list_pop i l) as [[y t']|] eqn:E.
      * destruct (proj1 (IH i y t') E) as [Hn Hr].
        split.
        -- intros H; inversion H; subst. split; [assumption | reflexivity].
        -- intros [H1 H2]. rewrite Hn in H1. inversion H1; subst.
           reflexivity.
      * split; [discriminate|].
        intros [H1 H2].
        assert (Hs : list_pop i l = Some (x, firstn i l ++ skipn (S i) l))
          by (apply IH; auto).
        rewrite E in Hs; discriminate.
Qed.

Lemma list_pop_in_range l i :
  (i < length l)%nat -> exists x rest, list_pop i l = Some (x, rest).
Proof.
  intros Hlt.
  destruct (nth_error l i) as [x|] eqn:E.
  - exists x, (firstn i l ++ skipn (S i) l). apply list_pop_spec; auto.
  - apply nth_error_None in E. lia.
Qed.

Lemma list_insert_spec l : forall i x,
  list_insert i x l = firstn i l ++ x :: skipn i l.
Proof.
  induction l as [|a l IH]; intros [|i] x; simpl; try reflexivity.
  now rewrite IH.
Qed.

Lemma list_last_n_length n l :
  length (list_last_n n l) = Nat.min n (length l).
Proof. unfold list_last_n. rewrite length_skipn. lia. Qed.

Lemma list_last_n_suffix n l :
  l = firstn (length l - n) l ++ list_last_n n l.
Proof. unfold list_last_n. now rewrite firstn_skipn. Qed.

Lemma list_set_perm l : forall i x y,
  nth_error l i = Some x ->
  Permutation (x :: list_set i y l) (y :: l).
Proof.
  induction l as [|a l IH]; intros [|i] x y H; simpl in *; try discriminate.
  - inversion H; subst. apply perm_swap.
  - eapply perm_trans; [apply perm_swap|].
    eapply perm_trans; [apply perm_skip, (IH _ _ _ H)|].
    apply perm_swap.
Qed.

Lemma nth_error_list_set l : forall i j a b,
  nth_error l i = Some a -> nth_error l j = Some b ->
  nth_error (list_set i b l) j = Some b.
Proof.
  induction l as [|c l IH]; intros [|i] [|j] a b Hi Hj; simpl in *;
    try discriminate; auto.
  eapply IH; eauto.
Qed.

Lemma list_swap_perm l i j : Permutation l (list_swap i j l).
Proof.
  unfold list_swap.
  destruct (nth_error l i) as [xi|] eqn:Ei; [|reflexivity].
  destruct (nth_error l j) as [xj|] eqn:Ej; [|reflexivity].
  apply Permutation_cons_inv with (a := xj).
  eapply perm_trans; [symmetry; apply (list_set_perm _ _ _ _ Ei)|].
  symmetry. apply list_set_perm.
  eapply nth_error_list_set; eauto.
Qed.

Lemma shuffle_from_perm randbelow i : forall l,
  Permutation l (shuffle_from randbelow i l).
Proof.
  induction i as [|k IH]; intros l; simpl; [reflexivity|].
  eapply perm_trans; [apply list_swap_perm | apply IH].
Qed.

Lemma random_shuffle_perm randbelow l :
  Permutation l (random_shuffle randbelow l).
Proof. apply shuffle_from_perm. Qed.

Lemma NoDup_skipn n : forall l, NoDup l -> NoDup (skipn n l).
Proof.
  induction n as [|n IH]; intros [|a l] H; simpl; auto.
  inversion H; auto.
Qed.

End PyListFacts.

(** The primitives compute as Python does: with every draw 0,
    [random.shuffle([1, 2, 3])] swaps index 2 with 0, then 1 with 0. *)
Example random_shuffle_draws_zero :
  random_shuffle (fun _ => O) [1; 2; 3]%nat = [2; 3; 1]%nat.
Proof. reflexivity. Qed.

Example cache_key_normalized :
  MusicService.strip (MusicService.lower "  HTTPS://YouTu.be/A ")
  = "https://youtu.be/a".
Proof. reflexivity. Qed.

(** ** QueueScheduler *)

Lemma set_queue_same (g : GuildData) : set_queue (queue g) g = g.
Proof. destruct g; reflexivity. Qed.

Lemma has_url_false_iff (u : string) (songs : list Song) :
  QueueService.has_url u songs = false <-> ~ In u (map webpage_url songs).
Proof.
  unfold QueueService.has_url.
  induction songs as [|s l IH]; simpl.
  - tauto.
  - rewrite orb_false_iff, IH. split.
    + intros [H1 H2] [H|H]; [|tauto].
      apply String.eqb_neq in H1. congruence.
    + intros H. split; [|tauto].
      apply String.eqb_neq. tauto.
Qed.

Lemma has_url_true_iff (u : string) (songs : list Song) :
  QueueService.has_url u songs = true <-> In u (map webpage_url songs).
Proof.
  destruct (QueueService.has_url u songs) eqn:E.
  - split; [intros _|reflexivity].
    destruct (in_dec string_dec u (map webpage_url songs)) as [H|H]; auto.
    apply has_url_false_iff in H. congruence.
  - apply has_url_false_iff in E. split; [discriminate | tauto].
Qed.

Lemma get_next_song_eq_spec (randbelow : nat -> nat) (g : GuildData) :
  QueueService.get_next_song randbelow g = dequeue_next_spec randbelow g.
Proof.
  unfold QueueService.get_next_song, dequeue_next_spec.
  destruct (String.eqb (loop_mode g) "song");
    destruct (current g) as [cur|]; simpl.
  1: now rewrite copy_song_eq.
  all: destruct (queue g) as [|front rest]; simpl; [|reflexivity].
  all: destruct (String.eqb (loop_mode g) "queue"); simpl; [|reflexivity].
  all: rewrite map_copy_song.
  all: destruct (loop_backup g) as [|b bs]; simpl; [reflexivity|].
  all: destruct (shuffle g); simpl; [|reflexivity].
  all: destruct (random_shuffle randbelow (b :: bs)); reflexivity.
Qed.

(** [get_next_song] yields nothing exactly when no song is to repeat, the
    queue is empty and there is no backup to restart from. *)
Lemma get_next_song_none_iff (randbelow : nat -> nat) (g : GuildData) :
  fst (QueueService.get_next_song randbelow g) = None <->
  (loop_mode g <> "song" \/ current g = None) /\ queue g = []
  /\ (loop_mode g <> "queue" \/ loop_backup g = []).
Proof.
  rewrite get_next_song_eq_spec.
  pose proof (random_shuffle_perm randbelow (loop_backup g)) as Hperm.
  unfold dequeue_next_spec.
  destruct (String.eqb_spec (loop_mode g) "song") as [Es|Es];
    destruct (current g) as [cur|]; simpl.
  1: { split; [discriminate|]. intros [[H|H] _]; [tauto | discriminate]. }
  all: destruct (queue g) as [|front rest]; simpl;
    [|split; [discriminate | intros (_ & H & _); discriminate]].
  all: destruct (String.eqb_spec (loop_mode g) "queue") as [Eq|Eq]; simpl;
    [|split; auto].
  all: destruct (loop_backup g) as [|b bs] eqn:Eb; simpl; [split; auto|].
  all: split; [|intros (_ & _ & [H|H]); [tauto | discriminate]].
  all: destruct (shuffle g); simpl; [|discriminate].
  all: destruct (random_shuffle randbelow (b :: bs)) eqn:Er;
    simpl; [|discriminate].
  all: apply Permutation_sym, Permutation_nil in Hperm; discriminate.
Qed.

(** C1. [get_next_song] follows the dequeue policy of the specification
    on every guild state: the current song again under song-repeat (state
    untouched), else the front of the queue, else under queue-repeat the
    front of the queue rebuilt from the backup, else nothing; the shuffle
    applied to the rebuilt queue only reorders the backup. *)
Theorem get_next_song_follows_policy :
  forall (randbelow : nat -> nat) (g : GuildData),
    QueueService.get_next_song randbelow g = dequeue_next_spec randbelow g
    /\ Permutation (loop_backup g) (random_shuffle randbelow (loop_backup g)).
Proof.
  intros randbelow g. split.
  - apply get_next_song_eq_spec.
  - apply random_shuffle_perm.
Qed.

Lemma add_song_to_queue_appends (song : Song) (g : GuildData) :
  queue (QueueService.add_song_to_queue song g) = queue g ++ [song]
  /\ loop_backup (QueueService.add_song_to_queue song g)
     = loop_backup g ++ [song].
Proof.
  unfold QueueService.add_song_to_queue; simpl.
  now rewrite copy_song_eq.
Qed.

Lemma dedup_loop_NoDup (songs : list Song) :
  forall seen_urls deduplicated,
    (forall u, In u seen_urls <-> In u (map webpage_url deduplicated)) ->
    NoDup (map webpage_url deduplicated) ->
    NoDup (map webpage_url
             (QueueService.dedup_loop songs seen_urls deduplicated)).
Proof.
  induction songs as [|song rest IH]; intros seen acc Hseen Hnd; simpl; auto.
  destruct (existsb (String.eqb (webpage_url song)) seen) eqn:E.
  - apply IH; auto.
  - apply IH.
    + intros u. rewrite map_app, in_app_iff; simpl.
      rewrite <- Hseen. tauto.
    + rewrite map_app; simpl.
      apply NoDup_rev in Hnd.
      rewrite <- (rev_involutive (_ ++ _)). apply NoDup_rev.
      rewrite rev_app_distr; simpl. constructor; auto.
      rewrite <- in_rev, <- Hseen. intros Hin.
      assert (Ht : existsb (String.eqb (webpage_url song)) seen = true).
      { apply existsb_exists. exists (webpage_url song).
        split; [assumption | apply String.eqb_refl]. }
      congruence.
Qed.

(** The forced rebuild of [sync_loop_backup] removes duplicates; the default
    call changes nothing. *)
Lemma sync_loop_backup_dedups (g : GuildData) :
  NoDup (map webpage_url (loop_backup (QueueService.sync_loop_backup true g)))
  /\ QueueService.sync_loop_backup false g = g.
Proof.
  split; [|reflexivity].
  simpl. apply dedup_loop_NoDup; simpl; [tauto | constructor].
Qed.

(** C2. Enqueueing [song_A] again once it has been played leaves two
    entries with its [webpage_url] in [loop_backup]: [add_song_to_queue]
    appends to the backup without looking at it, and the default
    [sync_loop_backup] the callers run afterwards does not repair it. *)
Theorem add_song_to_queue_duplicates_backup :
  let g := QueueService.sync_loop_backup false
             (QueueService.add_song_to_queue song_A guild_after_playing_A) in
  queue guild_after_playing_A = []
  /\ loop_backup guild_after_playing_A = [song_A]
  /\ queue g = [song_A]
  /\ loop_backup g = [song_A; song_A]
  /\ ~ NoDup (map webpage_url (loop_backup g)).
Proof.
  repeat split; try reflexivity.
  intros H. inversion H as [|x l Hin _]; subst.
  apply Hin. left. reflexivity.
Qed.

(** ** History *)

(** The history a call leaves: untouched for a URL already there, else the
    last [MAX_HISTORY_SIZE] entries of the history with the song appended. *)
Lemma add_to_history_history (song : Song) (g : GuildData) :
  history (QueueService.add_to_history song g) =
  if QueueService.has_url (webpage_url song) (history g) then history g
  else list_last_n Config.MAX_HISTORY_SIZE (history g ++ [song]).
Proof.
  unfold QueueService.add_to_history.
  destruct (QueueService.has_url (webpage_url song) (history g)); auto.
  rewrite copy_song_eq. cbn [history set_history set_history_position].
  destruct (Nat.ltb_spec Config.MAX_HISTORY_SIZE (length (history g ++ [song])))
    as [Hlt|Hge]; cbn [history set_history set_history_position
                       loop_backup set_loop_backup].
  - destruct (negb _); reflexivity.
  - assert (E : list_last_n Config.MAX_HISTORY_SIZE (history g ++ [song])
                = history g ++ [song]).
    { unfold list_last_n.
      replace (length (history g ++ [song]) - Config.MAX_HISTORY_SIZE)%nat
        with 0%nat by lia.
      reflexivity. }
    rewrite E. destruct (negb _); reflexivity.
Qed.

Lemma add_to_history_position (song : Song) (g : GuildData) :
  QueueService.has_url (webpage_url song) (history g) = false ->
  history_position (QueueService.add_to_history song g)
  = Z.of_nat (length (history (QueueService.add_to_history song g))).
Proof.
  intros Hnew. unfold QueueService.add_to_history. rewrite Hnew.
  rewrite copy_song_eq. cbn [history set_history set_history_position].
  destruct (Nat.ltb_spec Config.MAX_HISTORY_SIZE (length (history g ++ [song])))
    as [Hlt|Hge];
    cbn [history set_history set_history_position history_position
         loop_backup set_loop_backup].
  - rewrite list_last_n_length.
    replace (Nat.min Config.MAX_HISTORY_SIZE (length (history g ++ [song])))
      with Config.MAX_HISTORY_SIZE by lia.
    destruct (negb _); guild_simpl; rewrite ?list_last_n_length; lia.
  - destruct (negb _); reflexivity.
Qed.

Lemma add_to_history_ok (song : Song) (g : GuildData) :
  history_ok g -> history_ok (QueueService.add_to_history song g).
Proof.
  intros [Hlen Hnd]. unfold history_ok.
  rewrite add_to_history_history.
  destruct (QueueService.has_url (webpage_url song) (history g)) eqn:E.
  - auto.
  - split.
    + rewrite list_last_n_length. lia.
    + unfold list_last_n. rewrite <- skipn_map. apply NoDup_skipn.
      rewrite map_app; simpl.
      apply has_url_false_iff in E.
      apply NoDup_rev in Hnd.
      rewrite <- (rev_involutive (_ ++ _)). apply NoDup_rev.
      rewrite rev_app_distr; simpl. constructor; auto.
      now rewrite <- in_rev.
Qed.

Lemma add_all_to_history_ok (songs : list Song) :
  forall g, history_ok g -> history_ok (add_all_to_history songs g).
Proof.
  induction songs as [|song rest IH]; intros g Hok; simpl; auto.
  apply IH, add_to_history_ok, Hok.
Qed.

Lemma fresh_guild_history_ok (gid now : Z) :
  history_ok (Bot.get_guild_data gid now).
Proof. split; simpl; [lia | constructor]. Qed.

(** C3. After any sequence of [add_to_history] calls on a guild's state the
    history holds at most [MAX_HISTORY_SIZE] (30) songs with pairwise
    distinct [webpage_url]; a call for a song not yet in the history appends
    it and drops just the oldest entries beyond the bound, and leaves
    [history_position] at the length of the new history. *)
Theorem add_to_history_bounded_dedup :
  forall (gid now : Z) (songs : list Song),
    let g := add_all_to_history songs (Bot.get_guild_data gid now) in
    ((length (history g) <= 30)%nat /\ NoDup (map webpage_url (history g)))
    /\ forall song,
        QueueService.has_url (webpage_url song) (history g) = false ->
        let g' := QueueService.add_to_history song g in
        (exists dropped,
            history g ++ [song] = dropped ++ history g'
            /\ length dropped = (length (history g) + 1 - 30)%nat)
        /\ history_position g' = Z.of_nat (length (history g')).
Proof.
  intros gid now songs g. split.
  - apply (add_all_to_history_ok songs), fresh_guild_history_ok.
  - intros song Hnew g'. split.
    + exists (firstn (length (history g ++ [song]) - Config.MAX_HISTORY_SIZE)
                (history g ++ [song])).
      unfold g'. rewrite add_to_history_history, Hnew. split.
      * apply list_last_n_suffix.
      * rewrite length_firstn, length_app; simpl.
        unfold Config.MAX_HISTORY_SIZE. lia.
    + apply add_to_history_position, Hnew.
Qed.

(** The thirty-first distinct song pushes the first one out. *)
Lemma add_to_history_bounded_dedup_witness :
  let g := add_all_to_history (numbered_songs 30) (Bot.get_guild_data 1 0) in
  let g' := QueueService.add_to_history song_A g in
  (exists dropped,
      history g ++ [song_A] = dropped ++ history g'
      /\ length dropped = (length (history g) + 1 - 30)%nat)
  /\ history_position g' = Z.of_nat (length (history g')).
Proof.
  apply (add_to_history_bounded_dedup 1 0 (numbered_songs 30)).
  vm_compute. reflexivity.
Defined.

(** C10. [add_to_history] for a song whose [webpage_url] is already in the
    history returns at once: the whole guild state, with the history, its
    cursor and the loop backup, is left as it was. *)
Theorem add_to_history_known_url_noop :
  forall (g : GuildData) (song : Song),
    QueueService.has_url (webpage_url song) (history g) = true ->
    QueueService.add_to_history song g = g.
Proof.
  intros g song H. unfold QueueService.add_to_history. now rewrite H.
Qed.

Lemma add_to_history_known_url_noop_witness :
  let g := QueueService.add_to_history song_A fresh_guild in
  QueueService.add_to_history song_A g = g.
Proof.
  apply (add_to_history_known_url_noop
           (QueueService.add_to_history song_A fresh_guild) song_A).
  vm_compute. reflexivity.
Defined.

(** ** Removing and moving by position *)

Lemma remove_out_of_range (position : Z) (g : GuildData) :
  (position < 0 \/ Z.of_nat (length (queue g)) <= position)%Z ->
  QueueService.remove_song_from_queue position g = (None, g).
Proof.
  intros H. unfold QueueService.remove_song_from_queue.
  destruct (Z.ltb_spec position 0); simpl; [reflexivity|].
  destruct (Z.geb_spec position (Z.of_nat (length (queue g)))); [reflexivity|].
  lia.
Qed.

Lemma remove_in_range (position : Z) (g : GuildData) :
  (0 <= position < Z.of_nat (length (queue g)))%Z ->
  exists song,
    nth_error (queue g) (Z.to_nat position) = Some song
    /\ QueueService.remove_song_from_queue position g
       = (Some song,
          set_queue (firstn (Z.to_nat position) (queue g)
                     ++ skipn (S (Z.to_nat position)) (queue g)) g).
Proof.
  intros H. unfold QueueService.remove_song_from_queue.
  destruct (Z.ltb_spec position 0); [lia|]; simpl.
  destruct (Z.geb_spec position (Z.of_nat (length (queue g)))); [lia|].
  destruct (list_pop_in_range (queue g) (Z.to_nat position)) as (x & rest & E);
    [lia|].
  rewrite E. apply list_pop_spec in E as [Hn ->].
  exists x. split; [assumption | reflexivity].
Qed.

Lemma move_out_of_range (from_pos to_pos : Z) (g : GuildData) :
  (from_pos < 0 \/ Z.of_nat (length (queue g)) <= from_pos
   \/ to_pos < 0 \/ Z.of_nat (length (queue g)) <= to_pos)%Z ->
  QueueService.move_song_in_queue from_pos to_pos g = (false, g).
Proof.
  intros H. unfold QueueService.move_song_in_queue.
  destruct (Z.ltb_spec from_pos 0); simpl; [reflexivity|].
  destruct (Z.geb_spec from_pos (Z.of_nat (length (queue g)))); simpl;
    [reflexivity|].
  destruct (Z.ltb_spec to_pos 0); simpl; [reflexivity|].
  destruct (Z.geb_spec to_pos (Z.of_nat (length (queue g)))); simpl;
    [reflexivity|].
  lia.
Qed.

Lemma move_in_range (from_pos to_pos : Z) (g : GuildData) :
  (0 <= from_pos < Z.of_nat (length (queue g)))%Z ->
  (0 <= to_pos < Z.of_nat (length (queue g)))%Z ->
  exists song moved,
    nth_error (queue g) (Z.to_nat from_pos) = Some song
    /\ QueueService.move_song_in_queue from_pos to_pos g
       = (true, set_queue moved g)
    /\ nth_error moved (Z.to_nat to_pos) = Some song
    /\ firstn (Z.to_nat to_pos) moved ++ skipn (S (Z.to_nat to_pos)) moved
       = firstn (Z.to_nat from_pos) (queue g)
         ++ skipn (S (Z.to_nat from_pos)) (queue g)
    /\ length moved = length (queue g).
Proof.
  intros Hf Ht. unfold QueueService.move_song_in_queue.
  destruct (Z.ltb_spec from_pos 0); [lia|]; cbn [orb].
  destruct (Z.geb_spec from_pos (Z.of_nat (length (queue g)))); [lia|]; cbn [orb].
  destruct (Z.ltb_spec to_pos 0); [lia|]; cbn [orb].
  destruct (Z.geb_spec to_pos (Z.of_nat (length (queue g)))); [lia|]; cbn [orb].
  destruct (list_pop_in_range (queue g) (Z.to_nat from_pos))
    as (x & rest & E); [lia|].
  rewrite E. apply list_pop_spec in E as [Hn Hrest].
  assert (Hlen : S (length rest) = length (queue g)).
  { rewrite Hrest, length_app, length_firstn, length_skipn. lia. }
  assert (Hpre : length (firstn (Z.to_nat to_pos) rest) = Z.to_nat to_pos).
  { rewrite length_firstn. lia. }
  exists x, (list_insert (Z.to_nat to_pos) x rest).
  rewrite list_insert_spec.
  split; [assumption|]. split; [reflexivity|]. split; [|split].
  - rewrite nth_error_app2 by lia. rewrite Hpre, Nat.sub_diag. reflexivity.
  - rewrite firstn_app, Hpre, Nat.sub_diag, firstn_firstn, Nat.min_id.
    cbn [firstn]. rewrite app_nil_r.
    rewrite skipn_app, Hpre.
    replace (S (Z.to_nat to_pos) - Z.to_nat to_pos)%nat with 1%nat by lia.
    rewrite skipn_all2 by lia. cbn [skipn app].
    rewrite firstn_skipn. exact Hrest.
  - rewrite length_app; cbn [length]. rewrite Hpre, length_skipn. lia.
Qed.

(** C9. [remove_song_from_queue] and [move_song_in_queue] check their
    indices: outside [0 .. len(queue) - 1] they answer [None] and [False]
    and leave the guild as it was; inside, the removal answers the song at
    that position and the move puts the song at the target position, and in
    both the other songs keep their relative order (what is left once the
    song is taken out is the same list). *)
Theorem remove_and_move_bounds_checked :
  forall (g : GuildData) (position from_pos to_pos : Z),
    let n := Z.of_nat (length (queue g)) in
    let without i l := firstn (Z.to_nat i) l ++ skipn (S (Z.to_nat i)) l in
    ((position < 0 \/ n <= position)%Z ->
     QueueService.remove_song_from_queue position g = (None, g))
    /\ ((0 <= position < n)%Z ->
        exists song,
          nth_error (queue g) (Z.to_nat position) = Some song
          /\ QueueService.remove_song_from_queue position g
             = (Some song, set_queue (without position (queue g)) g))
    /\ ((from_pos < 0 \/ n <= from_pos \/ to_pos < 0 \/ n <= to_pos)%Z ->
        QueueService.move_song_in_queue from_pos to_pos g = (false, g))
    /\ ((0 <= from_pos < n)%Z -> (0 <= to_pos < n)%Z ->
        exists song moved,
          nth_error (queue g) (Z.to_nat from_pos) = Some song
          /\ QueueService.move_song_in_queue from_pos to_pos g
             = (true, set_queue moved g)
          /\ nth_error moved (Z.to_nat to_pos) = Some song
          /\ without to_pos moved = without from_pos (queue g)
          /\ length moved = length (queue g)).
Proof.
  intros g position from_pos to_pos n without.
  split; [apply remove_out_of_range|].
  split; [apply remove_in_range|].
  split; [apply move_out_of_range | apply move_in_range].
Qed.

(** On the queue [A, B, C]: position 3 and position -1 are refused,
    position 1 removes [B], and moving position 0 to position 2 gives
    [B, C, A]. *)
Lemma remove_and_move_bounds_checked_witness :
  let g := add_all_to_queue [song_A; song_B; song_C] fresh_guild in
  QueueService.remove_song_from_queue 3 g = (None, g)
  /\ QueueService.remove_song_from_queue 1 g
     = (Some song_B, set_queue [song_A; song_C] g)
  /\ QueueService.move_song_in_queue (-1) 2 g = (false, g)
  /\ QueueService.move_song_in_queue 0 2 g
     = (true, set_queue [song_B; song_C; song_A] g).
Proof.
  intro g.
  destruct (remove_and_move_bounds_checked g 3 (-1) 2) as (Hr & _ & Hm & _).
  destruct (remove_and_move_bounds_checked g 1 0 2) as (_ & Hr' & _ & Hm').
  split; [apply Hr; vm_compute; right; discriminate|].
  split.
  - destruct Hr' as (song & Hn & E); [vm_compute; split; [discriminate | reflexivity]|].
    rewrite E. vm_compute in Hn. inversion Hn; subst. reflexivity.
  - split; [apply Hm; vm_compute; left; reflexivity|].
    destruct Hm' as (song & moved & _ & E & _);
      [vm_compute; split; [discriminate | reflexivity]
      |vm_compute; split; [discriminate | reflexivity]|].
    assert (Hq : moved = [song_B; song_C; song_A]).
    { apply (f_equal (fun r => queue (snd r))) in E.
      vm_compute in E. symmetry. exact E. }
    rewrite E, Hq. reflexivity.
Defined.

(** ** Seeking *)

Lemma seek_clamp_cases (duration target : Z) :
  MusicCommands.seek_clamp duration target =
  if (duration >? 0)%Z
  then Z.max 0 (Z.min target (Z.max 0 (duration - 5)))
  else Z.max 0 target.
Proof.
  unfold MusicCommands.seek_clamp.
  destruct (Z.ltb_spec target 0); destruct (Z.gtb_spec duration 0);
    cbn [andb]; try destruct (Z.geb_spec target (duration - 5)); lia.
Qed.

(** C7, as the code has it. With a known duration ([duration > 0]) the seek
    target is clamped into [0, max(0, duration - 5)]: the result is the
    nearest point of that range, [max(0, min(target, max(0, duration - 5)))];
    with an unknown one ([duration <= 0]) only negative targets are raised to
    0.  A negative target becomes 0 and a target equal to the duration
    becomes [max(0, duration - 5)]; a target inside the range is kept. *)
Theorem seek_clamp_range :
  forall duration target : Z,
    let clamped := MusicCommands.seek_clamp duration target in
    ((0 < duration)%Z ->
     clamped = Z.max 0 (Z.min target (Z.max 0 (duration - 5)))
     /\ (0 <= clamped <= Z.max 0 (duration - 5))%Z
     /\ ((target <= 0)%Z -> clamped = 0%Z)
     /\ ((0 <= target <= Z.max 0 (duration - 5))%Z -> clamped = target)
     /\ ((Z.max 0 (duration - 5) <= target)%Z ->
         clamped = Z.max 0 (duration - 5)))
    /\ ((duration <= 0)%Z -> clamped = Z.max 0 target)
    /\ ((target < 0)%Z -> clamped = 0%Z)
    /\ MusicCommands.seek_clamp duration duration = Z.max 0 (duration - 5)
    /\ ((0 <= target < duration - 5)%Z -> clamped = target).
Proof.
  intros duration target clamped. unfold clamped.
  rewrite !seek_clamp_cases.
  destruct (Z.gtb_spec duration 0); repeat split; intros; lia.
Qed.

Lemma seek_clamp_range_witness :
  MusicCommands.seek_clamp 200 300 = 195%Z
  /\ (0 <= MusicCommands.seek_clamp 200 300 <= Z.max 0 (200 - 5))%Z
  /\ MusicCommands.seek_clamp 3 2 = 0%Z
  /\ MusicCommands.seek_clamp 0 300 = Z.max 0 300
  /\ MusicCommands.seek_clamp 200 (-5) = 0%Z
  /\ MusicCommands.seek_clamp 200 100 = 100%Z.
Proof.
  destruct (seek_clamp_range 200 300) as (H1 & _).
  destruct (seek_clamp_range 3 2) as (H1' & _).
  destruct (seek_clamp_range 0 300) as (_ & H2 & _).
  destruct (seek_clamp_range 200 (-5)) as (_ & _ & H3 & _).
  destruct (seek_clamp_range 200 100) as (_ & _ & _ & _ & H4).
  destruct H1 as (Heq & Hrange & _ & _ & Htop); [lia|].
  destruct H1' as (_ & _ & _ & _ & Htop'); [lia|].
  split; [apply Htop; lia|].
  split; [exact Hrange|].
  split; [apply Htop'; lia|].
  split; [apply H2; lia|].
  split; [apply H3; lia | apply H4; lia].
Defined.

(** A song of unknown duration (0, the default of [Song]) is not clamped
    from above: a target of 100 seconds stays 100, outside
    [0, max(0, duration - 5)] = [0, 0]. *)
Lemma seek_clamp_unknown_duration_unbounded :
  MusicCommands.seek_clamp 0 100 = 100%Z
  /\ ~ (0 <= MusicCommands.seek_clamp 0 100 <= Z.max 0 (0 - 5))%Z.
Proof.
  split; [reflexivity|].
  vm_compute. intros [_ H]. apply H. reflexivity.
Qed.

(** ** SongInfoCache *)

Section CacheFacts.
Context {Info : Type}.
Implicit Types (c : MusicService.SongCache Info)
               (e : MusicService.CacheEntry Info) (key k : string).

Import MusicService.

Lemma cache_get_None_iff key c :
  cache_get key c = None <-> ~ In key (map fst c).
Proof.
  induction c as [|[k e] c IH]; simpl; [tauto|].
  destruct (String.eqb_spec k key) as [->|Hne].
  - split; [discriminate | tauto].
  - rewrite IH. tauto.
Qed.

Lemma cache_get_set_same key e c :
  cache_get key (cache_set key e c) = Some e.
Proof.
  induction c as [|[k e'] c IH]; simpl.
  - now rewrite String.eqb_refl.
  - destruct (String.eqb_spec k key) as [->|Hne]; simpl.
    + now rewrite String.eqb_refl.
    + destruct (String.eqb_spec k key); [contradiction | exact IH].
Qed.

Lemma cache_set_present key e e0 c :
  cache_get key c = Some e0 ->
  map fst (cache_set key e c) = map fst c.
Proof.
  induction c as [|[k e'] c IH]; simpl; [discriminate|].
  destruct (String.eqb_spec k key); simpl; [reflexivity|].
  intros H. now rewrite IH.
Qed.

Lemma cache_set_present_length key e e0 c :
  cache_get key c = Some e0 -> length (cache_set key e c) = length c.
Proof.
  intros H. rewrite <- (length_map fst (cache_set key e c)).
  rewrite (cache_set_present key e e0 c H). apply length_map.
Qed.

Lemma cache_set_absent key e c :
  cache_get key c = None -> cache_set key e c = c ++ [(key, e)].
Proof.
  induction c as [|[k e'] c IH]; simpl; [reflexivity|].
  destruct (String.eqb_spec k key); [discriminate|].
  intros H. now rewrite IH.
Qed.

Lemma cache_get_del_other key k c :
  k <> key -> cache_get key (cache_del k c) = cache_get key c.
Proof.
  intros Hne. induction c as [|[k' e] c IH]; simpl; [reflexivity|].
  destruct (String.eqb_spec k' k) as [->|Hk]; simpl.
  - destruct (String.eqb_spec k key); [contradiction | reflexivity].
  - destruct (String.eqb_spec k' key); [reflexivity | exact IH].
Qed.

Lemma cache_get_del_all key (evicted : SongCache Info) : forall c,
  ~ In key (map fst evicted) ->
  cache_get key (fold_left (fun c kv => cache_del (fst kv) c) evicted c)
  = cache_get key c.
Proof.
  induction evicted as [|[k e] l IH]; intros c Hnot; simpl; [reflexivity|].
  simpl in Hnot. rewrite IH by tauto.
  apply cache_get_del_other. tauto.
Qed.

Lemma cache_del_keys_incl k c :
  incl (map fst (cache_del k c)) (map fst c).
Proof.
  induction c as [|[k' e] c IH]; simpl; [apply incl_refl|].
  destruct (String.eqb k' k).
  - apply incl_tl, incl_refl.
  - apply incl_cons; [now left | apply incl_tl, IH].
Qed.

Lemma cache_del_NoDup k c :
  NoDup (map fst c) -> NoDup (map fst (cache_del k c)).
Proof.
  induction c as [|[k' e] c IH]; simpl; [auto|].
  intros H. inversion H as [|? ? Hnin Hnd]; subst.
  destruct (String.eqb k' k); [assumption|].
  simpl. constructor; [|auto].
  intros Hin. apply Hnin. eapply cache_del_keys_incl, Hin.
Qed.

Lemma cache_del_length k c :
  In k (map fst c) -> S (length (cache_del k c)) = length c.
Proof.
  induction c as [|[k' e] c IH]; simpl; [tauto|].
  destruct (String.eqb_spec k' k) as [->|Hne]; [reflexivity|].
  intros [H|H]; [contradiction|]. simpl. now rewrite IH.
Qed.

Lemma cache_del_keeps k k' c :
  k' <> k -> In k' (map fst c) -> In k' (map fst (cache_del k c)).
Proof.
  intros Hne. induction c as [|[k0 e] c IH]; simpl; [tauto|].
  destruct (String.eqb_spec k0 k) as [->|Hk]; simpl.
  - intros [H|H]; [congruence | assumption].
  - intros [H|H]; [now left | right; auto].
Qed.

Lemma cache_del_all_NoDup (evicted : SongCache Info) : forall c,
  NoDup (map fst c) ->
  NoDup (map fst (fold_left (fun c kv => cache_del (fst kv) c) evicted c)).
Proof.
  induction evicted as [|[k e] l IH]; intros c H; simpl; [assumption|].
  apply IH, cache_del_NoDup, H.
Qed.

Lemma cache_del_all_length (evicted : SongCache Info) : forall c,
  NoDup (map fst evicted) ->
  incl (map fst evicted) (map fst c) ->
  (length (fold_left (fun c kv => cache_del (fst kv) c) evicted c)
   + length evicted = length c)%nat.
Proof.
  induction evicted as [|[k e] l IH]; intros c Hnd Hincl; simpl; [lia|].
  simpl in Hnd, Hincl. inversion Hnd as [|? ? Hnin Hnd']; subst.
  rewrite <- (cache_del_length k c) by (apply Hincl; now left).
  rewrite <- (IH (cache_del k c)); [lia | assumption |].
  intros k' Hk'. apply cache_del_keeps.
  - intros ->. contradiction.
  - apply Hincl. now right.
Qed.

Lemma insert_sorted_perm (x : string * CacheEntry Info) c :
  Permutation (x :: c) (insert_sorted x c).
Proof.
  induction c as [|y c IH]; simpl; [reflexivity|].
  destruct (cached_at (snd x) <=? cached_at (snd y))%Z; [reflexivity|].
  eapply perm_trans; [apply perm_swap | apply perm_skip, IH].
Qed.

Lemma sorted_items_perm c : Permutation c (sorted_items c).
Proof.
  induction c as [|x c IH]; simpl; [reflexivity|].
  eapply perm_trans; [apply perm_skip, IH | apply insert_sorted_perm].
Qed.

(** An entry not older than any other and inserted last sorts last. *)
Lemma insert_sorted_before_last (x y : string * CacheEntry Info) c :
  (cached_at (snd y) <= cached_at (snd x))%Z ->
  insert_sorted y (c ++ [x]) = insert_sorted y c ++ [x].
Proof.
  intros Hle. induction c as [|z c IH]; simpl.
  - destruct (Z.leb_spec (cached_at (snd y)) (cached_at (snd x)));
      [reflexivity | lia].
  - destruct (cached_at (snd y) <=? cached_at (snd z))%Z; [reflexivity|].
    now rewrite IH.
Qed.

Lemma sorted_items_newest_last (x : string * CacheEntry Info) c :
  cached_by (cached_at (snd x)) c ->
  sorted_items (c ++ [x]) = sorted_items c ++ [x].
Proof.
  unfold cached_by. induction c as [|y c IH]; intros H; simpl; [reflexivity|].
  inversion H; subst. rewrite IH by assumption.
  now apply insert_sorted_before_last.
Qed.

Lemma cleanup_small c :
  (length c <= max_cache_size)%nat -> _cleanup_cache_if_needed c = c.
Proof.
  intros H. unfold _cleanup_cache_if_needed.
  destruct (Nat.ltb_spec max_cache_size (length c)); [lia | reflexivity].
Qed.

Lemma cleanup_ok c :
  NoDup (map fst c) -> (length c <= S max_cache_size)%nat ->
  cache_ok (_cleanup_cache_if_needed c).
Proof.
  intros Hnd Hlen. unfold _cleanup_cache_if_needed, cache_ok.
  destruct (Nat.ltb_spec max_cache_size (length c)) as [Hbig|Hsmall];
    [|split; assumption].
  split; [apply cache_del_all_NoDup, Hnd|].
  pose proof (sorted_items_perm c) as Hperm.
  assert (Hkeys : Permutation (map fst c) (map fst (sorted_items c)))
    by (apply Permutation_map, Hperm).
  pose proof (cache_del_all_length (firstn 100 (sorted_items c)) c) as Hdel.
  rewrite length_firstn, <- (Permutation_length Hperm) in Hdel.
  unfold max_cache_size in *.
  assert (Hmin : Nat.min 100 (length c) = 100%nat) by lia.
  rewrite Hmin in Hdel.
  enough (length (fold_left (fun c0 kv => cache_del (fst kv) c0)
                    (firstn 100 (sorted_items c)) c) + 100 = length c)%nat
    by lia.
  apply Hdel.
  - rewrite <- firstn_map.
    rewrite <- (firstn_skipn 100 (map fst (sorted_items c))) in Hkeys.
    apply (Permutation_NoDup Hkeys) in Hnd.
    now apply NoDup_app_remove_r in Hnd.
  - intros k Hk. rewrite <- firstn_map in Hk.
    apply (Permutation_in _ (Permutation_sym Hkeys)).
    rewrite <- (firstn_skipn 100 (map fst (sorted_items c))).
    apply in_or_app. now left.
Qed.

End CacheFacts.

Section CacheLookup.
Context {Info : Type}.
Implicit Types (c : MusicService.SongCache Info)
               (e : MusicService.CacheEntry Info) (q : string)
               (resolved : option Info).

Import MusicService.

Lemma cached_lookup_hit q now t_store resolved c e :
  cache_get (strip (lower q)) c = Some e ->
  (now - cached_at e < cache_ttl)%Z ->
  get_song_info_cached q now t_store resolved c = (Some (data e), c, []).
Proof.
  intros Hget Hfresh. unfold get_song_info_cached. rewrite Hget.
  destruct (Z.ltb_spec (now - cached_at e) cache_ttl); [reflexivity | lia].
Qed.

Lemma cached_lookup_miss q now t_store resolved c :
  (forall e, cache_get (strip (lower q)) c = Some e ->
             (cache_ttl <= now - cached_at e)%Z) ->
  get_song_info_cached q now t_store resolved c
  = (resolved,
     match resolved with
     | Some d =>
         _cleanup_cache_if_needed
           (cache_set (strip (lower q)) (mkCacheEntry d t_store) c)
     | None => c
     end,
     [q]).
Proof.
  intros Hstale. unfold get_song_info_cached.
  destruct (cache_get (strip (lower q)) c) as [e|] eqn:Hget.
  - specialize (Hstale e eq_refl).
    destruct (Z.ltb_spec (now - cached_at e) cache_ttl); [lia|].
    destruct resolved; reflexivity.
  - destruct resolved; reflexivity.
Qed.

Lemma cached_lookup_hit_iff q now t_store resolved c :
  snd (get_song_info_cached q now t_store resolved c) = [] <->
  exists e, cache_get (strip (lower q)) c = Some e
            /\ (now - cached_at e < cache_ttl)%Z.
Proof.
  split.
  - intros Hhit.
    destruct (cache_get (strip (lower q)) c) as [e|] eqn:Hget.
    + destruct (Z.lt_ge_cases (now - cached_at e) cache_ttl) as [Hlt|Hge].
      * exists e. auto.
      * rewrite cached_lookup_miss in Hhit; [discriminate|].
        intros e' He'. rewrite Hget in He'. inversion He'; subst. lia.
    + rewrite cached_lookup_miss in Hhit; [discriminate|].
      intros e' He'. rewrite Hget in He'. discriminate.
  - intros (e & Hget & Hfresh).
    now rewrite (cached_lookup_hit _ _ _ _ _ _ Hget Hfresh).
Qed.

(** What a miss stores is found again, and the cache stays a bounded
    [dict]. *)
Lemma cached_store key (d : Info) t c :
  cache_ok c -> cached_by t c ->
  let c' := _cleanup_cache_if_needed (cache_set key (mkCacheEntry d t) c) in
  cache_get key c' = Some (mkCacheEntry d t) /\ cache_ok c'.
Proof.
  intros [Hnd Hlen] Hby c'. unfold c'.
  destruct (cache_get key c) as [e0|] eqn:Hget.
  - pose proof (cache_set_present key (mkCacheEntry d t) e0 c Hget) as Hkeys.
    pose proof (cache_set_present_length key (mkCacheEntry d t) e0 c Hget)
      as Hl.
    rewrite cleanup_small by lia.
    split; [apply cache_get_set_same|].
    split; [now rewrite Hkeys | lia].
  - rewrite (cache_set_absent _ _ _ Hget).
    assert (Hnew : NoDup (map fst (c ++ [(key, mkCacheEntry d t)]))).
    { rewrite map_app; simpl.
      apply NoDup_rev in Hnd.
      rewrite <- (rev_involutive (_ ++ _)). apply NoDup_rev.
      rewrite rev_app_distr; simpl. constructor; [|assumption].
      rewrite <- in_rev. now apply cache_get_None_iff. }
    split.
    + transitivity (cache_get key (c ++ [(key, mkCacheEntry d t)]));
        [|rewrite <- (cache_set_absent _ _ _ Hget);
          apply cache_get_set_same].
      unfold _cleanup_cache_if_needed.
      destruct (Nat.ltb_spec max_cache_size
                  (length (c ++ [(key, mkCacheEntry d t)]))) as [Hbig|Hsmall];
        [|reflexivity].
      apply cache_get_del_all.
      rewrite sorted_items_newest_last by exact Hby.
      pose proof (Permutation_length (sorted_items_perm c)) as Hsl.
      rewrite length_app in Hbig; simpl in Hbig. unfold max_cache_size in *.
      rewrite firstn_app.
      replace (100 - length (sorted_items c))%nat with 0%nat by lia.
      simpl. rewrite app_nil_r.
      intros Hin. apply cache_get_None_iff in Hget. apply Hget.
      apply (Permutation_in _
               (Permutation_sym (Permutation_map fst (sorted_items_perm c)))).
      rewrite <- (firstn_skipn 100 (sorted_items c)), map_app.
      apply in_or_app. now left.
    + apply cleanup_ok; [exact Hnew|].
      rewrite length_app; simpl. lia.
Qed.

End CacheLookup.

(** C8. A lookup in the song-info cache is a hit (the extraction
    collaborator is not asked) exactly when the key has an entry with
    [now - cached_at < 3600]; a hit answers the cached data and leaves the
    cache as it is, a miss answers what the collaborator resolves.  An entry
    stored at time [t] by a miss is answered from the cache at
    [t + 3600 - 1], and at [t + 3600 + 1] it is resolved again and the fresh
    result is stored with [cached_at] the time of storing. *)
Theorem song_cache_hit_within_ttl :
  forall (Info : Type) (q : string) (c0 : MusicService.SongCache Info),
    let key := MusicService.strip (MusicService.lower q) in
    let lookup := MusicService.get_song_info_cached q in
    (forall now t_store resolved,
        snd (lookup now t_store resolved c0) = [] <->
        exists e, MusicService.cache_get key c0 = Some e
                  /\ (now - MusicService.cached_at e < 3600)%Z)
    /\ (forall now t_store resolved e,
           MusicService.cache_get key c0 = Some e ->
           (now - MusicService.cached_at e < 3600)%Z ->
           lookup now t_store resolved c0
           = (Some (MusicService.data e), c0, []))
    /\ (forall now t_store resolved,
           snd (lookup now t_store resolved c0) <> [] ->
           fst (fst (lookup now t_store resolved c0)) = resolved
           /\ snd (lookup now t_store resolved c0) = [q])
    /\ (forall t_lookup t d,
           cache_ok c0 -> cached_by t c0 ->
           snd (lookup t_lookup t (Some d) c0) <> [] ->
           let c := snd (fst (lookup t_lookup t (Some d) c0)) in
           MusicService.cache_get key c
           = Some (MusicService.mkCacheEntry d t)
           /\ (forall t_store resolved,
                  lookup (t + 3600 - 1)%Z t_store resolved c
                  = (Some d, c, []))
           /\ (forall now d',
                  let r := lookup (t + 3600 + 1)%Z now (Some d') c in
                  fst (fst r) = Some d' /\ snd r = [q]
                  /\ MusicService.cache_get key (snd (fst r))
                     = Some (MusicService.mkCacheEntry d' now))
           /\ (forall now,
                  lookup (t + 3600 + 1)%Z now None c = (None, c, [q]))).
Proof.
  intros Info q c0 key lookup.
  assert (Hmiss : forall now t_store resolved c,
             snd (lookup now t_store resolved c) <> [] ->
             forall e, MusicService.cache_get key c = Some e ->
                       (MusicService.cache_ttl
                        <= now - MusicService.cached_at e)%Z).
  { intros now t_store resolved c Hne e Hget.
    destruct (Z.lt_ge_cases (now - MusicService.cached_at e)
                MusicService.cache_ttl) as [Hlt|Hge]; [|exact Hge].
    exfalso. apply Hne. unfold lookup.
    now rewrite (cached_lookup_hit _ _ _ _ _ _ Hget Hlt). }
  split; [intros; apply cached_lookup_hit_iff|].
  split; [intros; now apply cached_lookup_hit|].
  split.
  { intros now t_store resolved Hne.
    unfold lookup. rewrite cached_lookup_miss; [auto|].
    exact (Hmiss _ _ _ _ Hne). }
  intros t_lookup t d Hok Hby Hne c.
  assert (Hc : c = MusicService._cleanup_cache_if_needed
                     (MusicService.cache_set key
                        (MusicService.mkCacheEntry d t) c0)).
  { unfold c, lookup. rewrite cached_lookup_miss; [reflexivity|].
    exact (Hmiss _ _ _ _ Hne). }
  destruct (cached_store key d t c0 Hok Hby) as [Hget Hok'].
  cbv zeta in Hget, Hok'. rewrite <- Hc in Hget, Hok'.
  split; [exact Hget|].
  split.
  { intros t_store resolved. unfold lookup.
    rewrite (cached_lookup_hit _ _ _ _ _ _ Hget); [reflexivity|].
    simpl. unfold MusicService.cache_ttl. lia. }
  assert (Hstale : forall e, MusicService.cache_get key c = Some e ->
             (MusicService.cache_ttl
              <= t + 3600 + 1 - MusicService.cached_at e)%Z).
  { intros e He. fold key in Hget. rewrite Hget in He.
    inversion He; subst; simpl. unfold MusicService.cache_ttl. lia. }
  split.
  - intros now d' r. unfold r, lookup.
    rewrite cached_lookup_miss by exact Hstale. simpl.
    split; [reflexivity|]. split; [reflexivity|].
    destruct Hok' as [Hnd Hlen].
    rewrite cleanup_small.
    + apply cache_get_set_same.
    + now rewrite (cache_set_present_length _ _ _ _ Hget).
  - intros now. unfold lookup.
    now rewrite cached_lookup_miss by exact Hstale.
Qed.

(** A first query, written with capitals and blanks, is resolved and stored
    at time 1000; it is served from the cache at 4599 and resolved again at
    4601. *)
Lemma song_cache_hit_within_ttl_witness :
  let q := "  HTTPS://YouTu.be/A " in
  let lookup := MusicService.get_song_info_cached q in
  let c := snd (fst (lookup 990%Z 1000%Z (Some "A-data") [])) in
  MusicService.cache_get "https://youtu.be/a" c
  = Some (MusicService.mkCacheEntry "A-data" 1000%Z)
  /\ lookup 4599%Z 4599%Z None c = (Some "A-data", c, [])
  /\ lookup 4601%Z 4602%Z None c = (None, c, [q]).
Proof.
  intros q lookup c.
  destruct (song_cache_hit_within_ttl string q []) as (_ & _ & _ & H).
  destruct (H 990%Z 1000%Z "A-data") as (H1 & H2 & _ & H4).
  - split; [constructor | unfold MusicService.max_cache_size; simpl; lia].
  - constructor.
  - vm_compute. discriminate.
  - split; [exact H1|].
    split; [exact (H2 4599%Z None) | exact (H4 4602%Z)].
Defined.

(** ** PlaybackController *)

Ltac run_monad :=
  cbv [bind get modify emit ret when
       PlaybackService.get_next_song] in *.

Lemma add_to_history_frame (song : Song) (g : GuildData) :
  let g' := QueueService.add_to_history song g in
  queue g' = queue g /\ loop_mode g' = loop_mode g
  /\ current g' = current g /\ start_time g' = start_time g
  /\ seek_offset g' = seek_offset g /\ voice_client g' = voice_client g
  /\ seeking g' = seeking g.
Proof.
  unfold QueueService.add_to_history.
  destruct (QueueService.has_url (webpage_url song) (history g));
    [repeat split|].
  guild_simpl.
  destruct (Nat.ltb _ _); guild_simpl;
    destruct (negb _); guild_simpl; repeat split.
Qed.

Lemma add_to_history_has_url (song : Song) (g : GuildData) :
  QueueService.has_url (webpage_url song)
    (history (QueueService.add_to_history song g)) = true.
Proof.
  rewrite add_to_history_history.
  destruct (QueueService.has_url (webpage_url song) (history g)) eqn:E;
    [exact E|].
  apply has_url_true_iff. unfold list_last_n.
  rewrite skipn_app, map_app. apply in_or_app. right.
  replace (length (history g ++ [song]) - Config.MAX_HISTORY_SIZE
           - length (history g))%nat with 0%nat.
  - simpl. now left.
  - rewrite length_app; simpl. unfold Config.MAX_HISTORY_SIZE. lia.
Qed.

(** What [_handle_song_skip] leaves: under song-repeat the repeat is
    switched off and the history is not touched; otherwise the song goes
    through [add_to_history]. *)
Lemma handle_song_skip_run (w : World) (song : Song) (g : GuildData) :
  PlaybackService._handle_song_skip w song g
  = (tt,
     if String.eqb (loop_mode g) "song" then set_loop_mode_field "off" g
     else QueueService.add_to_history song g,
     skip_notice w song).
Proof.
  unfold PlaybackService._handle_song_skip, skip_notice. run_monad.
  destruct (String.eqb (loop_mode g) "song") eqn:Emode; cbn [negb].
  - destruct (PlaybackService.notify_channel w); cbn [app];
      rewrite Emode; reflexivity.
  - destruct (add_to_history_frame song g) as (_ & Hmode & _).
    cbv zeta in Hmode.
    destruct (PlaybackService.notify_channel w); cbn [app];
      rewrite Hmode, Emode; reflexivity.
Qed.

Lemma extract_attempt_failed (w : World) (song : Song)
  (skip_count attempt : nat) (rest : list nat) (g : GuildData) :
  resolves w skip_count attempt (webpage_url song) = false ->
  PlaybackService.extract_attempts w song skip_count (attempt :: rest) g
  = (emit (GetSongInfo (webpage_url song)) ;;;
     when (attempt <? PlaybackService.max_retries - 1)%nat
       (emit (Sleep (2 ^ Z.of_nat attempt * 1000))) ;;;
     PlaybackService.extract_attempts w song skip_count rest) g.
Proof.
  unfold resolves. intros Hfail. cbn [PlaybackService.extract_attempts].
  destruct (w_get_song_info w skip_count attempt (webpage_url song))
    as [fresh|]; [rewrite Hfail|]; reflexivity.
Qed.

(** Three failed attempts, with back-off after the first two, then the
    skip. *)
Lemma extract_exhausted (w : World) (song : Song) (skip_count : nat)
  (g : GuildData) :
  (forall attempt, resolves w skip_count attempt (webpage_url song) = false) ->
  PlaybackService._extract_and_play_song w song skip_count g
  = (false,
     if String.eqb (loop_mode g) "song" then set_loop_mode_field "off" g
     else QueueService.add_to_history song g,
     [GetSongInfo (webpage_url song); Sleep 1000;
      GetSongInfo (webpage_url song); Sleep 2000;
      GetSongInfo (webpage_url song)] ++ skip_notice w song).
Proof.
  intros Hfail.
  assert (Hstep := fun attempt rest =>
            extract_attempt_failed w song skip_count attempt rest g
              (Hfail attempt)).
  unfold PlaybackService._extract_and_play_song.
  cbn [seq PlaybackService.max_retries].
  rewrite Hstep. unfold bind at 1 2. cbn [emit when Nat.ltb Nat.leb
    PlaybackService.max_retries Nat.sub].
  rewrite Hstep. unfold bind at 1 2. cbn [emit when Nat.ltb Nat.leb
    PlaybackService.max_retries Nat.sub].
  rewrite Hstep. unfold bind at 1 2. cbn [emit when Nat.ltb Nat.leb
    PlaybackService.max_retries Nat.sub ret].
  cbn [PlaybackService.extract_attempts]. unfold bind.
  rewrite handle_song_skip_run. unfold ret. cbn [app].
  rewrite app_nil_r. reflexivity.
Qed.

(** A failed candidate sends the loop of [play_next] to its next round. *)
Lemma play_loop_after_skip (w : World) (fuel skip_count : nat)
  (g0 g g' : GuildData) (song : Song) (effs : list Effect) :
  (skip_count < PlaybackService.max_skip_attempts)%nat ->
  QueueService.get_next_song (w_randbelow w skip_count) g0 = (Some song, g) ->
  PlaybackService._extract_and_play_song w song skip_count g
  = (false, g', effs) ->
  PlaybackService.play_loop w (S fuel) skip_count g0
  = (fst (fst (PlaybackService.play_loop w fuel (skip_count + 1) g')),
     snd (fst (PlaybackService.play_loop w fuel (skip_count + 1) g')),
     effs ++ snd (PlaybackService.play_loop w fuel (skip_count + 1) g')).
Proof.
  intros Hlt Hnext Hplay. cbn [PlaybackService.play_loop].
  destruct (Nat.ltb_spec skip_count PlaybackService.max_skip_attempts);
    [|lia].
  run_monad. rewrite Hnext, Hplay.
  destruct (PlaybackService.play_loop w fuel (skip_count + 1) g')
    as [[r g2] e2].
  reflexivity.
Qed.

(** C5, as the code has it. When every attempt to resolve a candidate's
    stream fails, [_extract_and_play_song] answers [False]; outside
    song-repeat the candidate goes through [add_to_history], so its URL is in
    the history afterwards and the loop mode stays; under song-repeat the
    repeat is switched off ([loop_mode] becomes ["off"]) and nothing else of
    the guild changes, the history included.  With a channel to notify, one
    skip notification is sent, and the loop of [play_next] goes on with the
    next candidate. *)
Theorem stream_exhaustion_skips_candidate :
  forall (w : World) (song : Song) (skip_count : nat) (g : GuildData),
    (forall attempt,
        resolves w skip_count attempt (webpage_url song) = false) ->
    exists g' effs,
      PlaybackService._extract_and_play_song w song skip_count g
      = (false, g', effs)
      /\ (loop_mode g <> "song" ->
          g' = QueueService.add_to_history song g
          /\ QueueService.has_url (webpage_url song) (history g') = true
          /\ loop_mode g' = loop_mode g)
      /\ (loop_mode g = "song" -> g' = set_loop_mode_field "off" g)
      /\ (PlaybackService.notify_channel w <> None ->
          filter is_skip_notice effs
          = [ChannelSend "Song Skipped"
               ("**" ++ title song ++ "** was skipped (stream unavailable)")
               (Some 10%Z)])
      /\ (forall fuel g0,
             (skip_count < 10)%nat ->
             QueueService.get_next_song (w_randbelow w skip_count) g0
             = (Some song, g) ->
             PlaybackService.play_loop w (S fuel) skip_count g0
             = (fst (fst (PlaybackService.play_loop w fuel
                            (skip_count + 1) g')),
                snd (fst (PlaybackService.play_loop w fuel
                            (skip_count + 1) g')),
                effs ++ snd (PlaybackService.play_loop w fuel
                               (skip_count + 1) g'))).
Proof.
  intros w song skip_count g Hfail.
  pose proof (extract_exhausted w song skip_count g Hfail) as Hrun.
  eexists. eexists. split; [exact Hrun|].
  split; [|split; [|split]].
  - intros Hmode. apply String.eqb_neq in Hmode. rewrite Hmode.
    split; [reflexivity|]. split; [apply add_to_history_has_url|].
    apply add_to_history_frame.
  - intros Hmode. apply String.eqb_eq in Hmode. now rewrite Hmode.
  - intros Hch. unfold skip_notice.
    destruct (PlaybackService.notify_channel w); [reflexivity | contradiction].
  - intros fuel g0 Hlt Hnext.
    now apply (play_loop_after_skip w fuel skip_count g0 g _ song _).
Qed.

(** With [song_A] on repeat and unplayable: the repeat is switched off,
    nothing else changes, one notification goes out. *)
Lemma stream_exhaustion_skips_candidate_witness :
  exists effs,
    PlaybackService._extract_and_play_song failing_world song_A 0
      song_repeat_guild
    = (false, set_loop_mode_field "off" song_repeat_guild, effs)
    /\ filter is_skip_notice effs
       = [ChannelSend "Song Skipped"
            "**A** was skipped (stream unavailable)" (Some 10%Z)].
Proof.
  destruct (stream_exhaustion_skips_candidate failing_world song_A 0
              song_repeat_guild)
    as (g' & effs & Hrun & _ & Hsong & Hnotice & _).
  - intros attempt. reflexivity.
  - exists effs. rewrite Hrun, (Hsong eq_refl). split; [reflexivity|].
    apply Hnotice. discriminate.
Defined.

(** Under song-repeat the unplayable candidate is not appended to the
    history: after the failed candidate, and after the whole [play_next], the
    history of [song_repeat_guild] is still empty, its loop mode ["off"]. *)
Lemma song_repeat_skip_leaves_history :
  loop_mode (snd (fst (PlaybackService._extract_and_play_song failing_world
                         song_A 0 song_repeat_guild))) = "off"
  /\ QueueService.has_url (webpage_url song_A)
       (history (snd (fst (PlaybackService._extract_and_play_song
                             failing_world song_A 0 song_repeat_guild))))
     = false
  /\ history (snd (fst (PlaybackService.play_next failing_world
                          song_repeat_guild))) = [].
Proof. vm_compute. repeat split. Qed.

(** *** No terminal notification before the retries are exhausted *)

Lemma quiet_ret {A} (a : A) : quiet (ret a).
Proof. intros g. reflexivity. Qed.

Lemma quiet_get : quiet get.
Proof. intros g. reflexivity. Qed.

Lemma quiet_modify (f : GuildData -> GuildData) : quiet (modify f).
Proof. intros g. reflexivity. Qed.

Lemma quiet_emit (e : Effect) :
  is_terminal_notice e = false -> quiet (emit e).
Proof. intros H g. simpl. now rewrite H. Qed.

Lemma quiet_bind {A B} (m : M A) (k : A -> M B) :
  quiet m -> (forall a, quiet (k a)) -> quiet (bind m k).
Proof.
  intros Hm Hk g. unfold bind.
  specialize (Hm g). destruct (m g) as [[a g1] e1].
  specialize (Hk a g1). destruct (k a g1) as [[b g2] e2].
  simpl in *. now rewrite filter_app, Hm, Hk.
Qed.

Lemma quiet_when (b : bool) (m : M unit) : quiet m -> quiet (when b m).
Proof. destruct b; [auto | intros _; apply quiet_ret]. Qed.

Ltac quiet_step :=
  first
    [ apply quiet_ret | apply quiet_get | apply quiet_modify
    | apply quiet_emit; reflexivity
    | apply quiet_when
    | apply quiet_bind; [|intros ?]
    | match goal with
      | |- quiet (match ?x with _ => _ end) => destruct x
      end ].

Lemma quiet_handle_song_skip (w : World) (song : Song) :
  quiet (PlaybackService._handle_song_skip w song).
Proof. unfold PlaybackService._handle_song_skip. repeat quiet_step. Qed.

Lemma quiet_start_playback (w : World) (song : Song) (skip_count : nat) :
  quiet (PlaybackService._start_playback w song skip_count).
Proof.
  unfold PlaybackService._start_playback.
  destruct (w_start w skip_count);
    repeat first [apply quiet_handle_song_skip | quiet_step].
Qed.

Lemma quiet_extract_attempts (w : World) (song : Song) (skip_count : nat)
  (attempts : list nat) :
  quiet (PlaybackService.extract_attempts w song skip_count attempts).
Proof.
  induction attempts as [|attempt rest IH];
    cbn [PlaybackService.extract_attempts].
  - repeat first [apply quiet_handle_song_skip | quiet_step].
  - apply quiet_bind; [apply quiet_emit; reflexivity | intros _].
    assert (Hretry : quiet
              (when (attempt <? PlaybackService.max_retries - 1)%nat
                 (emit (Sleep (2 ^ Z.of_nat attempt * 1000))) ;;;
               PlaybackService.extract_attempts w song skip_count rest)).
    { apply quiet_bind; [apply quiet_when, quiet_emit; reflexivity|].
      intros _. exact IH. }
    destruct (w_get_song_info w skip_count attempt (webpage_url song))
      as [fresh|]; [|exact Hretry].
    destruct (str_truthy (d_url fresh)); [|exact Hretry].
    apply quiet_bind; [apply quiet_emit; reflexivity | intros _].
    apply quiet_start_playback.
Qed.

Lemma quiet_handle_empty_queue (w : World) :
  quiet (PlaybackService._handle_empty_queue w).
Proof. unfold PlaybackService._handle_empty_queue. repeat quiet_step. Qed.

Lemma quiet_get_next_song (w : World) (skip_count : nat) :
  quiet (PlaybackService.get_next_song w skip_count).
Proof.
  intros g. unfold PlaybackService.get_next_song.
  destruct (QueueService.get_next_song _ g). reflexivity.
Qed.

Lemma quiet_play_loop (w : World) (fuel : nat) :
  forall skip_count, quiet (PlaybackService.play_loop w fuel skip_count).
Proof.
  induction fuel as [|fuel IH]; intros skip_count;
    cbn [PlaybackService.play_loop];
    destruct (skip_count <? PlaybackService.max_skip_attempts)%nat;
    try apply quiet_ret.
  apply quiet_bind; [apply quiet_get_next_song | intros [song|]].
  - apply quiet_bind; [apply quiet_extract_attempts | intros [|]].
    + apply quiet_ret.
    + apply IH.
  - apply quiet_bind; [apply quiet_handle_empty_queue | intros _].
    apply quiet_ret.
Qed.

(** *** Exhausted retries *)

Lemma handle_max_retries_exceeded_run (w : World) (g : GuildData) :
  PlaybackService._handle_max_retries_exceeded w g
  = (tt, set_start_time None (set_current None g),
     SaveGuildQueue ::
     match PlaybackService.notify_channel w with
     | Some _ =>
         [ChannelSend "Playback Stopped"
            "Too many consecutive song failures. Please check your queue and try again."
            None]
     | None => []
     end).
Proof.
  unfold PlaybackService._handle_max_retries_exceeded. run_monad.
  destruct (PlaybackService.notify_channel w); reflexivity.
Qed.

(** C4, as the code has it.  When none of the ten candidates of a
    [play_next] can be started, the engine halts for the guild: [current]
    and [start_time] are cleared, a save of the guild's queue is requested,
    and the terminal notification "Playback Stopped" is sent once when the
    music cog is loaded and finds a channel for the guild, and not at all
    otherwise. *)
Theorem max_skip_attempts_halts_playback :
  forall (w : World) (g : GuildData),
    seeking g = false ->
    PlaybackService.voice_busy g = false ->
    PlaybackService.voice_live g = true ->
    all_candidates_failed w g ->
    exists g' effs,
      PlaybackService.play_next w g = (tt, g', effs)
      /\ current g' = None
      /\ idle g'
      /\ In SaveGuildQueue effs
      /\ filter is_terminal_notice effs = stop_notice w
      /\ (PlaybackService.notify_channel w <> None ->
          filter is_terminal_notice effs
          = [ChannelSend "Playback Stopped"
               "Too many consecutive song failures. Please check your queue and try again."
               None])
      /\ (PlaybackService.notify_channel w = None ->
          filter is_terminal_notice effs = []).
Proof.
  intros w g Hseek Hbusy Hlive Hfailed.
  unfold all_candidates_failed in Hfailed.
  pose proof (quiet_play_loop w PlaybackService.max_skip_attempts 0 g)
    as Hquiet.
  unfold PlaybackService.play_next. run_monad.
  rewrite Hseek, Hbusy, Hlive. cbn [negb].
  destruct (PlaybackService.play_loop w PlaybackService.max_skip_attempts 0 g)
    as [[left_at g1] e1].
  cbn [fst snd] in Hfailed, Hquiet. subst left_at.
  cbn [Nat.leb PlaybackService.max_skip_attempts].
  rewrite handle_max_retries_exceeded_run.
  eexists. eexists. split; [reflexivity|].
  split; [reflexivity|]. split; [unfold idle; split; reflexivity|]. split.
  { cbn [app]. apply in_or_app. right. now left. }
  cbn [app]. rewrite filter_app, Hquiet. unfold stop_notice.
  destruct (PlaybackService.notify_channel w) as [ch|].
  - split; [reflexivity|]. split; [reflexivity | discriminate].
  - split; [reflexivity|]. split; [|reflexivity].
    intros Hch. now contradiction Hch.
Qed.

Lemma queue_after_skip (song : Song) (g : GuildData) :
  queue (if String.eqb (loop_mode g) "song" then set_loop_mode_field "off" g
         else QueueService.add_to_history song g) = queue g.
Proof.
  destruct (String.eqb (loop_mode g) "song"); [reflexivity|].
  apply add_to_history_frame.
Qed.

(** Ten queued songs and no stream to be had: all ten rounds fail. *)
Lemma ten_queued_unplayable_fail (w : World) :
  (forall skip_count attempt u, resolves w skip_count attempt u = false) ->
  forall fuel skip_count g,
    (skip_count + fuel = PlaybackService.max_skip_attempts)%nat ->
    (fuel <= length (queue g))%nat ->
    fst (fst (PlaybackService.play_loop w fuel skip_count g))
    = Some PlaybackService.max_skip_attempts.
Proof.
  intros Hfail. induction fuel as [|fuel IH]; intros skip_count g Hsum Hlen.
  - rewrite Nat.add_0_r in Hsum. subst skip_count. reflexivity.
  - assert (Hlt : (skip_count < PlaybackService.max_skip_attempts)%nat)
      by lia.
    assert (Hnext : exists song g1,
               QueueService.get_next_song (w_randbelow w skip_count) g
               = (Some song, g1)
               /\ (fuel <= length (queue g1))%nat).
    { rewrite get_next_song_eq_spec. unfold dequeue_next_spec.
      destruct (String.eqb (loop_mode g) "song" &&
                match current g with Some _ => true | None => false end)
        eqn:Erepeat.
      - destruct (current g) as [cur|];
          [|rewrite andb_false_r in Erepeat; discriminate].
        exists cur, g. split; [reflexivity | lia].
      - destruct (queue g) as [|front rest] eqn:Eq; simpl in Hlen; [lia|].
        exists front, (set_queue rest g). split; [reflexivity|].
        guild_simpl. lia. }
    destruct Hnext as (song & g1 & Hnext & Hq).
    rewrite (play_loop_after_skip w fuel skip_count g g1 _ song _ Hlt Hnext
               (extract_exhausted w song skip_count g1
                  (fun attempt => Hfail skip_count attempt _))).
    cbn [fst snd]. apply IH; [lia|].
    now rewrite queue_after_skip.
Qed.

(** Twelve songs are queued and no stream resolves: [play_next] leaves the
    guild idle and sends one "Playback Stopped". *)
Lemma max_skip_attempts_halts_playback_witness :
  exists g' effs,
    PlaybackService.play_next failing_world guild_with_twelve = (tt, g', effs)
    /\ current g' = None
    /\ idle g'
    /\ In SaveGuildQueue effs
    /\ filter is_terminal_notice effs = stop_notice failing_world
    /\ (PlaybackService.notify_channel failing_world <> None ->
        filter is_terminal_notice effs
        = [ChannelSend "Playback Stopped"
             "Too many consecutive song failures. Please check your queue and try again."
             None])
    /\ (PlaybackService.notify_channel failing_world = None ->
        filter is_terminal_notice effs = []).
Proof.
  apply (max_skip_attempts_halts_playback failing_world guild_with_twelve).
  - reflexivity.
  - reflexivity.
  - reflexivity.
  - apply (ten_queued_unplayable_fail failing_world).
    + intros skip_count attempt u. reflexivity.
    + reflexivity.
    + vm_compute. lia.
Defined.

(** The same twelve songs where the cog finds no channel: all ten candidates
    fail, the guild goes idle and is saved, and no terminal notification is
    sent at all. *)
Lemma max_skip_attempts_silent_without_channel :
  let r := PlaybackService.play_next silent_world guild_with_twelve in
  seeking guild_with_twelve = false
  /\ PlaybackService.voice_busy guild_with_twelve = false
  /\ PlaybackService.voice_live guild_with_twelve = true
  /\ all_candidates_failed silent_world guild_with_twelve
  /\ idle (snd (fst r))
  /\ In SaveGuildQueue (snd r)
  /\ filter is_terminal_notice (snd r) = []
  /\ filter is_terminal_notice (snd r)
     <> [ChannelSend "Playback Stopped"
           "Too many consecutive song failures. Please check your queue and try again."
           None].
Proof.
  intros r.
  assert (Hnone : filter is_terminal_notice (snd r) = [])
    by (vm_compute; reflexivity).
  split; [reflexivity|]. split; [reflexivity|]. split; [reflexivity|].
  split.
  { apply (ten_queued_unplayable_fail silent_world).
    - intros skip_count attempt u. reflexivity.
    - reflexivity.
    - vm_compute. lia. }
  split; [split; vm_compute; reflexivity|].
  split.
  { assert (Hsave : existsb (fun e => match e with
                                      | SaveGuildQueue => true
                                      | _ => false
                                      end) (snd r) = true)
      by (vm_compute; reflexivity).
    apply existsb_exists in Hsave as (e & Hin & He).
    destruct e; try discriminate He. exact Hin. }
  split; [exact Hnone|]. intros Hone. rewrite Hnone in Hone.
  discriminate Hone.
Qed.

(** *** Starting the song at the head of the queue *)

Lemma extract_attempt_resolved (w : World) (song : Song)
  (skip_count attempt : nat) (rest : list nat) (fresh : SongDict)
  (g : GuildData) :
  w_get_song_info w skip_count attempt (webpage_url song) = Some fresh ->
  str_truthy (d_url fresh) = true ->
  PlaybackService.extract_attempts w song skip_count (attempt :: rest) g
  = (emit (GetSongInfo (webpage_url song)) ;;;
     emit (ValidateUrl (dict_get (d_url fresh) "")) ;;;
     PlaybackService._start_playback w (PlaybackService.refresh song fresh)
       skip_count) g.
Proof.
  intros Hres Hurl. cbn [PlaybackService.extract_attempts].
  now rewrite Hres, Hurl.
Qed.

Lemma start_playback_started (w : World) (song : Song) (skip_count : nat)
  (g : GuildData) :
  w_start w skip_count = Started ->
  PlaybackService._start_playback w song skip_count g
  = (true, started song (w_now w) g,
     [Play (url song) (volume g); Sleep 200]
     ++ (if w_music_cog w then [UpdateNowPlaying] else [])
     ++ [SaveGuildQueue]).
Proof.
  intros Hstart. unfold PlaybackService._start_playback. rewrite Hstart.
  run_monad. destruct (w_music_cog w); reflexivity.
Qed.

(** The stream resolves at attempt [k], after [k] failures. *)
Lemma extract_resolves_at (w : World) (song : Song) (skip_count k : nat)
  (fresh : SongDict) (g : GuildData) :
  (k < PlaybackService.max_retries)%nat ->
  (forall attempt, (attempt < k)%nat ->
                   resolves w skip_count attempt (webpage_url song) = false) ->
  w_get_song_info w skip_count k (webpage_url song) = Some fresh ->
  str_truthy (d_url fresh) = true ->
  w_start w skip_count = Started ->
  PlaybackService._extract_and_play_song w song skip_count g
  = (true, started (PlaybackService.refresh song fresh) (w_now w) g,
     retried (webpage_url song) k
     ++ [GetSongInfo (webpage_url song);
         ValidateUrl (dict_get (d_url fresh) "");
         Play (dict_get (d_url fresh) "") (volume g);
         Sleep 200]
     ++ (if w_music_cog w then [UpdateNowPlaying] else [])
     ++ [SaveGuildQueue]).
Proof.
  intros Hk Hfail Hres Hurl Hstart.
  unfold PlaybackService._extract_and_play_song.
  cbn [seq PlaybackService.max_retries].
  unfold PlaybackService.max_retries in Hk.
  destruct k as [|[|[|k]]]; [| | |lia].
  - rewrite (extract_attempt_resolved _ _ _ _ _ _ _ Hres Hurl).
    unfold bind, emit. rewrite (start_playback_started _ _ _ _ Hstart).
    reflexivity.
  - rewrite extract_attempt_failed by (apply Hfail; lia).
    unfold bind at 1 2, emit at 1, when.
    cbn [Nat.ltb Nat.leb PlaybackService.max_retries Nat.sub].
    unfold emit at 1.
    rewrite (extract_attempt_resolved _ _ _ _ _ _ _ Hres Hurl).
    unfold bind, emit. rewrite (start_playback_started _ _ _ _ Hstart).
    reflexivity.
  - rewrite extract_attempt_failed by (apply Hfail; lia).
    unfold bind at 1 2, emit at 1, when.
    cbn [Nat.ltb Nat.leb PlaybackService.max_retries Nat.sub].
    unfold emit at 1.
    rewrite extract_attempt_failed by (apply Hfail; lia).
    unfold bind at 1 2, emit at 1, when.
    cbn [Nat.ltb Nat.leb PlaybackService.max_retries Nat.sub].
    unfold emit at 1.
    rewrite (extract_attempt_resolved _ _ _ _ _ _ _ Hres Hurl).
    unfold bind, emit. rewrite (start_playback_started _ _ _ _ Hstart).
    reflexivity.
Qed.

(** With nothing current, a live connection and a first candidate whose
    stream resolves within the three attempts, [play_next] pops the head of
    the queue and starts it from offset 0. *)
Lemma play_next_starts_front (w : World) (g : GuildData) (front : Song)
  (rest : list Song) (fresh : SongDict) (k : nat) :
  seeking g = false ->
  current g = None ->
  PlaybackService.voice_live g = true ->
  queue g = front :: rest ->
  (k < PlaybackService.max_retries)%nat ->
  (forall attempt, (attempt < k)%nat ->
                   resolves w 0 attempt (webpage_url front) = false) ->
  w_get_song_info w 0 k (webpage_url front) = Some fresh ->
  str_truthy (d_url fresh) = true ->
  w_start w 0 = Started ->
  PlaybackService.play_next w g
  = (tt,
     started (PlaybackService.refresh front fresh) (w_now w)
       (set_queue rest g),
     retried (webpage_url front) k
     ++ [GetSongInfo (webpage_url front);
         ValidateUrl (dict_get (d_url fresh) "");
         Play (dict_get (d_url fresh) "") (volume g);
         Sleep 200]
     ++ (if w_music_cog w then [UpdateNowPlaying] else [])
     ++ [SaveGuildQueue]).
Proof.
  intros Hseek Hcur Hlive Hq Hk Hfail Hres Hurl Hstart.
  unfold PlaybackService.play_next. run_monad.
  rewrite Hseek.
  unfold PlaybackService.voice_busy. rewrite Hcur, Hlive. cbn [negb].
  cbn [PlaybackService.play_loop PlaybackService.max_skip_attempts
       Nat.ltb Nat.leb].
  run_monad.
  assert (Hnext : QueueService.get_next_song (w_randbelow w 0) g
                  = (Some front, set_queue rest g)).
  { unfold QueueService.get_next_song. rewrite Hcur, Hq.
    destruct (String.eqb (loop_mode g) "song"); reflexivity. }
  rewrite Hnext.
  rewrite (extract_resolves_at w front 0 k fresh (set_queue rest g)
             Hk Hfail Hres Hurl Hstart).
  cbn [app]. rewrite !app_nil_r. reflexivity.
Qed.

(** ** VoiceSupervisor *)

Lemma involuntary_disconnect_schedules_reconnect (vw : VoiceWorld)
  (g : GuildData) (voice_channel : Z) :
  intentional_disconnect g = false ->
  current g <> None \/ queue g <> [] ->
  MusicBot.on_voice_state_update vw true (Some voice_channel) None g
  = (tt, set_voice_client None g,
     [CreateTaskAttemptVoiceReconnect voice_channel]).
Proof.
  intros Hint Hactive.
  unfold MusicBot.on_voice_state_update. run_monad. cbn [negb].
  guild_simpl. rewrite Hint.
  destruct (current g) as [cur|]; [reflexivity|].
  destruct (queue g) as [|front rest]; [|reflexivity].
  destruct Hactive; contradiction.
Qed.

(** A successful reconnection hands the guild, with the new handle, to
    [_resume_playback_after_reconnect]. *)
Lemma reconnect_success_resumes (vw : VoiceWorld) (g : GuildData)
  (voice_channel : Z) (vc : VoiceClient) :
  voice_client g = None ->
  reconnects_with vw vc ->
  exists pre,
    MusicBot._attempt_voice_reconnect vw voice_channel g
    = (tt,
       snd (fst (MusicBot._resume_playback_after_reconnect (vw_world vw)
                   (set_voice_client (Some vc) g))),
       pre ++ snd (MusicBot._resume_playback_after_reconnect (vw_world vw)
                     (set_voice_client (Some vc) g)))
    /\ (pre = [Sleep 2000] \/ pre = [Sleep 2000; VoiceConnect voice_channel]).
Proof.
  intros Hvc [Hlive [Hheal|[Hdown Hconn]]];
    unfold MusicBot._attempt_voice_reconnect; run_monad.
  - rewrite Hheal. cbn [MusicBot.connected_client]. rewrite Hlive.
    destruct (MusicBot._resume_playback_after_reconnect _ _) as [[[] g2] e2].
    exists [Sleep 2000]. split; [reflexivity | now left].
  - rewrite Hdown, Hvc, Hconn. cbn [MusicBot.connected_client].
    destruct (MusicBot._resume_playback_after_reconnect _ _) as [[[] g2] e2].
    exists [Sleep 2000; VoiceConnect voice_channel].
    split; [reflexivity | now right].
Qed.

(** The interrupted song goes back to the head of the queue and [play_next]
    takes over. *)
Lemma resume_reinserts_current (w : World) (g : GuildData) (song : Song) :
  current g = Some song ->
  MusicBot._resume_playback_after_reconnect w g
  = PlaybackService.play_next w
      (set_queue (song :: queue g) (set_current None g)).
Proof.
  intros Hcur. unfold MusicBot._resume_playback_after_reconnect. run_monad.
  rewrite Hcur. cbn [list_insert]. guild_simpl.
  destruct (PlaybackService.play_next w _) as [[[] g2] e2]. reflexivity.
Qed.

(** The voice connection drops while [B] is current and [C] is queued,
    without [intentional_disconnect]: a reconnection attempt is scheduled and
    the guild keeps [B] and [C].  When the attempt reconnects a guild in
    which [B] is still current, [B] is put back at the head of the queue,
    which becomes [B, C], and [play_next] starts [B] again (its stream
    resolved afresh) from offset 0, leaving [C] queued. *)
Lemma reconnect_resumes_surviving_current :
  forall (vw : VoiceWorld) (g : GuildData) (B C : Song) (voice_channel : Z)
         (vc : VoiceClient) (fresh : SongDict) (k : nat),
    let w := vw_world vw in
    current g = Some B ->
    queue g = [C] ->
    intentional_disconnect g = false ->
    seeking g = false ->
    reconnects_with vw vc ->
    (k < 3)%nat ->
    (forall attempt, (attempt < k)%nat ->
                     resolves w 0 attempt (webpage_url B) = false) ->
    w_get_song_info w 0 k (webpage_url B) = Some fresh ->
    str_truthy (d_url fresh) = true ->
    w_start w 0 = Started ->
    exists g1 g_mid g2 pre effs,
      MusicBot.on_voice_state_update vw true (Some voice_channel) None g
      = (tt, g1, [CreateTaskAttemptVoiceReconnect voice_channel])
      /\ current g1 = Some B /\ queue g1 = [C]
      /\ MusicBot._attempt_voice_reconnect vw voice_channel g1
         = (tt, g2, pre ++ effs)
      /\ queue g_mid = [B; C] /\ current g_mid = None
      /\ PlaybackService.play_next w g_mid = (tt, g2, effs)
      /\ current g2 = Some (PlaybackService.refresh B fresh)
      /\ webpage_url (PlaybackService.refresh B fresh) = webpage_url B
      /\ seek_offset g2 = 0%Z
      /\ start_time g2 = Some (w_now w)
      /\ queue g2 = [C]
      /\ In (Play (dict_get (d_url fresh) "") (volume g)) effs.
Proof.
  intros vw g B C voice_channel vc fresh k w
         Hcur Hq Hint Hseek Hrec Hk Hfail Hres Hurl Hstart.
  pose (g1 := set_voice_client None g).
  pose (g_mid := set_queue (B :: queue (set_voice_client (Some vc) g1))
                   (set_current None (set_voice_client (Some vc) g1))).
  destruct Hrec as [Hlive Hpath].
  assert (Hmid : queue g_mid = [B; C])
    by (unfold g_mid, g1; guild_simpl; now rewrite Hq).
  assert (Hplay : PlaybackService.play_next w g_mid = _)
    by (apply (play_next_starts_front w g_mid B [C] fresh k);
        [exact Hseek | reflexivity | exact Hlive | exact Hmid
        | exact Hk | exact Hfail | exact Hres | exact Hurl | exact Hstart]).
  destruct (reconnect_success_resumes vw g1 voice_channel vc eq_refl
              (conj Hlive Hpath)) as (pre & Hattempt & _).
  rewrite (resume_reinserts_current (vw_world vw)
             (set_voice_client (Some vc) g1) B Hcur) in Hattempt.
  fold w in Hattempt. fold g_mid in Hattempt.
  rewrite Hplay in Hattempt. cbn [fst snd] in Hattempt.
  eexists g1, g_mid, _, pre, _.
  split.
  { apply involuntary_disconnect_schedules_reconnect; [exact Hint|].
    left. rewrite Hcur. discriminate. }
  split; [exact Hcur|]. split; [exact Hq|].
  split; [exact Hattempt|].
  split; [exact Hmid|].
  split; [reflexivity|].
  split; [exact Hplay|].
  repeat split.
  apply in_or_app. right. right. right. now left.
Qed.

(** [song_B] is playing and [song_C] queued when the connection drops; the
    bot connects again and [song_B], resolved at the second attempt, starts
    over with its fresh stream. *)
Lemma reconnect_resumes_surviving_current_example :
  exists g1 g_mid g2 pre effs,
    MusicBot.on_voice_state_update healing_world true (Some 5%Z) None
      guild_playing_B
    = (tt, g1, [CreateTaskAttemptVoiceReconnect 5%Z])
    /\ current g1 = Some song_B /\ queue g1 = [song_C]
    /\ MusicBot._attempt_voice_reconnect healing_world 5%Z g1
       = (tt, g2, pre ++ effs)
    /\ queue g_mid = [song_B; song_C] /\ current g_mid = None
    /\ PlaybackService.play_next (vw_world healing_world) g_mid
       = (tt, g2, effs)
    /\ current g2 = Some (PlaybackService.refresh song_B fresh_B)
    /\ webpage_url (PlaybackService.refresh song_B fresh_B)
       = webpage_url song_B
    /\ seek_offset g2 = 0%Z
    /\ start_time g2 = Some 90%Z
    /\ queue g2 = [song_C]
    /\ In (Play "https://cdn.example/b.m4a" 100%Z) effs.
Proof.
  apply (reconnect_resumes_surviving_current healing_world guild_playing_B
           song_B song_C 5%Z live_client fresh_B 1).
  - reflexivity.
  - reflexivity.
  - reflexivity.
  - reflexivity.
  - split; [reflexivity|]. right. split; reflexivity.
  - lia.
  - intros [|attempt] Hlt; [reflexivity | lia].
  - reflexivity.
  - reflexivity.
  - reflexivity.
Qed.

(** C6. The connection drops while [song_B] is current and [song_C] is
    queued, without [intentional_disconnect]: the reconnection is scheduled
    and both are kept.  The transport, stopped by the disconnect, then calls
    the completion callback of [song_B]; its [play_next] finds no voice
    client and clears [current].  When the attempt reconnects there is no
    current song left to reinsert: the queue stays [C] and never becomes
    [B, C], [song_C] is started and [song_B] is not played again.  Had the
    callback not run, the same reconnection would have restarted
    [song_B]. *)
Theorem disconnect_callback_loses_interrupted_song :
  let w := vw_world rejoin_world in
  let dropped :=
    MusicBot.on_voice_state_update rejoin_world true (Some 5%Z) None
      guild_playing_B in
  let stopped := PlaybackCallbacks.after_playing w false (snd (fst dropped)) in
  let rejoined :=
    MusicBot._attempt_voice_reconnect rejoin_world 5 (snd (fst stopped)) in
  let undisturbed :=
    MusicBot._attempt_voice_reconnect rejoin_world 5 (snd (fst dropped)) in
  (current guild_playing_B = Some song_B
   /\ queue guild_playing_B = [song_C]
   /\ intentional_disconnect guild_playing_B = false)
  /\ (snd dropped = [CreateTaskAttemptVoiceReconnect 5]
      /\ current (snd (fst dropped)) = Some song_B
      /\ queue (snd (fst dropped)) = [song_C])
  /\ (snd stopped = []
      /\ current (snd (fst stopped)) = None
      /\ queue (snd (fst stopped)) = [song_C]
      /\ history (snd (fst stopped)) = [song_B])
  /\ (filter is_play (snd rejoined) = [Play "https://cdn.example/c.m4a" 100]
      /\ current (snd (fst rejoined))
         = Some (PlaybackService.refresh song_C fresh_C)
      /\ queue (snd (fst rejoined)) = [])
  /\ (filter is_play (snd undisturbed)
      = [Play "https://cdn.example/b.m4a" 100]
      /\ current (snd (fst undisturbed))
         = Some (PlaybackService.refresh song_B fresh_B)
      /\ seek_offset (snd (fst undisturbed)) = 0%Z
      /\ queue (snd (fst undisturbed)) = [song_C]).
Proof. vm_compute. repeat split. Qed.

(** * Further properties of the engine *)

Ltac guild_simpl' :=
  cbn [guild_id queue loop_backup history history_position current position
       seek_offset loop_mode shuffle volume voice_client
       intentional_disconnect last_activity now_playing_message
       music_channel_id start_time message_ready_for_timestamps
       message_last_validated seeking pause_position
       set_queue set_loop_backup set_history set_history_position
       set_current set_position set_seek_offset set_loop_mode_field
       set_shuffle set_voice_client set_intentional_disconnect
       set_last_activity set_now_playing_message set_start_time
       set_volume set_music_channel_id] in *.

(** ** QueueScheduler: the loop backup *)

Lemma NoDup_snoc {A} (l : list A) (x : A) :
  NoDup l -> ~ In x l -> NoDup (l ++ [x]).
Proof.
  intros Hnd Hnin. apply NoDup_rev in Hnd.
  rewrite <- (rev_involutive (l ++ [x])). apply NoDup_rev.
  rewrite rev_app_distr. simpl. constructor; [|assumption].
  now rewrite <- in_rev.
Qed.

Lemma existsb_eqb_iff (u : string) (seen : list string) :
  existsb (String.eqb u) seen = true <-> In u seen.
Proof.
  rewrite existsb_exists. split.
  - intros (x & Hin & Heq). apply String.eqb_eq in Heq. now subst.
  - intros Hin. exists u. split; [assumption | apply String.eqb_refl].
Qed.

Lemma dedup_loop_urls (songs : list Song) :
  forall seen_urls deduplicated,
    (forall u, In u seen_urls <-> In u (urls deduplicated)) ->
    forall u,
      In u (urls (QueueService.dedup_loop songs seen_urls deduplicated))
      <-> In u (urls deduplicated) \/ In u (urls songs).
Proof.
  unfold urls.
  induction songs as [|song rest IH]; intros seen acc Hseen u; simpl;
    [tauto|].
  destruct (existsb (String.eqb (webpage_url song)) seen) eqn:E.
  - rewrite (IH seen acc Hseen).
    apply existsb_eqb_iff, Hseen in E.
    split; [tauto|]. intros [H|[H|H]]; subst; auto.
  - rewrite IH.
    + rewrite map_app, in_app_iff. simpl. tauto.
    + intros v. rewrite map_app, in_app_iff. simpl.
      rewrite <- Hseen. tauto.
Qed.

Lemma dedup_loop_distinct_id (songs : list Song) :
  forall seen_urls deduplicated,
    (forall u, In u seen_urls <-> In u (urls deduplicated)) ->
    distinct_urls (deduplicated ++ songs) ->
    QueueService.dedup_loop songs seen_urls deduplicated
    = deduplicated ++ songs.
Proof.
  unfold distinct_urls, urls.
  induction songs as [|song rest IH]; intros seen acc Hseen Hnd; simpl.
  - now rewrite app_nil_r.
  - assert (Hnin : ~ In (webpage_url song) (map webpage_url acc)).
    { rewrite map_app in Hnd. simpl in Hnd.
      apply NoDup_remove_2 in Hnd. rewrite in_app_iff in Hnd. tauto. }
    destruct (existsb (String.eqb (webpage_url song)) seen) eqn:E.
    + apply existsb_eqb_iff, Hseen in E. contradiction.
    + rewrite IH.
      * now rewrite <- app_assoc.
      * intros v. rewrite map_app, in_app_iff. simpl.
        rewrite <- Hseen. tauto.
      * now rewrite <- app_assoc.
Qed.

(** X1. The forced rebuild of [sync_loop_backup] leaves a backup with each
    URL once and exactly the URLs it had, touches nothing but the backup, and
    changes nothing at all when the backup had no duplicates. *)
Theorem sync_loop_backup_force_rebuild :
  forall g : GuildData,
    let g' := QueueService.sync_loop_backup true g in
    distinct_urls (loop_backup g')
    /\ (forall u, In u (urls (loop_backup g')) <-> In u (urls (loop_backup g)))
    /\ g' = set_loop_backup (loop_backup g') g
    /\ (distinct_urls (loop_backup g) -> g' = g).
Proof.
  intros g g'. unfold g', QueueService.sync_loop_backup. guild_simpl'.
  split; [apply dedup_loop_NoDup; simpl; [tauto | constructor]|].
  split.
  { intros u. rewrite dedup_loop_urls by (simpl; tauto). simpl. tauto. }
  split; [reflexivity|].
  intros Hnd. rewrite (dedup_loop_distinct_id _ [] []); simpl; auto; [|tauto].
  destruct g; reflexivity.
Qed.

Lemma sync_loop_backup_force_rebuild_witness :
  let g := QueueService.add_song_to_queue song_B
             (QueueService.add_song_to_queue song_A fresh_guild) in
  QueueService.sync_loop_backup true g = g.
Proof.
  intros g.
  destruct (sync_loop_backup_force_rebuild g) as (_ & _ & _ & H).
  apply H. unfold distinct_urls. vm_compute.
  repeat constructor; simpl; intuition discriminate.
Defined.

Lemma distinct_urls_filter (f : Song -> bool) (songs : list Song) :
  distinct_urls songs -> distinct_urls (filter f songs).
Proof.
  unfold distinct_urls, urls.
  induction songs as [|s l IH]; simpl; [auto|].
  intros H. inversion H as [|? ? Hnin Hnd]; subst.
  destruct (f s); simpl; [|auto].
  constructor; [|auto].
  intros Hin. apply Hnin. apply in_map_iff in Hin as (x & Hx & Hf).
  apply filter_In in Hf. apply in_map_iff. exists x. tauto.
Qed.

Lemma get_visible_queue_eq (g : GuildData) :
  QueueService.get_visible_queue g
  = queue g
    ++ (if String.eqb (loop_mode g) "queue"
        then filter (fun song =>
                       negb (QueueService.has_url (webpage_url song)
                               (queue g)))
               (loop_backup g)
        else []).
Proof.
  unfold QueueService.get_visible_queue.
  destruct (String.eqb (loop_mode g) "queue"); simpl;
    [|now rewrite app_nil_r].
  destruct (loop_backup g); simpl; [now rewrite app_nil_r | reflexivity].
Qed.

Lemma get_visible_queue_split (g : GuildData) :
  exists extra,
    QueueService.get_visible_queue g = queue g ++ extra
    /\ forall song,
        In song extra ->
        In song (loop_backup g)
        /\ ~ In (webpage_url song) (urls (queue g)).
Proof.
  rewrite get_visible_queue_eq. eexists. split; [reflexivity|].
  destruct (String.eqb (loop_mode g) "queue"); [|intros song []].
  intros song Hin. apply filter_In in Hin as [Hin Hf]. split; [auto|].
  apply negb_true_iff in Hf. now apply has_url_false_iff in Hf.
Qed.

(** X2. The visible queue is the queue followed by backup songs whose URL
    is not queued; it is the queue alone outside queue-repeat, shows every
    URL of the backup under queue-repeat, and holds each URL once when the
    queue and the backup do. *)
Theorem get_visible_queue_shape :
  forall g : GuildData,
    let visible := QueueService.get_visible_queue g in
    (loop_mode g <> "queue" -> visible = queue g)
    /\ (exists extra,
           visible = queue g ++ extra
           /\ forall song,
               In song extra ->
               In song (loop_backup g)
               /\ ~ In (webpage_url song) (urls (queue g)))
    /\ (loop_mode g = "queue" ->
        forall u, In u (urls (loop_backup g)) -> In u (urls visible))
    /\ (distinct_urls (queue g) -> distinct_urls (loop_backup g) ->
        distinct_urls visible).
Proof.
  intros g visible. unfold visible. rewrite get_visible_queue_eq.
  set (unqueued := fun song =>
         negb (QueueService.has_url (webpage_url song) (queue g))).
  assert (Hextra : forall song,
             In song (filter unqueued (loop_backup g)) ->
             In song (loop_backup g)
             /\ ~ In (webpage_url song) (urls (queue g))).
  { intros song Hin. apply filter_In in Hin as [Hin Hf]. split; [auto|].
    unfold unqueued in Hf. apply negb_true_iff in Hf.
    now apply has_url_false_iff in Hf. }
  split; [|split; [|split]].
  - intros Hmode. apply String.eqb_neq in Hmode. rewrite Hmode.
    apply app_nil_r.
  - eexists. split; [reflexivity|].
    destruct (String.eqb (loop_mode g) "queue"); [exact Hextra|].
    intros song [].
  - intros Hmode u Hu. apply String.eqb_eq in Hmode. rewrite Hmode.
    unfold urls in *. rewrite map_app, in_app_iff.
    destruct (in_dec string_dec u (map webpage_url (queue g))) as [Hq|Hq];
      [now left | right].
    apply in_map_iff in Hu as (song & Hsong & Hin).
    apply in_map_iff. exists song. split; [assumption|].
    apply filter_In. split; [assumption|].
    unfold unqueued. apply negb_true_iff, has_url_false_iff.
    now rewrite Hsong.
  - intros Hq Hb. unfold distinct_urls, urls in *. rewrite map_app.
    apply NoDup_app; [assumption | |].
    + destruct (String.eqb (loop_mode g) "queue"); [|constructor].
      now apply distinct_urls_filter.
    + intros u Hu Hu'.
      destruct (String.eqb (loop_mode g) "queue"); [|destruct Hu'].
      apply in_map_iff in Hu' as (song & Hsong & Hin).
      apply Hextra in Hin as [_ Hnot]. apply Hnot. now rewrite Hsong.
Qed.

Lemma get_visible_queue_shape_witness :
  let g := QueueService.set_loop_mode "queue" guild_after_playing_A in
  QueueService.get_visible_queue g = [song_A]
  /\ distinct_urls (QueueService.get_visible_queue g).
Proof.
  intros g.
  destruct (get_visible_queue_shape g) as (_ & _ & _ & H).
  split; [reflexivity|].
  apply H; unfold distinct_urls; vm_compute;
    repeat constructor; simpl; intuition discriminate.
Defined.

Lemma add_to_history_backup (song : Song) (g : GuildData) :
  loop_backup (QueueService.add_to_history song g)
  = if QueueService.has_url (webpage_url song) (history g)
       || QueueService.has_url (webpage_url song) (loop_backup g)
    then loop_backup g
    else loop_backup g ++ [song].
Proof.
  unfold QueueService.add_to_history.
  destruct (QueueService.has_url (webpage_url song) (history g));
    [reflexivity|].
  rewrite copy_song_eq. guild_simpl'.
  destruct (Nat.ltb _ _); guild_simpl';
    destruct (QueueService.has_url (webpage_url song) (loop_backup g));
    reflexivity.
Qed.

(** X3. The mirror of [add_to_history] into the loop backup never creates
    a duplicate URL: a backup with each URL once stays so, a song whose URL
    the backup already holds leaves it as it is, and a song already in the
    history is not mirrored at all. *)
Theorem add_to_history_mirror_deduplicated :
  forall (song : Song) (g : GuildData),
    let g' := QueueService.add_to_history song g in
    (distinct_urls (loop_backup g) -> distinct_urls (loop_backup g'))
    /\ (QueueService.has_url (webpage_url song) (loop_backup g) = true ->
        loop_backup g' = loop_backup g)
    /\ (QueueService.has_url (webpage_url song) (history g) = true ->
        loop_backup g' = loop_backup g)
    /\ (QueueService.has_url (webpage_url song) (history g) = false ->
        QueueService.has_url (webpage_url song) (loop_backup g) = false ->
        loop_backup g' = loop_backup g ++ [song])
    /\ queue g' = queue g.
Proof.
  intros song g g'. unfold g'. rewrite add_to_history_backup.
  split; [|split; [|split; [|split]]].
  - intros Hnd.
    destruct (QueueService.has_url (webpage_url song) (history g)); simpl;
      [assumption|].
    destruct (QueueService.has_url (webpage_url song) (loop_backup g)) eqn:E;
      [assumption|].
    unfold distinct_urls, urls in *. rewrite map_app. simpl.
    apply NoDup_snoc; [assumption|]. now apply has_url_false_iff.
  - intros ->. now rewrite orb_true_r.
  - intros ->. reflexivity.
  - intros -> ->. reflexivity.
  - apply add_to_history_frame.
Qed.

Lemma add_to_history_mirror_deduplicated_witness :
  let g := QueueService.add_to_history song_A guild_after_playing_A in
  distinct_urls (loop_backup g) /\ loop_backup g = [song_A].
Proof.
  intros g.
  destruct (add_to_history_mirror_deduplicated song_A guild_after_playing_A)
    as (Hnd & Hsame & _).
  split.
  - apply Hnd. unfold distinct_urls. vm_compute.
    repeat constructor. simpl. tauto.
  - apply Hsame. reflexivity.
Defined.

(** ** QueueScheduler: shuffling, draining, clearing, moving *)

(** X4. [toggle_shuffle] flips the flag and answers the new value; the
    queue and the backup are only reordered, and not even that when the
    shuffle is being switched off; nothing else of the guild changes. *)
Theorem toggle_shuffle_permutes :
  forall (rand_queue rand_backup : nat -> nat) (g : GuildData),
    let r := QueueService.toggle_shuffle rand_queue rand_backup g in
    fst r = negb (shuffle g)
    /\ shuffle (snd r) = negb (shuffle g)
    /\ Permutation (queue g) (queue (snd r))
    /\ Permutation (loop_backup g) (loop_backup (snd r))
    /\ (shuffle g = true ->
        queue (snd r) = queue g /\ loop_backup (snd r) = loop_backup g)
    /\ snd r
       = set_loop_backup (loop_backup (snd r))
           (set_queue (queue (snd r)) (set_shuffle (negb (shuffle g)) g)).
Proof.
  intros rq rb g r. unfold r, QueueService.toggle_shuffle. guild_simpl'.
  destruct (shuffle g); cbn [negb fst snd].
  - repeat split; reflexivity.
  - unfold QueueService.shuffle_queue. guild_simpl'.
    destruct (queue g) as [|q qs] eqn:Eq; guild_simpl';
      destruct (loop_backup g) as [|b bs] eqn:Eb; guild_simpl';
      rewrite ?Eq, ?Eb; guild_simpl';
      repeat split; try reflexivity; try discriminate;
      try apply random_shuffle_perm;
      destruct g; simpl in *; subst; reflexivity.
Qed.

Lemma toggle_shuffle_permutes_witness :
  let g := set_shuffle true
             (add_all_to_queue [song_A; song_B; song_C] fresh_guild) in
  queue (snd (QueueService.toggle_shuffle (fun _ => O) (fun _ => O) g))
  = [song_A; song_B; song_C].
Proof.
  intros g.
  destruct (toggle_shuffle_permutes (fun _ => O) (fun _ => O) g)
    as (_ & _ & _ & _ & H & _).
  destruct H as [Hq _]; [reflexivity|]. exact Hq.
Defined.

Lemma set_queue_twice (q q' : list Song) (g : GuildData) :
  set_queue q (set_queue q' g) = set_queue q g.
Proof. reflexivity. Qed.

Lemma get_next_song_pops (randbelow : nat -> nat) (g : GuildData)
  (front : Song) (rest : list Song) :
  no_song_repeat g -> queue g = front :: rest ->
  QueueService.get_next_song randbelow g = (Some front, set_queue rest g).
Proof.
  intros Hrep Hq. unfold QueueService.get_next_song. rewrite Hq.
  destruct Hrep as [Hmode|Hcur].
  - apply String.eqb_neq in Hmode. now rewrite Hmode.
  - rewrite Hcur. now destruct (String.eqb (loop_mode g) "song").
Qed.

Lemma take_songs_pops (randbelow : nat -> nat) (n : nat) :
  forall g,
    no_song_repeat g -> (n <= length (queue g))%nat ->
    take_songs randbelow n g
    = (map Some (firstn n (queue g)), set_queue (skipn n (queue g)) g).
Proof.
  induction n as [|n IH]; intros g Hrep Hlen.
  - simpl. now rewrite set_queue_same.
  - destruct (queue g) as [|front rest] eqn:Hq; [simpl in Hlen; lia|].
    cbn [take_songs]. rewrite (get_next_song_pops _ _ _ _ Hrep Hq).
    rewrite IH; [reflexivity | exact Hrep | simpl in *; lia].
Qed.

Lemma add_all_to_queue_run (songs : list Song) :
  forall g,
    add_all_to_queue songs g
    = set_loop_backup (loop_backup g ++ songs) (set_queue (queue g ++ songs) g).
Proof.
  induction songs as [|song rest IH]; intros g; simpl.
  - rewrite !app_nil_r. destruct g; reflexivity.
  - rewrite IH. unfold QueueService.add_song_to_queue.
    rewrite copy_song_eq. guild_simpl'.
    now rewrite <- !app_assoc.
Qed.

(** X5. Songs leave the queue in the order they were enqueued: with no song
    on repeat, enqueueing [songs] and then asking for as many songs as the
    queue holds answers the old queue followed by [songs], in this order,
    and leaves the queue empty; the backup has received [songs] too. *)
Theorem queue_is_fifo :
  forall (randbelow : nat -> nat) (songs : list Song) (g : GuildData),
    no_song_repeat g ->
    let g1 := add_all_to_queue songs g in
    take_songs randbelow (length (queue g) + length songs) g1
    = (map Some (queue g ++ songs), set_queue [] g1)
    /\ loop_backup g1 = loop_backup g ++ songs.
Proof.
  intros rb songs g Hrep g1. unfold g1. rewrite add_all_to_queue_run.
  split; [|reflexivity].
  rewrite take_songs_pops; guild_simpl'.
  - rewrite <- length_app, firstn_all, skipn_all. reflexivity.
  - exact Hrep.
  - rewrite length_app. lia.
Qed.

Lemma queue_is_fifo_witness :
  fst (take_songs (fun _ => O) 3
         (add_all_to_queue [song_B; song_C]
            (QueueService.add_song_to_queue song_A fresh_guild)))
  = [Some song_A; Some song_B; Some song_C].
Proof.
  pose proof (queue_is_fifo (fun _ => O) [song_B; song_C]
                (QueueService.add_song_to_queue song_A fresh_guild)) as H.
  destruct H as [H _]; [left; discriminate|].
  cbn [length Nat.add queue QueueService.add_song_to_queue set_queue
       set_loop_backup fresh_guild Bot.get_guild_data app] in H.
  now rewrite H.
Defined.

(** X6. Queue-repeat replays the backup and comes back to where it was:
    from an empty queue, as many [get_next_song] as the backup holds songs
    answer the backup, in its order (in the shuffled order when [shuffle] is
    on, which holds the same songs), and leave the guild exactly as it
    started, ready for the next cycle. *)
Theorem queue_repeat_cycle :
  forall (randbelow : nat -> nat) (g : GuildData),
    no_song_repeat g ->
    loop_mode g = "queue" ->
    queue g = [] ->
    loop_backup g <> [] ->
    let cycle :=
      if shuffle g then random_shuffle randbelow (loop_backup g)
      else loop_backup g in
    take_songs randbelow (length (loop_backup g)) g = (map Some cycle, g)
    /\ Permutation (loop_backup g) cycle
    /\ (distinct_urls (loop_backup g) -> distinct_urls cycle).
Proof.
  intros rb g Hrep Hmode Hq Hb. cbv zeta.
  remember (if shuffle g then random_shuffle rb (loop_backup g)
            else loop_backup g) as cycle eqn:Ec.
  assert (Hperm : Permutation (loop_backup g) cycle).
  { subst cycle. destruct (shuffle g);
      [apply random_shuffle_perm | reflexivity]. }
  split; [|split; [exact Hperm|]].
  - pose proof (Permutation_length Hperm) as Hlen.
    destruct cycle as [|front rest].
    { apply Permutation_sym, Permutation_nil in Hperm. contradiction. }
    rewrite Hlen. cbn [length take_songs].
    assert (Hne : match loop_backup g with [] => false | _ => true end
                  = true)
      by (destruct (loop_backup g); [contradiction | reflexivity]).
    assert (Hnext : QueueService.get_next_song rb g
                    = (Some front, set_queue rest g)).
    { rewrite get_next_song_eq_spec. unfold dequeue_next_spec.
      rewrite Hq, Hmode, Hne. cbn -[random_shuffle].
      rewrite <- Ec. reflexivity. }
    rewrite Hnext.
    rewrite take_songs_pops; guild_simpl'; [|exact Hrep | lia].
    rewrite firstn_all, skipn_all, set_queue_twice.
    rewrite <- Hq, set_queue_same. reflexivity.
  - intros Hnd. unfold distinct_urls, urls in *.
    eapply Permutation_NoDup; [|exact Hnd].
    now apply Permutation_map.
Qed.

Lemma queue_repeat_cycle_witness :
  let g := QueueService.set_loop_mode "queue"
             (snd (take_songs (fun _ => O) 2
                     (add_all_to_queue [song_A; song_B] fresh_guild))) in
  take_songs (fun _ => O) 2 g = ([Some song_A; Some song_B], g).
Proof.
  intros g.
  destruct (queue_repeat_cycle (fun _ => O) g) as (H & _).
  - right. reflexivity.
  - reflexivity.
  - reflexivity.
  - discriminate.
  - exact H.
Defined.

Lemma take_songs_nothing (randbelow : nat -> nat) (n : nat) (g : GuildData) :
  no_song_repeat g -> queue g = [] -> loop_backup g = [] ->
  take_songs randbelow n g = (repeat None n, g).
Proof.
  intros Hrep Hq Hb.
  assert (Hnone : QueueService.get_next_song randbelow g = (None, g)).
  { pose proof (proj2 (get_next_song_none_iff randbelow g)) as H.
    destruct (QueueService.get_next_song randbelow g) as [next g1] eqn:E.
    assert (Hg : g1 = g).
    { rewrite get_next_song_eq_spec in E. unfold dequeue_next_spec in E.
      rewrite Hq, Hb, andb_false_r in E.
      destruct (String.eqb (loop_mode g) "song"
                && match current g with Some _ => true | None => false end);
        inversion E; reflexivity. }
    simpl in H. rewrite H; [now rewrite Hg|].
    split; [exact Hrep|]. split; [exact Hq | now right]. }
  induction n as [|n IH]; [reflexivity|].
  cbn [take_songs]. rewrite Hnone, IH. reflexivity.
Qed.

(** X7. After [clear_queue] nothing is left to play or to show: the queue
    and the backup are empty, the visible queue is empty, and with no song on
    repeat every further [get_next_song] answers nothing, whatever the loop
    mode; the history and the current song are untouched. *)
Theorem clear_queue_leaves_nothing :
  forall (randbelow : nat -> nat) (n : nat) (g : GuildData),
    let g' := QueueService.clear_queue g in
    queue g' = [] /\ loop_backup g' = []
    /\ QueueService.get_visible_queue g' = []
    /\ history g' = history g /\ current g' = current g
    /\ loop_mode g' = loop_mode g
    /\ (no_song_repeat g -> take_songs randbelow n g' = (repeat None n, g')).
Proof.
  intros rb n g g'. unfold g', QueueService.clear_queue.
  repeat split.
  - rewrite get_visible_queue_eq. guild_simpl'.
    now destruct (String.eqb (loop_mode g) "queue").
  - intros Hrep. apply take_songs_nothing; auto.
Qed.

Lemma clear_queue_leaves_nothing_witness :
  let g := QueueService.clear_queue
             (QueueService.set_loop_mode "queue"
                (add_all_to_queue [song_A; song_B] fresh_guild)) in
  take_songs (fun _ => O) 3 g = ([None; None; None], g).
Proof.
  intros g.
  destruct (clear_queue_leaves_nothing (fun _ => O) 3
              (QueueService.set_loop_mode "queue"
                 (add_all_to_queue [song_A; song_B] fresh_guild)))
    as (_ & _ & _ & _ & _ & _ & H).
  apply H. right. reflexivity.
Defined.

Lemma list_insert_pop {A} (l : list A) (i : nat) (x : A) :
  nth_error l i = Some x ->
  list_insert i x (firstn i l ++ skipn (S i) l) = l.
Proof.
  intros Hn.
  assert (Hlt : (i < length l)%nat)
    by (apply nth_error_Some; rewrite Hn; discriminate).
  assert (Hpre : length (firstn i l) = i) by (rewrite length_firstn; lia).
  rewrite list_insert_spec.
  rewrite firstn_app, Hpre, Nat.sub_diag, firstn_firstn, Nat.min_id.
  cbn [firstn]. rewrite app_nil_r.
  rewrite skipn_app, Hpre, Nat.sub_diag, skipn_all2 by lia.
  cbn [skipn app].
  rewrite <- (firstn_skipn i l) at 3.
  f_equal.
  clear Hpre. revert i Hn Hlt.
  induction l as [|a l IH]; intros [|i] Hn Hlt; simpl in *;
    try discriminate; try lia.
  - now inversion Hn.
  - apply IH; [assumption | lia].
Qed.

(** X8. A move can be undone: moving a song from one valid position to
    another and then back gives the guild as it was, through
    [move_song_in_queue] as through the 1-based [move_slash]. *)
Theorem move_song_back_restores :
  forall (g : GuildData) (from_pos to_pos : Z),
    (0 <= from_pos < Z.of_nat (length (queue g)))%Z ->
    (0 <= to_pos < Z.of_nat (length (queue g)))%Z ->
    QueueService.move_song_in_queue to_pos from_pos
      (snd (QueueService.move_song_in_queue from_pos to_pos g))
    = (true, g)
    /\ QueueCommands.move_slash (to_pos + 1) (from_pos + 1)
         (snd (QueueCommands.move_slash (from_pos + 1) (to_pos + 1) g))
       = (true, g).
Proof.
  intros g from_pos to_pos Hf Ht.
  assert (Hback : QueueService.move_song_in_queue to_pos from_pos
                    (snd (QueueService.move_song_in_queue from_pos to_pos g))
                  = (true, g)).
  { destruct (move_in_range from_pos to_pos g Hf Ht)
      as (song & moved & Hn & Hmove & Hn' & Hrest & Hlen).
    rewrite Hmove. cbn [snd].
    unfold QueueService.move_song_in_queue. guild_simpl'. rewrite Hlen.
    destruct (Z.ltb_spec to_pos 0); [lia|]; cbn [orb].
    destruct (Z.geb_spec to_pos (Z.of_nat (length (queue g)))); [lia|];
      cbn [orb].
    destruct (Z.ltb_spec from_pos 0); [lia|]; cbn [orb].
    destruct (Z.geb_spec from_pos (Z.of_nat (length (queue g)))); [lia|];
      cbn [orb].
    assert (Hpop : list_pop (Z.to_nat to_pos) moved
                   = Some (song,
                           firstn (Z.to_nat to_pos) moved
                           ++ skipn (S (Z.to_nat to_pos)) moved))
      by (apply list_pop_spec; auto).
    rewrite Hpop, Hrest, (list_insert_pop _ _ _ Hn).
    rewrite set_queue_twice, set_queue_same. reflexivity. }
  split; [exact Hback|].
  assert (Hslash : forall a b g0,
             (0 <= a < Z.of_nat (length (queue g0)))%Z ->
             (0 <= b < Z.of_nat (length (queue g0)))%Z ->
             QueueCommands.move_slash (a + 1) (b + 1) g0
             = (true, snd (QueueService.move_song_in_queue a b g0))).
  { intros a b g0 Ha Hb. unfold QueueCommands.move_slash.
    destruct (queue g0) as [|q qs] eqn:Eq; [simpl in Ha; lia|].
    rewrite <- Eq in Ha, Hb |- *.
    destruct (Z.ltb_spec (a + 1) 1); [lia|]; cbn [orb].
    destruct (Z.gtb_spec (a + 1) (Z.of_nat (length (queue g0)))); [lia|];
      cbn [orb].
    destruct (Z.ltb_spec (b + 1) 1); [lia|]; cbn [orb].
    destruct (Z.gtb_spec (b + 1) (Z.of_nat (length (queue g0)))); [lia|];
      cbn [orb].
    now replace (a + 1 - 1)%Z with a by lia;
      replace (b + 1 - 1)%Z with b by lia. }
  rewrite (Hslash from_pos to_pos g Hf Ht). cbn [snd].
  destruct (move_in_range from_pos to_pos g Hf Ht)
    as (song & moved & _ & Hmove & _ & _ & Hlen).
  rewrite Hslash.
  - now rewrite Hback.
  - rewrite Hmove. cbn [snd]. guild_simpl'. now rewrite Hlen.
  - rewrite Hmove. cbn [snd]. guild_simpl'. now rewrite Hlen.
Qed.

Lemma move_song_back_restores_witness :
  let g := add_all_to_queue [song_A; song_B; song_C] fresh_guild in
  QueueService.move_song_in_queue 2 0
    (snd (QueueService.move_song_in_queue 0 2 g)) = (true, g).
Proof.
  intros g.
  destruct (move_song_back_restores g 0 2) as [H _];
    [vm_compute; split; [discriminate | reflexivity] ..|exact H].
Defined.

(** ** Commands over the queue *)



Lemma without_distinct (songs : list Song) (i : nat) (song : Song) :
  distinct_urls songs -> nth_error songs i = Some song ->
  ~ In (webpage_url song) (urls (firstn i songs ++ skipn (S i) songs)).
Proof.
  unfold distinct_urls, urls. intros Hnd Hn.
  rewrite <- (firstn_skipn_middle _ _ Hn) in Hnd.
  rewrite map_app in Hnd. simpl in Hnd.
  apply NoDup_remove_2 in Hnd. now rewrite map_app.
Qed.

Lemma filter_other_urls (u : string) (songs : list Song) :
  ~ In u (urls (filter (fun song => negb (String.eqb (webpage_url song) u))
                  songs)).
Proof.
  unfold urls. intros Hin. apply in_map_iff in Hin as (x & Hx & Hin).
  apply filter_In in Hin as [_ Hf].
  apply negb_true_iff, String.eqb_neq in Hf. contradiction.
Qed.

(** X10. [remove_slash] refuses a position outside the visible queue and
    leaves the guild as it is; for a position inside it names the song shown
    there and purges its URL from the loop backup, so that, the queue holding
    each URL once, the song is gone from the visible queue as well; the
    history and the current song are not touched. *)
Theorem remove_slash_is_permanent :
  forall (g : GuildData) (position : Z),
    let visible := QueueService.get_visible_queue g in
    ((position < 1 \/ Z.of_nat (length visible) < position)%Z ->
     QueueCommands.remove_slash position g = (None, g))
    /\ ((1 <= position <= Z.of_nat (length visible))%Z ->
        exists song g',
          nth_error visible (Z.to_nat (position - 1)) = Some song
          /\ QueueCommands.remove_slash position g = (Some song, g')
          /\ ~ In (webpage_url song) (urls (loop_backup g'))
          /\ (distinct_urls (queue g) ->
              ~ In (webpage_url song)
                  (urls (QueueService.get_visible_queue g')))
          /\ history g' = history g /\ current g' = current g).
Proof.
  intros g position visible. split.
  - intros Hout. unfold QueueCommands.remove_slash. fold visible.
    destruct visible as [|v vs] eqn:Ev; [reflexivity|].
    destruct (Z.ltb_spec position 1); [reflexivity|]. cbn [orb].
    destruct (Z.gtb_spec position (Z.of_nat (length (v :: vs))));
      [reflexivity | lia].
  - intros Hin.
    destruct (nth_error visible (Z.to_nat (position - 1))) as [song|] eqn:Hn;
      [|apply nth_error_None in Hn; lia].
    assert (Hcmd : QueueCommands.remove_slash position g
                   = (let '(removed_song, g1) :=
                        if (position <=? Z.of_nat (length (queue g)))%Z
                        then QueueService.remove_song_from_queue
                               (position - 1) g
                        else (None, g) in
                      (Some match removed_song with
                            | Some s => s
                            | None => song
                            end,
                       set_loop_backup
                         (filter (fun s =>
                                    negb (String.eqb (webpage_url s)
                                            (webpage_url song)))
                            (loop_backup g1)) g1))).
    { unfold QueueCommands.remove_slash. fold visible. rewrite Hn.
      destruct visible as [|v vs] eqn:Ev; [simpl in Hin; lia|].
      destruct (Z.ltb_spec position 1); [lia|]. cbn [orb].
      destruct (Z.gtb_spec position (Z.of_nat (length (v :: vs)))); [lia|].
      destruct (position <=? Z.of_nat (length (queue g)))%Z;
        [destruct (QueueService.remove_song_from_queue _ g)|]; reflexivity. }
    rewrite Hcmd. clear Hcmd.
    pose proof (get_visible_queue_eq g) as Hvis. fold visible in Hvis.
    destruct (get_visible_queue_split g) as (extra & Hshape & Hextra).
    fold visible in Hshape.
    destruct (Z.leb_spec position (Z.of_nat (length (queue g)))) as [Hq|Hq].
    + destruct (remove_in_range (position - 1) g) as (song' & Hn' & Hrm);
        [lia|].
      rewrite Hshape, nth_error_app1 in Hn by lia.
      rewrite Hn in Hn'. inversion Hn'; subst song'. rewrite Hrm.
      eexists. eexists. split; [reflexivity|]. split; [reflexivity|].
      guild_simpl'.
      split; [apply filter_other_urls|].
      split; [|split; reflexivity].
      intros Hdist. rewrite get_visible_queue_eq. guild_simpl'.
      unfold urls. rewrite map_app, in_app_iff. intros [Hi|Hi].
      * exact (without_distinct _ _ _ Hdist Hn Hi).
      * destruct (String.eqb (loop_mode g) "queue"); [|destruct Hi].
        apply in_map_iff in Hi as (x & Hx & Hi).
        apply filter_In in Hi as [Hi _].
        apply (filter_other_urls (webpage_url song) (loop_backup g)).
        apply in_map_iff. exists x. auto.
    + eexists. eexists. split; [reflexivity|]. split; [reflexivity|].
      guild_simpl'.
      split; [apply filter_other_urls|].
      split; [|split; reflexivity].
      intros _. rewrite get_visible_queue_eq. guild_simpl'.
      unfold urls. rewrite map_app, in_app_iff. intros [Hi|Hi].
      * rewrite Hshape, nth_error_app2 in Hn by lia.
        apply nth_error_In, Hextra in Hn as [_ Hnot]. exact (Hnot Hi).
      * destruct (String.eqb (loop_mode g) "queue"); [|destruct Hi].
        apply in_map_iff in Hi as (x & Hx & Hi).
        apply filter_In in Hi as [Hi _].
        apply (filter_other_urls (webpage_url song) (loop_backup g)).
        apply in_map_iff. exists x. auto.
Qed.

(** Under queue-repeat with [song_A] played and [song_B], [song_C] queued:
    position 3 shows [song_A] from the backup; removing it empties the
    backup of it, and position 4 is refused. *)
Lemma remove_slash_is_permanent_witness :
  let g := QueueService.set_loop_mode "queue"
             (add_all_to_queue [song_B; song_C] guild_after_playing_A) in
  QueueCommands.remove_slash 4 g = (None, g)
  /\ exists g',
      QueueCommands.remove_slash 3 g = (Some song_A, g')
      /\ ~ In (webpage_url song_A)
             (urls (QueueService.get_visible_queue g')).
Proof.
  intros g.
  destruct (remove_slash_is_permanent g 4) as [Hout _].
  destruct (remove_slash_is_permanent g 3) as [_ Hin].
  split; [apply Hout; right; vm_compute; reflexivity|].
  destruct Hin as (song & g' & Hn & Hrun & _ & Hgone & _);
    [vm_compute; split; discriminate|].
  vm_compute in Hn. inversion Hn; subst song.
  exists g'. split; [exact Hrun|].
  apply Hgone. unfold distinct_urls. vm_compute.
  repeat constructor; simpl; intuition discriminate.
Defined.

(** ** SongInfoCache: bound, eviction, sweep *)

Section CacheMaintenance.
Context {Info : Type}.
Implicit Types (c : MusicService.SongCache Info)
               (e : MusicService.CacheEntry Info) (key k : string).

Import MusicService.

Lemma cache_get_In key e c :
  NoDup (map fst c) -> (cache_get key c = Some e <-> In (key, e) c).
Proof.
  induction c as [|[k e'] c IH]; simpl; intros Hnd.
  - split; [discriminate | tauto].
  - inversion Hnd as [|? ? Hnin Hnd']; subst.
    destruct (String.eqb_spec k key) as [->|Hne].
    + split.
      * intros H. inversion H; subst. now left.
      * intros [H|H]; [now inversion H|].
        exfalso. apply Hnin. apply in_map_iff. now exists (key, e).
    + rewrite (IH Hnd'). split; [now right|].
      intros [H|H]; [inversion H; contradiction | assumption].
Qed.

Lemma cache_set_ok key e c :
  cache_ok c ->
  NoDup (map fst (cache_set key e c))
  /\ (length (cache_set key e c) <= S max_cache_size)%nat.
Proof.
  intros [Hnd Hlen].
  destruct (cache_get key c) as [e0|] eqn:Hget.
  - rewrite (cache_set_present _ _ _ _ Hget),
            (cache_set_present_length _ _ _ _ Hget).
    split; [assumption | lia].
  - rewrite (cache_set_absent _ _ _ Hget), map_app, length_app. simpl.
    split; [|lia].
    apply NoDup_snoc; [assumption | now apply cache_get_None_iff].
Qed.

Lemma cached_lookup_keeps_ok (q : string) (t_lookup t_store : Z)
  (resolved : option Info) c :
  cache_ok c ->
  cache_ok (snd (fst (get_song_info_cached q t_lookup t_store resolved c))).
Proof.
  intros Hok. unfold get_song_info_cached.
  destruct (cache_get (strip (lower q)) c) as [e|];
    [destruct (t_lookup - cached_at e <? cache_ttl)%Z; [exact Hok|]|];
    (destruct resolved as [d|]; [|exact Hok]);
    cbn [fst snd];
    destruct (cache_set_ok (strip (lower q)) (mkCacheEntry d t_store) c Hok);
    now apply cleanup_ok.
Qed.

Lemma cache_del_In key k e c :
  NoDup (map fst c) ->
  (In (k, e) (cache_del key c) <-> In (k, e) c /\ k <> key).
Proof.
  induction c as [|[k' e'] c IH]; simpl; intros Hnd; [tauto|].
  inversion Hnd as [|? ? Hnin Hnd']; subst.
  destruct (String.eqb_spec k' key) as [->|Hne].
  - split.
    + intros Hin. split; [now right|]. intros ->. apply Hnin.
      apply in_map_iff. now exists (key, e).
    + intros [[H|H] Hk]; [inversion H; subst; contradiction | assumption].
  - simpl. rewrite (IH Hnd'). split.
    + intros [H|[H Hk]]; [inversion H; subst; auto | auto].
    + intros [[H|H] Hk]; auto.
Qed.

Lemma cache_del_all_In (evicted : SongCache Info) : forall c k e,
  NoDup (map fst c) ->
  (In (k, e) (fold_left (fun c kv => cache_del (fst kv) c) evicted c)
   <-> In (k, e) c /\ ~ In k (map fst evicted)).
Proof.
  induction evicted as [|[k0 e0] l IH]; intros c k e Hnd; simpl; [tauto|].
  rewrite IH by now apply cache_del_NoDup.
  rewrite cache_del_In by assumption. intuition congruence.
Qed.

Lemma insert_sorted_sorted (x : string * CacheEntry Info) c :
  StronglySorted older_or_same c ->
  StronglySorted older_or_same (insert_sorted x c).
Proof.
  induction 1 as [|y c Hs IH Hall]; simpl.
  - constructor; constructor.
  - destruct (Z.leb_spec (cached_at (snd x)) (cached_at (snd y))) as [Hle|Hgt].
    + constructor; [constructor; assumption|].
      constructor; [exact Hle|].
      eapply Forall_impl; [|exact Hall].
      intros z Hz. unfold older_or_same in *. lia.
    + constructor; [exact IH|].
      apply (Permutation_Forall (insert_sorted_perm x c)).
      constructor; [unfold older_or_same; lia | exact Hall].
Qed.

Lemma sorted_items_sorted c : StronglySorted older_or_same (sorted_items c).
Proof.
  induction c as [|x c IH]; simpl; [constructor|].
  now apply insert_sorted_sorted.
Qed.

Lemma sorted_split (l1 l2 : SongCache Info) :
  StronglySorted older_or_same (l1 ++ l2) ->
  forall x y, In x l1 -> In y l2 -> older_or_same x y.
Proof.
  induction l1 as [|a l1 IH]; simpl; intros Hs x y Hx Hy; [destruct Hx|].
  inversion Hs as [|? ? Hs' Hall]; subst.
  destruct Hx as [<-|Hx].
  - rewrite Forall_forall in Hall. apply Hall, in_or_app. now right.
  - now apply IH.
Qed.

End CacheMaintenance.

(** X11. Every lookup leaves the song cache a [dict] of at most 500
    entries, whether it hits, misses without a result, or stores and
    evicts. *)
Theorem song_cache_stays_bounded :
  forall (Info : Type) (q : string) (t_lookup t_store : Z)
         (resolved : option Info) (c : MusicService.SongCache Info),
    cache_ok c ->
    cache_ok (snd (fst (MusicService.get_song_info_cached q t_lookup t_store
                          resolved c))).
Proof. intros. now apply cached_lookup_keeps_ok. Qed.

Lemma song_cache_stays_bounded_witness :
  cache_ok (snd (fst (MusicService.get_song_info_cached "a" 0 0
                        (Some "data") []))).
Proof.
  apply (song_cache_stays_bounded string "a" 0 0 (Some "data") []).
  split; [constructor | unfold MusicService.max_cache_size; simpl; lia].
Defined.

(** X12. When the cache has grown beyond 500 entries the clean-up evicts
    exactly 100 of them, the oldest: every entry that stays was cached no
    earlier than every entry that goes, and the entries that stay are found
    as before. *)
Theorem cache_cleanup_evicts_oldest :
  forall (Info : Type) (c : MusicService.SongCache Info),
    NoDup (map fst c) ->
    (MusicService.max_cache_size < length c)%nat ->
    let c' := MusicService._cleanup_cache_if_needed c in
    (length c' + 100 = length c)%nat
    /\ NoDup (map fst c')
    /\ (forall kept, In kept c' -> In kept c)
    /\ (forall kept evicted,
           In kept c' -> In evicted c -> ~ In evicted c' ->
           older_or_same evicted kept).
Proof.
  intros Info c Hnd Hbig c'. unfold c', MusicService._cleanup_cache_if_needed.
  destruct (Nat.ltb_spec MusicService.max_cache_size (length c)) as [_|];
    [|lia].
  unfold MusicService.max_cache_size in Hbig.
  pose proof (sorted_items_perm c) as Hperm.
  pose proof (Permutation_length Hperm) as Hlen.
  set (sorted := MusicService.sorted_items c) in *.
  assert (Hkeys : Permutation (map fst c) (map fst sorted))
    by now apply Permutation_map.
  assert (Hnd_sorted : NoDup (map fst sorted))
    by exact (Permutation_NoDup Hkeys Hnd).
  split.
  { pose proof (cache_del_all_length (firstn 100 sorted) c) as Hdel.
    rewrite length_firstn, <- Hlen in Hdel.
    replace (Nat.min 100 (length c)) with 100%nat in Hdel by lia.
    apply Hdel.
    - rewrite <- firstn_map.
      rewrite <- (firstn_skipn 100 (map fst sorted)) in Hnd_sorted.
      now apply NoDup_app_remove_r in Hnd_sorted.
    - intros k Hk. apply (Permutation_in _ (Permutation_sym Hkeys)).
      rewrite <- (firstn_skipn 100 sorted), map_app.
      apply in_or_app. now left. }
  split; [now apply cache_del_all_NoDup|].
  split.
  { intros [k e] Hin. now apply cache_del_all_In in Hin as [Hin _]. }
  intros [k e] [k' e'] Hkept Hin Hgone.
  apply cache_del_all_In in Hkept as [Hkept Hk]; [|assumption].
  assert (Hk' : In k' (map fst (firstn 100 sorted))).
  { destruct (in_dec string_dec k' (map fst (firstn 100 sorted))); auto.
    exfalso. apply Hgone. apply cache_del_all_In; auto. }
  apply (sorted_split (firstn 100 sorted) (skipn 100 sorted)).
  - rewrite firstn_skipn. apply sorted_items_sorted.
  - apply in_map_iff in Hk' as ([k0 e0] & Hk0 & Hin0). simpl in Hk0. subst k0.
    assert (He : e0 = e').
    { assert (H1 : MusicService.cache_get k' sorted = Some e0).
      { apply cache_get_In; [assumption|].
        rewrite <- (firstn_skipn 100 sorted). apply in_or_app. now left. }
      assert (H2 : MusicService.cache_get k' sorted = Some e').
      { apply cache_get_In; [assumption|].
        now apply (Permutation_in _ Hperm). }
      congruence. }
    now subst e0.
  - apply (Permutation_in _ Hperm) in Hkept.
    rewrite <- (firstn_skipn 100 sorted) in Hkept.
    apply in_app_or in Hkept as [Hfirst|Hrest]; [|assumption].
    exfalso. apply Hk. apply in_map_iff. now exists (k, e).
Qed.

Lemma strokes_injective (m n : nat) : strokes m = strokes n -> m = n.
Proof.
  revert n. induction m as [|m IH]; intros [|n] H; simpl in H;
    try discriminate; [reflexivity|].
  inversion H. f_equal. now apply IH.
Qed.

Lemma numbered_cache_keys_distinct (n : nat) :
  NoDup (map fst (numbered_cache n)).
Proof.
  unfold numbered_cache. rewrite map_map. simpl.
  generalize 0%nat. induction n as [|n IH]; intros start; simpl;
    constructor; [|apply IH].
  intros Hin. apply in_map_iff in Hin as (k & Hk & Hin).
  apply strokes_injective in Hk. apply in_seq in Hin. lia.
Qed.

Lemma cache_cleanup_evicts_oldest_witness :
  (length (MusicService._cleanup_cache_if_needed (numbered_cache 501)) + 100
   = length (numbered_cache 501))%nat.
Proof.
  destruct (cache_cleanup_evicts_oldest string (numbered_cache 501))
    as [H _].
  - apply numbered_cache_keys_distinct.
  - unfold numbered_cache, MusicService.max_cache_size.
    rewrite length_map, length_seq. lia.
  - exact H.
Defined.

Section CacheSweep.
Context {Info : Type}.
Implicit Types (c : MusicService.SongCache Info)
               (e : MusicService.CacheEntry Info) (key k : string).

Import MusicService.

Lemma cache_get_del_same key c :
  NoDup (map fst c) -> cache_get key (cache_del key c) = None.
Proof.
  intros Hnd. apply cache_get_None_iff. intros Hin.
  apply in_map_iff in Hin as ([k e] & Hk & Hin). simpl in Hk. subst k.
  apply cache_del_In in Hin as [_ Hne]; [contradiction | assumption].
Qed.

Lemma cache_get_del_keys key (keys : list string) : forall c,
  NoDup (map fst c) ->
  cache_get key (fold_left (fun c k => cache_del k c) keys c)
  = if in_dec string_dec key keys then None else cache_get key c.
Proof.
  induction keys as [|k0 keys IH]; intros c Hnd; simpl; [reflexivity|].
  rewrite IH by now apply cache_del_NoDup.
  destruct (in_dec string_dec key keys) as [Hin|Hnin];
    destruct (string_dec k0 key) as [->|Hne]; try reflexivity.
  - now apply cache_get_del_same.
  - now apply cache_get_del_other.
Qed.

Lemma cleanup_cache_get (now : Z) key c :
  NoDup (map fst c) ->
  cache_get key (BotTasks.cleanup_cache now c)
  = match cache_get key c with
    | Some e => if (now - cached_at e >? cache_ttl)%Z then None else Some e
    | None => None
    end.
Proof.
  intros Hnd. unfold BotTasks.cleanup_cache.
  rewrite cache_get_del_keys by assumption.
  destruct (in_dec string_dec key (BotTasks.expired_keys now c)) as [Hin|Hnin].
  - unfold BotTasks.expired_keys in Hin.
    apply in_map_iff in Hin as ([k e] & Hk & Hin). simpl in Hk. subst k.
    apply filter_In in Hin as [Hin Hexp]. simpl in Hexp.
    apply cache_get_In in Hin; [|assumption]. now rewrite Hin, Hexp.
  - destruct (cache_get key c) as [e|] eqn:Hget; [|reflexivity].
    destruct (now - cached_at e >? cache_ttl)%Z eqn:Hexp; [|reflexivity].
    exfalso. apply Hnin. unfold BotTasks.expired_keys.
    apply in_map_iff. exists (key, e). split; [reflexivity|].
    apply filter_In. split; [|exact Hexp].
    now apply cache_get_In.
Qed.

End CacheSweep.

(** X13. The periodic sweep [cleanup_cache] drops exactly the entries older
    than 3600 seconds: an entry of that age or younger is found as before, an
    older one is gone.  The sweep never changes what a lookup made then or
    later answers, nor whether the collaborator is asked. *)
Theorem cache_sweep_drops_expired :
  forall (Info : Type) (now : Z) (c : MusicService.SongCache Info),
    NoDup (map fst c) ->
    let swept := BotTasks.cleanup_cache now c in
    (forall key e,
        MusicService.cache_get key swept = Some e <->
        MusicService.cache_get key c = Some e
        /\ (now - MusicService.cached_at e <= 3600)%Z)
    /\ (forall q later t_store resolved,
           (now <= later)%Z ->
           let before := MusicService.get_song_info_cached q later t_store
                           resolved c in
           let after := MusicService.get_song_info_cached q later t_store
                          resolved swept in
           fst (fst after) = fst (fst before) /\ snd after = snd before).
Proof.
  intros Info now c Hnd swept.
  assert (Hget : forall key e,
             MusicService.cache_get key swept = Some e <->
             MusicService.cache_get key c = Some e
             /\ (now - MusicService.cached_at e <= 3600)%Z).
  { intros key e. unfold swept. rewrite cleanup_cache_get by assumption.
    destruct (MusicService.cache_get key c) as [e0|];
      [|split; [discriminate | intros [H _]; discriminate]].
    unfold MusicService.cache_ttl.
    destruct (Z.gtb_spec (now - MusicService.cached_at e0) 3600)
      as [Hgt|Hle].
    - split; [discriminate|]. intros [H ?]. inversion H; subst. lia.
    - split.
      + intros H. inversion H; subst. split; [reflexivity | lia].
      + now intros [H _]. }
  split; [exact Hget|].
  intros q later t_store resolved Hlater before after.
  unfold before, after, MusicService.get_song_info_cached.
  set (key := MusicService.strip (MusicService.lower q)).
  destruct (MusicService.cache_get key c) as [e|] eqn:Hc.
  - destruct (Z.ltb_spec (later - MusicService.cached_at e)
                MusicService.cache_ttl) as [Hfresh|Hstale].
    + assert (Hs : MusicService.cache_get key swept = Some e).
      { apply Hget. split; [exact Hc|].
        unfold MusicService.cache_ttl in Hfresh. lia. }
      rewrite Hs.
      destruct (Z.ltb_spec (later - MusicService.cached_at e)
                  MusicService.cache_ttl); [|lia].
      split; reflexivity.
    + destruct (MusicService.cache_get key swept) as [e'|] eqn:Hs.
      * apply Hget in Hs as [Hs _].
        assert (He : e' = e) by congruence. rewrite He.
        destruct (Z.ltb_spec (later - MusicService.cached_at e)
                    MusicService.cache_ttl); [lia|].
        destruct resolved; split; reflexivity.
      * destruct resolved; split; reflexivity.
  - destruct (MusicService.cache_get key swept) as [e'|] eqn:Hs.
    + apply Hget in Hs as [Hs _]. congruence.
    + destruct resolved; split; reflexivity.
Qed.

(** A cache with entries cached at 0, 1 and 2 is swept at time 3601: the
    entry of age 3601 goes, the entry of age exactly 3600 stays. *)
Lemma cache_sweep_drops_expired_witness :
  MusicService.cache_get (strokes 0)
    (BotTasks.cleanup_cache 3601 (numbered_cache 3)) = None
  /\ MusicService.cache_get (strokes 1)
       (BotTasks.cleanup_cache 3601 (numbered_cache 3))
     = Some (MusicService.mkCacheEntry "data" 1%Z).
Proof.
  destruct (cache_sweep_drops_expired string 3601 (numbered_cache 3)
              (numbered_cache_keys_distinct 3)) as [H _].
  split; [reflexivity|].
  apply H. split; [reflexivity | simpl; lia].
Defined.

(** ** Search results *)

Lemma prefix_http_truthy (u : string) :
  String.prefix "http" u = true -> str_truthy (Some u) = true.
Proof. destruct u; [discriminate | reflexivity]. Qed.

Lemma str_or_truthy (a b : option string) :
  str_truthy (MusicSearch.str_or a b) = str_truthy a || str_truthy b.
Proof. unfold MusicSearch.str_or. now destruct (str_truthy a) eqn:E. Qed.

Lemma watch_url_truthy (video_id : string) :
  str_truthy (Some ("https://www.youtube.com/watch?v=" ++ video_id)%string)
  = true.
Proof. reflexivity. Qed.

Lemma str_or_left (a b : option string) :
  str_truthy a = true -> MusicSearch.str_or a b = a.
Proof. unfold MusicSearch.str_or. now intros ->. Qed.

Lemma normalize_some_truthy (raw_entry : option YtEntry) (n : YtEntry) :
  MusicSearch._normalize_youtube_entry raw_entry = Some n ->
  str_truthy (e_title n) = true
  /\ str_truthy (e_webpage_url n) = true
  /\ str_truthy (e_url n) = true.
Proof.
  destruct raw_entry as [[t alt wp u vid]|]; [|discriminate].
  unfold MusicSearch._normalize_youtube_entry.
  cbn [e_title e_alt_title e_webpage_url e_url e_id].
  destruct (str_truthy (MusicSearch.str_or t alt)) eqn:Et; cbn [negb];
    [|discriminate].
  match goal with
  | |- (if negb (str_truthy ?w) then _ else _) = _ -> _ =>
      set (page := w); destruct (str_truthy page) eqn:Ew; cbn [negb];
      [|discriminate]
  end.
  intros Hn. apply (f_equal (fun o => dict_get o n)) in Hn.
  cbn [dict_get] in Hn. subst n.
  cbn [e_title e_alt_title e_webpage_url e_url e_id].
  repeat split; try assumption.
  destruct (str_truthy u) eqn:Eu; cbn [negb]; assumption.
Qed.

(** X14. [_normalize_youtube_entry] answers only entries that have a title,
    a page URL and a stream URL, all non-empty; normalizing such an answer
    again changes nothing; a present page URL is kept.  It answers [None]
    exactly when there is neither title nor alternative title, or when no
    page URL can be had: none given, no URL starting with "http", no id. *)
Theorem normalize_youtube_entry_wellformed :
  forall entry : YtEntry,
    (forall n,
        MusicSearch._normalize_youtube_entry (Some entry) = Some n ->
        str_truthy (e_title n) = true
        /\ str_truthy (e_webpage_url n) = true
        /\ str_truthy (e_url n) = true
        /\ e_alt_title n = e_alt_title entry /\ e_id n = e_id entry
        /\ (str_truthy (e_webpage_url entry) = true ->
            e_webpage_url n = e_webpage_url entry)
        /\ (str_truthy (e_url entry) = true -> e_url n = e_url entry)
        /\ MusicSearch._normalize_youtube_entry (Some n) = Some n)
    /\ (MusicSearch._normalize_youtube_entry (Some entry) = None <->
        (str_truthy (e_title entry) = false
         /\ str_truthy (e_alt_title entry) = false)
        \/ (str_truthy (e_webpage_url entry) = false
            /\ String.prefix "http" (dict_get (e_url entry) "") = false
            /\ str_truthy (e_id entry) = false)).
Proof.
  intros [t alt wp u vid].
  set (norm := MusicSearch._normalize_youtube_entry).
  assert (Hidem : forall w x,
             str_truthy (MusicSearch.str_or t alt) = true ->
             str_truthy w = true -> str_truthy x = true ->
             norm (Some {| e_title := MusicSearch.str_or t alt;
                           e_alt_title := alt; e_webpage_url := w;
                           e_url := x; e_id := vid |})
             = Some {| e_title := MusicSearch.str_or t alt;
                       e_alt_title := alt; e_webpage_url := w;
                       e_url := x; e_id := vid |}).
  { intros w x Et Hw Hx. unfold norm, MusicSearch._normalize_youtube_entry.
    cbn [e_title e_alt_title e_webpage_url e_url e_id].
    rewrite (str_or_left _ alt Et), Et, Hw, Hx.
    cbn [negb]. rewrite Hw. reflexivity. }
  pose proof (eq_refl : norm (Some (mkYtEntry t alt wp u vid))
                        = norm (Some (mkYtEntry t alt wp u vid))) as Hrun.
  unfold norm at 2 in Hrun.
  unfold MusicSearch._normalize_youtube_entry in Hrun.
  rewrite Hrun. clear Hrun.
  cbn [e_title e_alt_title e_webpage_url e_url e_id].
  pose proof (str_or_truthy t alt) as Htitle.
  destruct (str_truthy (MusicSearch.str_or t alt)) eqn:Et; cbn [negb].
  2: { symmetry in Htitle. apply orb_false_iff in Htitle.
       split; [discriminate|]. split; [tauto | reflexivity]. }
  assert (Hno_title : ~ (str_truthy t = false /\ str_truthy alt = false)).
  { intros [Ha Hb]. rewrite Ha, Hb in Htitle. discriminate. }
  specialize (fun w x => Hidem w x eq_refl).
  destruct (str_truthy wp) eqn:Ewp; cbn [negb].
  - rewrite Ewp. cbn [negb]. split.
    + intros n Hn. apply (f_equal (fun o => dict_get o n)) in Hn.
           cbn [dict_get] in Hn. subst n.
      cbn [e_title e_alt_title e_webpage_url e_url e_id].
      destruct (str_truthy u) eqn:Eu; cbn [negb];
        repeat split; auto; try (intros; congruence); try (apply Hidem; auto).
    + split; [discriminate|]. intros [H|[H _]]; [tauto | discriminate].
  - destruct u as [ustr|]; cbn [dict_get].
    + destruct (String.prefix "http" ustr) eqn:Ehttp.
      * pose proof (prefix_http_truthy _ Ehttp) as Hu.
        rewrite Hu. cbn [negb]. split.
        -- intros n Hn. apply (f_equal (fun o => dict_get o n)) in Hn.
           cbn [dict_get] in Hn. subst n.
           cbn [e_title e_alt_title e_webpage_url e_url e_id].
           repeat split; auto; try (intros; congruence); try (apply Hidem; auto).
        -- split; [discriminate|].
           intros [H|(_ & H & _)]; [tauto | discriminate].
      * destruct (str_truthy vid) eqn:Evid.
        -- rewrite watch_url_truthy. cbn [negb]. split.
           ++ intros n Hn. apply (f_equal (fun o => dict_get o n)) in Hn.
           cbn [dict_get] in Hn. subst n.
              cbn [e_title e_alt_title e_webpage_url e_url e_id].
              destruct (str_truthy (Some ustr)) eqn:Eu; cbn [negb];
                repeat split; auto; try (intros; congruence); try (apply Hidem; auto).
           ++ split; [discriminate|].
              intros [H|(_ & _ & H)]; [tauto | discriminate].
        -- rewrite Ewp. cbn [negb]. split; [discriminate|].
           split; auto.
    + cbn [String.prefix].
      destruct (str_truthy vid) eqn:Evid.
      * rewrite watch_url_truthy. cbn [negb]. split.
        -- intros n Hn. apply (f_equal (fun o => dict_get o n)) in Hn.
           cbn [dict_get] in Hn. subst n.
           cbn [e_title e_alt_title e_webpage_url e_url e_id].
           change (str_truthy (@None string)) with false. cbn [negb].
           repeat split; auto using watch_url_truthy;
             try (intros; congruence);
             try (apply Hidem; auto using watch_url_truthy).
        -- split; [discriminate|].
           intros [H|(_ & _ & H)]; [tauto | discriminate].
      * rewrite Ewp. cbn [negb]. split; [discriminate|].
        split; auto.
Qed.

Lemma normalize_youtube_entry_wellformed_witness :
  exists n,
    MusicSearch._normalize_youtube_entry (Some bare_entry) = Some n
    /\ e_title n = Some "Song"
    /\ e_webpage_url n = Some "https://www.youtube.com/watch?v=xyz"
    /\ str_truthy (e_url n) = true
    /\ MusicSearch._normalize_youtube_entry (Some n) = Some n.
Proof.
  destruct (normalize_youtube_entry_wellformed bare_entry) as [Hsome _].
  eexists. split; [reflexivity|].
  destruct (Hsome _ eq_refl) as (_ & _ & Hurl & _ & _ & _ & _ & Hidem).
  split; [reflexivity|]. split; [reflexivity|].
  split; [exact Hurl | exact Hidem].
Defined.

(** X15. [search_youtube] answers the normalization of the first entry that
    can be normalized, every entry before it being unusable, and so always a
    track with title, page URL and stream URL; it answers [None] when the
    extraction gave nothing or no entry can be normalized. *)
Theorem search_youtube_first_usable :
  forall entries : list (option YtEntry),
    (forall n,
        MusicSearch.search_youtube (Some entries) = Some n ->
        (exists before raw after,
            entries = before ++ Some raw :: after
            /\ Forall (fun e => MusicSearch._normalize_youtube_entry e = None)
                 before
            /\ MusicSearch._normalize_youtube_entry (Some raw) = Some n)
        /\ str_truthy (e_title n) = true
        /\ str_truthy (e_webpage_url n) = true
        /\ str_truthy (e_url n) = true)
    /\ (MusicSearch.search_youtube (Some entries) = None <->
        Forall (fun e => MusicSearch._normalize_youtube_entry e = None)
          entries)
    /\ MusicSearch.search_youtube None = None.
Proof.
  intros entries. cbn [MusicSearch.search_youtube].
  split; [|split; [|reflexivity]].
  - induction entries as [|e rest IH]; intros n Hn;
      cbn [MusicSearch.first_normalized] in Hn; [discriminate|].
    destruct (MusicSearch._normalize_youtube_entry e) as [m|] eqn:Em.
    + assert (m = n) by congruence. subst m.
      destruct e as [raw|]; [|discriminate].
      destruct (normalize_some_truthy _ _ Em) as (Ht & Hw & Hu).
      split; [|auto].
      exists [], raw, rest. split; [reflexivity|]. split; [constructor | auto].
    + destruct (IH n Hn) as ((before & raw & after & -> & Hall & Hraw) & Hwf).
      split; [|exact Hwf].
      exists (e :: before), raw, after.
      split; [reflexivity|]. split; [constructor; assumption | assumption].
  - induction entries as [|e rest IH]; cbn [MusicSearch.first_normalized].
    + split; [constructor | reflexivity].
    + destruct (MusicSearch._normalize_youtube_entry e) as [m|] eqn:Em.
      * split; [discriminate|]. intros H. inversion H; congruence.
      * rewrite IH. split; [now constructor | intros H; now inversion H].
Qed.

Lemma search_youtube_first_usable_witness :
  exists n,
    MusicSearch.search_youtube
      (Some [None; Some (mkYtEntry None None None None (Some "id"));
             Some bare_entry]) = Some n
    /\ str_truthy (e_webpage_url n) = true.
Proof.
  destruct (search_youtube_first_usable
              [None; Some (mkYtEntry None None None None (Some "id"));
               Some bare_entry]) as [Hsome _].
  eexists. split; [reflexivity|].
  now destruct (Hsome _ eq_refl) as (_ & _ & Hw & _).
Defined.

(** ** PlaybackController: what a transition does and never does *)

Lemma play_next_starts_candidate (w : World) (g g1 : GuildData)
  (candidate : Song) (fresh : SongDict) (k : nat) :
  seeking g = false ->
  PlaybackService.voice_busy g = false ->
  PlaybackService.voice_live g = true ->
  QueueService.get_next_song (w_randbelow w 0) g = (Some candidate, g1) ->
  (k < PlaybackService.max_retries)%nat ->
  (forall attempt, (attempt < k)%nat ->
                   resolves w 0 attempt (webpage_url candidate) = false) ->
  w_get_song_info w 0 k (webpage_url candidate) = Some fresh ->
  str_truthy (d_url fresh) = true ->
  w_start w 0 = Started ->
  PlaybackService.play_next w g
  = (tt,
     started (PlaybackService.refresh candidate fresh) (w_now w) g1,
     retried (webpage_url candidate) k
     ++ [GetSongInfo (webpage_url candidate);
         ValidateUrl (dict_get (d_url fresh) "");
         Play (dict_get (d_url fresh) "") (volume g1);
         Sleep 200]
     ++ (if w_music_cog w then [UpdateNowPlaying] else [])
     ++ [SaveGuildQueue]).
Proof.
  intros Hseek Hbusy Hlive Hnext Hk Hfail Hres Hurl Hstart.
  unfold PlaybackService.play_next. run_monad.
  rewrite Hseek, Hbusy, Hlive. cbn [negb].
  cbn [PlaybackService.play_loop PlaybackService.max_skip_attempts
       Nat.ltb Nat.leb].
  run_monad. rewrite Hnext.
  rewrite (extract_resolves_at w candidate 0 k fresh g1
             Hk Hfail Hres Hurl Hstart).
  cbn [app]. rewrite !app_nil_r. reflexivity.
Qed.

(** X16. The guards of [play_next]: while a seek is under way, or while the
    transport is playing or paused with a current song, it changes nothing
    and calls nothing (a second start is impossible); with the connection
    gone it only forgets the current song, leaving the queue for later; with
    nothing to play it goes idle, takes down the now-playing message and
    asks for one save. *)
Theorem play_next_guards :
  forall (w : World) (g : GuildData),
    (seeking g = true \/ PlaybackService.voice_busy g = true ->
     PlaybackService.play_next w g = (tt, g, []))
    /\ (seeking g = false -> PlaybackService.voice_busy g = false ->
        PlaybackService.voice_live g = false ->
        PlaybackService.play_next w g
        = (tt,
           set_last_activity (w_now w)
             (set_start_time None (set_position 0 (set_current None g))),
           []))
    /\ (seeking g = false -> PlaybackService.voice_busy g = false ->
        PlaybackService.voice_live g = true ->
        fst (QueueService.get_next_song (w_randbelow w 0) g) = None ->
        exists g',
          PlaybackService.play_next w g
          = (tt, g',
             match now_playing_message g with
             | Some _ => [EditNowPlaying "Queue Empty"; ClearReactions;
                          SaveGuildQueue]
             | None => [SaveGuildQueue]
             end)
          /\ idle g' /\ now_playing_message g' = None
          /\ queue g' = [] /\ history g' = history g
          /\ loop_backup g' = loop_backup g).
Proof.
  intros w g. split; [|split].
  - intros Hguard. unfold PlaybackService.play_next. run_monad.
    destruct (seeking g); [reflexivity|].
    destruct Hguard as [H|H]; [discriminate | now rewrite H].
  - intros Hseek Hbusy Hlive. unfold PlaybackService.play_next. run_monad.
    now rewrite Hseek, Hbusy, Hlive.
  - intros Hseek Hbusy Hlive Hnone.
    pose proof (proj1 (get_next_song_none_iff _ _) Hnone)
      as (Hrep & Hq & Hb).
    assert (Hnext : QueueService.get_next_song (w_randbelow w 0) g
                    = (None, g)).
    { destruct (QueueService.get_next_song (w_randbelow w 0) g)
        as [next g1] eqn:E.
      simpl in Hnone. subst next. f_equal.
      rewrite get_next_song_eq_spec in E. unfold dequeue_next_spec in E.
      rewrite Hq in E.
      destruct (String.eqb (loop_mode g) "song"
                && match current g with Some _ => true | None => false end);
        [inversion E; reflexivity|].
      destruct (String.eqb (loop_mode g) "queue"
                && match loop_backup g with [] => false | _ => true end)
        eqn:Eloop; [|inversion E; reflexivity].
      exfalso. apply andb_true_iff in Eloop as [Hm Hne].
      apply String.eqb_eq in Hm.
      destruct Hb as [Hb|Hb]; [contradiction|].
      rewrite Hb in Hne. discriminate. }
    unfold PlaybackService.play_next. run_monad.
    rewrite Hseek, Hbusy, Hlive. cbn [negb].
    cbn [PlaybackService.play_loop PlaybackService.max_skip_attempts
         Nat.ltb Nat.leb].
    run_monad. rewrite Hnext.
    unfold PlaybackService._handle_empty_queue. run_monad. guild_simpl'.
    destruct (now_playing_message g) eqn:Emsg; eexists;
      (split; [reflexivity|]); unfold idle; guild_simpl';
      repeat split; try reflexivity; assumption.
Qed.

Lemma play_next_guards_witness :
  PlaybackService.play_next failing_world guild_playing_B
  = (tt, guild_playing_B, [])
  /\ exists g',
      PlaybackService.play_next failing_world
        (set_voice_client (Some live_client) fresh_guild)
      = (tt, g', [SaveGuildQueue])
      /\ idle g'.
Proof.
  destruct (play_next_guards failing_world guild_playing_B) as (Hbusy & _).
  destruct (play_next_guards failing_world
              (set_voice_client (Some live_client) fresh_guild))
    as (_ & _ & Hidle).
  split; [apply Hbusy; right; reflexivity|].
  destruct Hidle as (g' & Hrun & Hi & _); try reflexivity.
  exists g'. split; [exact Hrun | exact Hi].
Defined.

(** *** One start per transition *)

Lemma skip_notice_no_play (w : World) (song : Song) :
  filter is_play (skip_notice w song) = [].
Proof. unfold skip_notice. now destruct (PlaybackService.notify_channel w). Qed.

Lemma start_playback_result (w : World) (song : Song) (skip_count : nat)
  (g : GuildData) :
  clean_starts w ->
  start_result (w_now w) (PlaybackService._start_playback w song skip_count g).
Proof.
  intros Hclean. specialize (Hclean skip_count).
  unfold raises_after_play in Hclean.
  destruct (w_start w skip_count) eqn:Hstart.
  - rewrite (start_playback_started _ _ _ _ Hstart).
    unfold start_result. cbn [fst snd]. exists song.
    split; [|repeat split].
    destruct (w_music_cog w); reflexivity.
  - unfold PlaybackService._start_playback. rewrite Hstart.
    unfold bind. rewrite handle_song_skip_run.
    unfold start_result, ret. cbn [fst snd]. rewrite app_nil_r.
    apply skip_notice_no_play.
  - unfold PlaybackService._start_playback. rewrite Hstart.
    run_monad. rewrite handle_song_skip_run.
    unfold start_result. cbn [fst snd app]. rewrite app_nil_r.
    apply skip_notice_no_play.
  - cbn [PlaybackService.update_raises orb] in Hclean.
    rewrite orb_false_r in Hclean.
    unfold PlaybackService._start_playback. rewrite Hstart.
    cbn [PlaybackService.update_raises]. rewrite Hclean.
    run_monad. unfold start_result. cbn [fst snd app].
    exists song. repeat split.
  - cbn [PlaybackService.update_raises orb] in Hclean. discriminate.
Qed.

Lemma extract_attempts_result (w : World) (song : Song) (skip_count : nat)
  (attempts : list nat) :
  clean_starts w ->
  forall g,
    start_result (w_now w)
      (PlaybackService.extract_attempts w song skip_count attempts g).
Proof.
  intros Hclean.
  induction attempts as [|attempt rest IH]; intros g;
    cbn [PlaybackService.extract_attempts].
  - unfold bind. rewrite handle_song_skip_run.
    unfold start_result, ret. cbn [fst snd]. rewrite app_nil_r.
    apply skip_notice_no_play.
  - assert (Hretry : start_result (w_now w)
              ((emit (GetSongInfo (webpage_url song)) ;;;
                when (attempt <? PlaybackService.max_retries - 1)%nat
                  (emit (Sleep (2 ^ Z.of_nat attempt * 1000))) ;;;
                PlaybackService.extract_attempts w song skip_count rest) g)).
    { specialize (IH g). unfold start_result in *. run_monad.
      destruct (attempt <? PlaybackService.max_retries - 1)%nat;
        cbn beta iota;
        destruct (PlaybackService.extract_attempts w song skip_count rest g)
          as [[b g'] e];
        cbn [fst snd app filter is_play] in *; exact IH. }
    destruct (w_get_song_info w skip_count attempt (webpage_url song))
      as [fresh|]; [|exact Hretry].
    destruct (str_truthy (d_url fresh)); [|exact Hretry].
    pose proof (start_playback_result w (PlaybackService.refresh song fresh)
                  skip_count g Hclean) as Hstart.
    unfold start_result in *. run_monad.
    destruct (PlaybackService._start_playback w _ skip_count g)
      as [[b g'] e].
    cbn [fst snd app filter is_play] in *. exact Hstart.
Qed.

Lemma handle_empty_queue_no_play (w : World) (g : GuildData) :
  filter is_play (snd (PlaybackService._handle_empty_queue w g)) = []
  /\ current (snd (fst (PlaybackService._handle_empty_queue w g))) = None.
Proof.
  unfold PlaybackService._handle_empty_queue. run_monad. guild_simpl'.
  destruct (now_playing_message g); split; reflexivity.
Qed.

Lemma play_loop_result (w : World) (fuel : nat) :
  clean_starts w ->
  forall skip_count g,
    let r := PlaybackService.play_loop w fuel skip_count g in
    filter is_play (snd r) = []
    \/ (exists left_at,
           fst (fst r) = Some left_at
           /\ (left_at < PlaybackService.max_skip_attempts)%nat)
       /\ start_result (w_now w) (true, snd (fst r), snd r).
Proof.
  intros Hclean.
  induction fuel as [|fuel IH]; intros skip_count g;
    cbn [PlaybackService.play_loop];
    destruct (Nat.ltb_spec skip_count PlaybackService.max_skip_attempts)
      as [Hlt|Hge]; try (left; reflexivity).
  run_monad.
  destruct (QueueService.get_next_song (w_randbelow w skip_count) g)
    as [[song|] g1].
  - pose proof (extract_attempts_result w song skip_count
                  (seq 0 PlaybackService.max_retries) Hclean g1) as Hstart.
    unfold PlaybackService._extract_and_play_song.
    destruct (PlaybackService.extract_attempts w song skip_count
                (seq 0 PlaybackService.max_retries) g1) as [[ok g2] e2].
    unfold start_result in Hstart. cbn [fst snd] in Hstart.
    destruct ok.
    + right. cbn [fst snd app]. rewrite app_nil_r.
      split; [exists skip_count; auto | exact Hstart].
    + specialize (IH (skip_count + 1)%nat g2). cbv zeta in IH.
      destruct (PlaybackService.play_loop w fuel (skip_count + 1) g2)
        as [[r g3] e3].
      cbn [fst snd app] in *. unfold start_result in *.
      cbn [fst snd] in *. rewrite filter_app, Hstart. exact IH.
  - left. destruct (handle_empty_queue_no_play w g1) as [Hno _].
    destruct (PlaybackService._handle_empty_queue w g1) as [[[] g2] e2].
    cbn [fst snd app] in *. now rewrite app_nil_r.
Qed.

Lemma play_next_one_start (w : World) (g : GuildData) :
  clean_starts w ->
  starts_at_most_one (w_now w)
    (snd (fst (PlaybackService.play_next w g)))
    (snd (PlaybackService.play_next w g)).
Proof.
  intros Hclean. unfold starts_at_most_one, PlaybackService.play_next.
  run_monad.
  destruct (seeking g); [left; reflexivity|].
  destruct (PlaybackService.voice_busy g); [left; reflexivity|].
  destruct (PlaybackService.voice_live g); cbn [negb];
    [|left; reflexivity].
  pose proof (play_loop_result w PlaybackService.max_skip_attempts Hclean
                0 g) as Hloop.
  cbv zeta in Hloop.
  destruct (PlaybackService.play_loop w PlaybackService.max_skip_attempts 0 g)
    as [[left_at g1] e1].
  cbn [fst snd] in Hloop.
  destruct Hloop as [Hnone|[(sc & -> & Hlt) Hstart]].
  - left. destruct left_at as [sc|]; cbn [fst snd app];
      [|now rewrite app_nil_r].
    destruct (PlaybackService.max_skip_attempts <=? sc)%nat; cbn [when].
    + rewrite handle_max_retries_exceeded_run. cbn [fst snd].
      rewrite filter_app, Hnone.
      now destruct (PlaybackService.notify_channel w).
    + cbn [ret fst snd]. now rewrite app_nil_r.
  - right.
    destruct (Nat.leb_spec PlaybackService.max_skip_attempts sc); [lia|].
    cbn [when ret fst snd app]. rewrite app_nil_r.
    exact Hstart.
Qed.

(** The completion callback is [play_next] on the guild with the finished
    song recorded, unless a seek is under way or the transport failed. *)
Lemma after_playing_run (w : World) (error : bool) (g : GuildData) :
  PlaybackCallbacks.after_playing w error g
  = if seeking g then (tt, g, [])
    else PlaybackService.play_next w
           (if error then g
            else match current g with
                 | Some cur => QueueService.add_to_history cur g
                 | None => g
                 end).
Proof.
  unfold PlaybackCallbacks.after_playing. run_monad.
  destruct error; cbn [negb].
  - destruct (seeking g); cbn [negb]; [reflexivity|].
    now destruct (PlaybackService.play_next w g) as [[[] g'] e].
  - destruct (current g) as [cur|].
    + destruct (seeking g) eqn:Eseek; cbn [negb].
      * rewrite Eseek. reflexivity.
      * destruct (add_to_history_frame cur g) as (_ & _ & _ & _ & _ & _ & H).
        cbv zeta in H. rewrite H, Eseek. cbn [negb].
        now destruct (PlaybackService.play_next w _) as [[[] g'] e].
    + destruct (seeking g); cbn [negb]; [reflexivity|].
      now destruct (PlaybackService.play_next w g) as [[[] g'] e].
Qed.

Lemma resume_playback_run (w : World) (g : GuildData) :
  MusicBot._resume_playback_after_reconnect w g
  = match current g, queue g with
    | Some current_song, _ =>
        PlaybackService.play_next w
          (set_queue (list_insert 0 current_song (queue g))
             (set_current None g))
    | None, _ :: _ => PlaybackService.play_next w g
    | None, [] => (tt, g, [])
    end.
Proof.
  unfold MusicBot._resume_playback_after_reconnect. run_monad.
  destruct (current g) as [cur|].
  - now destruct (PlaybackService.play_next w _) as [[[] g'] e].
  - destruct (queue g); [reflexivity|].
    now destruct (PlaybackService.play_next w g) as [[[] g'] e].
Qed.

Lemma check_voice_health_run (w : World) (g : GuildData) :
  BotTasks.check_voice_health w g
  = if stalled g
    then PlaybackService.play_next w (set_current None g)
    else (tt, if orphaned g then set_voice_client None g else g, []).
Proof.
  unfold BotTasks.check_voice_health, stalled, orphaned. run_monad.
  destruct (voice_client g) as [vc|]; [|reflexivity].
  destruct (is_connected vc); cbn [negb andb].
  - destruct (current g); cbn [andb]; [|reflexivity].
    destruct (is_playing vc); cbn [negb andb]; [reflexivity|].
    destruct (is_paused vc); cbn [negb andb]; [reflexivity|].
    now destruct (PlaybackService.play_next w _) as [[[] g'] e].
  - destruct (current g); [reflexivity|].
    destruct (queue g); reflexivity.
Qed.

(** X17. Provided no call made after [voice_client.play] raises
    ([update_now_playing], [save_guild_queue]), a transition starts at most
    one song, whether it is entered through [play_next], through the
    completion callback of the song that ended, through the resumption after
    a reconnect, or through the health check of a stalled guild, and
    whatever the collaborators answer otherwise; when it starts one, that
    song is the current song afterwards, with [seek_offset] 0 and
    [start_time] the time of the start, played at the guild's volume. *)
Theorem transition_starts_at_most_one :
  forall (w : World) (error : bool) (g : GuildData),
    clean_starts w ->
    let entries :=
      [PlaybackService.play_next w g;
       PlaybackCallbacks.after_playing w error g;
       MusicBot._resume_playback_after_reconnect w g;
       BotTasks.check_voice_health w g] in
    Forall (fun r => starts_at_most_one (w_now w) (snd (fst r)) (snd r))
      entries.
Proof.
  intros w error g Hclean entries. unfold entries.
  pose proof (fun g => play_next_one_start w g Hclean) as Hone.
  apply Forall_cons; [|apply Forall_cons; [|apply Forall_cons;
    [|apply Forall_cons; [|apply Forall_nil]]]].
  - apply Hone.
  - rewrite after_playing_run.
    destruct (seeking g); [left; reflexivity | apply Hone].
  - rewrite resume_playback_run.
    destruct (current g) as [cur|]; [apply Hone|].
    destruct (queue g); [left; reflexivity | apply Hone].
  - rewrite check_voice_health_run.
    destruct (stalled g); [apply Hone | left; reflexivity].
Qed.

Lemma transition_starts_at_most_one_witness :
  let w := vw_world healing_world in
  Forall (fun r => starts_at_most_one (w_now w) (snd (fst r)) (snd r))
    [PlaybackService.play_next w guild_finished_B;
     PlaybackCallbacks.after_playing w false guild_finished_B;
     MusicBot._resume_playback_after_reconnect w guild_finished_B;
     BotTasks.check_voice_health w guild_finished_B].
Proof.
  apply (transition_starts_at_most_one (vw_world healing_world) false
           guild_finished_B).
  intros skip_count. reflexivity.
Defined.

(** Without the proviso the property fails: when [update_now_playing]
    raises for the first candidate, its stream is left running while the
    song is skipped into the history; the loop goes on, and the guild ends
    with a stream started and no current song. *)
Lemma update_error_skips_running_song :
  let r := PlaybackService.play_next (vw_world flaky_update_world)
             guild_idle_two in
  filter is_play (snd r) = [Play "https://cdn.example/b.m4a" 100]
  /\ current (snd (fst r)) = None
  /\ urls (history (snd (fst r))) = [webpage_url song_B; webpage_url song_C]
  /\ ~ starts_at_most_one 90 (snd (fst r)) (snd r).
Proof.
  intros r. assert (Hplay : filter is_play (snd r)
                            = [Play "https://cdn.example/b.m4a" 100])
    by (vm_compute; reflexivity).
  assert (Hcur : current (snd (fst r)) = None) by (vm_compute; reflexivity).
  split; [exact Hplay|]. split; [exact Hcur|].
  split; [vm_compute; reflexivity|].
  intros [Hnone|(song & _ & Hsome & _)]; congruence.
Qed.

Lemma get_next_song_frame (randbelow : nat -> nat) (g : GuildData) :
  let g' := snd (QueueService.get_next_song randbelow g) in
  history g' = history g /\ loop_backup g' = loop_backup g
  /\ volume g' = volume g /\ loop_mode g' = loop_mode g.
Proof.
  unfold QueueService.get_next_song.
  destruct (String.eqb (loop_mode g) "song"), (current g);
    try (cbn [snd]; repeat split; fail);
    (destruct (queue g) as [|front rest]; [|cbn [snd]; repeat split];
     destruct (String.eqb (loop_mode g) "queue"
               && negb (Nat.eqb (length (loop_backup g)) 0));
     [|cbn [snd]; repeat split];
     cbv zeta; guild_simpl';
     destruct (shuffle g); guild_simpl';
     match goal with
     | |- context [match ?q with [] => _ | _ => _ end] => destruct q
     end; cbn [snd]; guild_simpl'; repeat split).
Qed.

(** X18. The hand-over at the end of a song.  While a seek is under way the
    completion callback changes nothing and calls nothing, with or without
    an error.  Otherwise, when the song ended without error on an idle, live
    connection and the next candidate resolves within the retries and
    starts, the finished song is in the history, the candidate is the
    current song and exactly one stream is started, at the guild's
    volume. *)
Theorem after_playing_hands_over :
  forall (w : World) (g_seek g g1 : GuildData) (finished candidate : Song)
         (fresh : SongDict) (k : nat),
    seeking g_seek = true ->
    seeking g = false ->
    current g = Some finished ->
    PlaybackService.voice_busy g = false ->
    PlaybackService.voice_live g = true ->
    QueueService.get_next_song (w_randbelow w 0)
      (QueueService.add_to_history finished g) = (Some candidate, g1) ->
    (k < PlaybackService.max_retries)%nat ->
    (forall attempt, (attempt < k)%nat ->
                     resolves w 0 attempt (webpage_url candidate) = false) ->
    w_get_song_info w 0 k (webpage_url candidate) = Some fresh ->
    str_truthy (d_url fresh) = true ->
    w_start w 0 = Started ->
    let r := PlaybackCallbacks.after_playing w false g in
    PlaybackCallbacks.after_playing w true g_seek = (tt, g_seek, [])
    /\ PlaybackCallbacks.after_playing w false g_seek = (tt, g_seek, [])
    /\ current (snd (fst r)) = Some (PlaybackService.refresh candidate fresh)
    /\ QueueService.has_url (webpage_url finished)
         (history (snd (fst r))) = true
    /\ filter is_play (snd r)
       = [Play (dict_get (d_url fresh) "") (volume g)].
Proof.
  intros w g_seek g g1 finished candidate fresh k
         Hseeking Hseek Hcur Hbusy Hlive Hnext Hk Hfail Hres Hurl Hstart r.
  split; [|split].
  - rewrite after_playing_run, Hseeking. reflexivity.
  - rewrite after_playing_run, Hseeking. reflexivity.
  - unfold r. rewrite after_playing_run, Hseek, Hcur.
    destruct (add_to_history_frame finished g)
      as (_ & _ & Hc & _ & _ & Hvc & Hs).
    cbv zeta in Hc, Hvc, Hs.
    pose proof (get_next_song_frame (w_randbelow w 0)
                  (QueueService.add_to_history finished g)) as Hframe.
    rewrite Hnext in Hframe. cbv zeta in Hframe. cbn [snd] in Hframe.
    destruct Hframe as (Hhist & _ & Hvol & _).
    rewrite (play_next_starts_candidate w _ g1 candidate fresh k);
      try assumption.
    + cbn [fst snd]. unfold started. guild_simpl'.
      split; [reflexivity|]. split.
      * rewrite Hhist. apply add_to_history_has_url.
      * rewrite !filter_app.
        replace (filter is_play (retried (webpage_url candidate) k))
          with (@nil Effect).
        -- cbn [filter is_play app]. rewrite Hvol.
           assert (Hv : volume (QueueService.add_to_history finished g)
                        = volume g).
           { unfold QueueService.add_to_history.
             destruct (QueueService.has_url _ (history g)); [reflexivity|].
             guild_simpl'.
             destruct (Nat.ltb _ _); guild_simpl';
               destruct (negb _); guild_simpl'; reflexivity. }
           rewrite Hv.
           destruct (w_music_cog w); reflexivity.
        -- unfold retried. induction (seq 0 k) as [|a l IH];
             [reflexivity | exact IH].
    + now rewrite Hs.
    + unfold PlaybackService.voice_busy in *. now rewrite Hc, Hvc.
    + unfold PlaybackService.voice_live in *. now rewrite Hvc.
Qed.

Lemma after_playing_hands_over_witness :
  let w := vw_world healing_world in
  let r := PlaybackCallbacks.after_playing w false guild_finished_B in
  PlaybackCallbacks.after_playing w true guild_seeking_B
  = (tt, guild_seeking_B, [])
  /\ PlaybackCallbacks.after_playing w false guild_seeking_B
     = (tt, guild_seeking_B, [])
  /\ current (snd (fst r)) = Some (PlaybackService.refresh song_C fresh_B)
  /\ QueueService.has_url (webpage_url song_B) (history (snd (fst r))) = true
  /\ filter is_play (snd r)
     = [Play (dict_get (d_url fresh_B) "") (volume guild_finished_B)].
Proof.
  intros w.
  apply (after_playing_hands_over w guild_seeking_B guild_finished_B
           (snd (QueueService.get_next_song (fun _ => O)
                   (QueueService.add_to_history song_B guild_finished_B)))
           song_B song_C fresh_B 1).
  - reflexivity.
  - reflexivity.
  - reflexivity.
  - reflexivity.
  - reflexivity.
  - reflexivity.
  - unfold PlaybackService.max_retries. lia.
  - intros attempt Hlt. assert (attempt = 0)%nat as -> by lia. reflexivity.
  - reflexivity.
  - reflexivity.
  - reflexivity.
Defined.

(** ** The engine keeps the history and the backup tidy *)

Lemma keeps_ret (P : GuildData -> Prop) {A} (a : A) : keeps P (ret a).
Proof. intros g H. exact H. Qed.

Lemma keeps_get (P : GuildData -> Prop) : keeps P get.
Proof. intros g H. exact H. Qed.

Lemma keeps_emit (P : GuildData -> Prop) (e : Effect) : keeps P (emit e).
Proof. intros g H. exact H. Qed.

Lemma keeps_modify (P : GuildData -> Prop) (f : GuildData -> GuildData) :
  (forall g, P g -> P (f g)) -> keeps P (modify f).
Proof. intros Hf g H. apply Hf, H. Qed.

Lemma keeps_bind (P : GuildData -> Prop) {A B} (m : M A) (k : A -> M B) :
  keeps P m -> (forall a, keeps P (k a)) -> keeps P (bind m k).
Proof.
  intros Hm Hk g H. unfold bind.
  specialize (Hm g H). destruct (m g) as [[a g1] e1].
  specialize (Hk a g1 Hm). destruct (k a g1) as [[b g2] e2].
  exact Hk.
Qed.

Lemma keeps_when (P : GuildData -> Prop) (b : bool) (m : M unit) :
  keeps P m -> keeps P (when b m).
Proof. destruct b; [auto | intros _; apply keeps_ret]. Qed.

Lemma tidy_add_to_history (song : Song) (g : GuildData) :
  tidy g -> tidy (QueueService.add_to_history song g).
Proof.
  intros [Hhist Hbackup]. split; [now apply add_to_history_ok|].
  rewrite add_to_history_backup.
  destruct (QueueService.has_url (webpage_url song) (history g)
            || QueueService.has_url (webpage_url song) (loop_backup g))
    eqn:E; [exact Hbackup|].
  apply orb_false_iff in E. destruct E as [_ E].
  unfold distinct_urls, urls in *. rewrite map_app.
  apply NoDup_snoc; [exact Hbackup|]. now apply has_url_false_iff.
Qed.

(** One step of a proof that a coroutine keeps [tidy]: the assignments of
    the engine leave the history and the backup alone, except through
    [add_to_history] and by emptying the backup. *)
Ltac tidy_step :=
  first
    [ apply keeps_ret | apply keeps_get | apply keeps_emit
    | apply keeps_modify; intros ? ?;
      first [ assumption
            | apply tidy_add_to_history; assumption
            | match goal with
              | H : tidy _ |- tidy _ =>
                  destruct H as [? ?]; split;
                  [assumption | apply NoDup_nil]
              end ]
    | apply keeps_when
    | apply keeps_bind; [|intros ?]
    | match goal with
      | |- keeps _ (match ?x with _ => _ end) => destruct x
      | |- keeps _ (if ?x then _ else _) => destruct x
      end ].

Lemma tidy_handle_song_skip (w : World) (song : Song) :
  keeps tidy (PlaybackService._handle_song_skip w song).
Proof. unfold PlaybackService._handle_song_skip. repeat tidy_step. Qed.

Lemma tidy_start_playback (w : World) (song : Song) (skip_count : nat) :
  keeps tidy (PlaybackService._start_playback w song skip_count).
Proof.
  unfold PlaybackService._start_playback.
  destruct (w_start w skip_count);
    repeat first [apply tidy_handle_song_skip | tidy_step].
Qed.

Lemma tidy_extract_attempts (w : World) (song : Song) (skip_count : nat)
  (attempts : list nat) :
  keeps tidy (PlaybackService.extract_attempts w song skip_count attempts).
Proof.
  induction attempts as [|attempt rest IH];
    cbn [PlaybackService.extract_attempts].
  - repeat first [apply tidy_handle_song_skip | tidy_step].
  - apply keeps_bind; [apply keeps_emit | intros _].
    assert (Hretry : keeps tidy
              (when (attempt <? PlaybackService.max_retries - 1)%nat
                 (emit (Sleep (2 ^ Z.of_nat attempt * 1000))) ;;;
               PlaybackService.extract_attempts w song skip_count rest)).
    { apply keeps_bind; [apply keeps_when, keeps_emit|].
      intros _. exact IH. }
    destruct (w_get_song_info w skip_count attempt (webpage_url song))
      as [fresh|]; [|exact Hretry].
    destruct (str_truthy (d_url fresh)); [|exact Hretry].
    apply keeps_bind; [apply keeps_emit | intros _].
    apply tidy_start_playback.
Qed.

Lemma tidy_get_next_song (w : World) (skip_count : nat) :
  keeps tidy (PlaybackService.get_next_song w skip_count).
Proof.
  intros g [[Hlen Hnd] Hbackup]. unfold PlaybackService.get_next_song.
  pose proof (get_next_song_frame (w_randbelow w skip_count) g) as Hframe.
  destruct (QueueService.get_next_song _ g) as [next_song g'].
  cbv zeta in Hframe. cbn [fst snd] in *.
  destruct Hframe as (Hh & Hb & _).
  unfold tidy, history_ok. now rewrite Hh, Hb.
Qed.

Lemma tidy_play_loop (w : World) (fuel : nat) :
  forall skip_count,
    keeps tidy (PlaybackService.play_loop w fuel skip_count).
Proof.
  induction fuel as [|fuel IH]; intros skip_count;
    cbn [PlaybackService.play_loop];
    destruct (skip_count <? PlaybackService.max_skip_attempts)%nat;
    try apply keeps_ret.
  apply keeps_bind; [apply tidy_get_next_song | intros [song|]].
  - apply keeps_bind; [apply tidy_extract_attempts | intros [|]].
    + apply keeps_ret.
    + apply IH.
  - unfold PlaybackService._handle_empty_queue. repeat tidy_step.
Qed.

Lemma tidy_play_next (w : World) : keeps tidy (PlaybackService.play_next w).
Proof.
  unfold PlaybackService.play_next.
  apply keeps_bind; [apply keeps_get | intros g].
  destruct (seeking g); [apply keeps_ret|].
  destruct (PlaybackService.voice_busy g); [apply keeps_ret|].
  destruct (negb (PlaybackService.voice_live g)); [repeat tidy_step|].
  apply keeps_bind; [apply tidy_play_loop | intros [skip_count|]];
    [|apply keeps_ret].
  apply keeps_when.
  unfold PlaybackService._handle_max_retries_exceeded. repeat tidy_step.
Qed.

Lemma tidy_resume_playback (w : World) :
  keeps tidy (MusicBot._resume_playback_after_reconnect w).
Proof.
  unfold MusicBot._resume_playback_after_reconnect.
  repeat first [apply tidy_play_next | tidy_step].
Qed.

Lemma tidy_clear_playback_state : keeps tidy MusicBot.clear_playback_state.
Proof. unfold MusicBot.clear_playback_state. repeat tidy_step. Qed.

(** X19. Neither a transition, nor the completion callback, nor the health
    check, nor the voice supervisor ever breaks the bound of the history,
    puts a URL twice into the history, or puts a URL twice into the loop
    backup: from a guild where these hold, whatever the collaborators
    answer, they hold afterwards. *)
Theorem engine_keeps_tidy :
  forall (vw : VoiceWorld) (error is_self : bool) (voice_channel : Z)
         (before_channel after_channel : option Z) (g : GuildData),
    tidy g ->
    let w := vw_world vw in
    Forall (fun m : M unit => tidy (snd (fst (m g))))
      [PlaybackService.play_next w;
       PlaybackCallbacks.after_playing w error;
       BotTasks.check_voice_health w;
       MusicBot._attempt_voice_reconnect vw voice_channel;
       MusicBot.on_voice_state_update vw is_self
         before_channel after_channel].
Proof.
  intros vw error is_self voice_channel before_channel after_channel g
         Htidy w.
  assert (Hall : Forall (keeps tidy)
            [PlaybackService.play_next w;
             PlaybackCallbacks.after_playing w error;
             BotTasks.check_voice_health w;
             MusicBot._attempt_voice_reconnect vw voice_channel;
             MusicBot.on_voice_state_update vw is_self
               before_channel after_channel]).
  { apply Forall_cons; [|apply Forall_cons; [|apply Forall_cons;
      [|apply Forall_cons; [|apply Forall_cons; [|apply Forall_nil]]]]].
    - apply tidy_play_next.
    - unfold PlaybackCallbacks.after_playing.
      repeat first [apply tidy_play_next | tidy_step].
    - unfold BotTasks.check_voice_health.
      repeat first [apply tidy_play_next | tidy_step].
    - unfold MusicBot._attempt_voice_reconnect,
        MusicBot._cleanup_after_failed_reconnect.
      repeat first [apply tidy_resume_playback | tidy_step].
    - unfold MusicBot.on_voice_state_update.
      repeat first [apply tidy_resume_playback
                   | apply tidy_clear_playback_state | tidy_step]. }
  eapply Forall_impl; [|exact Hall].
  intros m Hm. apply Hm, Htidy.
Qed.

Lemma engine_keeps_tidy_witness :
  let w := vw_world healing_world in
  Forall (fun m : M unit => tidy (snd (fst (m guild_finished_B))))
    [PlaybackService.play_next w;
     PlaybackCallbacks.after_playing w false;
     BotTasks.check_voice_health w;
     MusicBot._attempt_voice_reconnect healing_world 5;
     MusicBot.on_voice_state_update healing_world true (Some 5%Z) None].
Proof.
  apply (engine_keeps_tidy healing_world false true 5 (Some 5%Z) None
           guild_finished_B).
  split; [split|].
  - cbn. lia.
  - cbn. apply NoDup_nil.
  - unfold distinct_urls. cbn. apply NoDup_cons; [|apply NoDup_nil].
    intros [].
Defined.

(** ** VoiceSupervisor: leaving, failing to reconnect, idling *)

(** X20. An intentional disconnect forgets the session and keeps the
    history: the queue, the loop backup and the current song are gone, the
    flag is reset, the history is untouched with the cursor at its end, the
    only call is the clearing of the stored queue (no reconnect is
    scheduled), the scheduler has nothing left to offer under any repeat
    mode, and the bot joining a channel again starts nothing. *)
Theorem intentional_leave_forgets_queue :
  forall (vw : VoiceWorld) (voice_channel rejoined : Z) (g : GuildData),
    intentional_disconnect g = true ->
    let left :=
      MusicBot.on_voice_state_update vw true (Some voice_channel) None g in
    let g1 := snd (fst left) in
    snd left = [ClearGuildQueueFromDb]
    /\ queue g1 = [] /\ loop_backup g1 = [] /\ current g1 = None
    /\ voice_client g1 = None /\ intentional_disconnect g1 = false
    /\ history g1 = history g
    /\ history_position g1 = Z.of_nat (length (history g))
    /\ (forall randbelow,
           fst (QueueService.get_next_song randbelow g1) = None)
    /\ MusicBot.on_voice_state_update vw true None (Some rejoined) g1
       = (tt,
          match vw_guild_voice_client vw with
          | Some vc => set_voice_client (Some vc) g1
          | None => g1
          end,
          match vw_guild_voice_client vw with
          | Some _ => [Sleep 1000]
          | None => []
          end).
Proof.
  intros vw voice_channel rejoined g Hflag left g1.
  assert (Hleft : left
                  = (tt,
                     set_loop_backup []
                       (set_queue []
                          (set_history_position (Z.of_nat (length (history g)))
                             (set_start_time None
                                (set_current None
                                   (set_intentional_disconnect false
                                      (set_voice_client None g)))))),
                     [ClearGuildQueueFromDb])).
  { unfold left, MusicBot.on_voice_state_update,
      MusicBot.clear_playback_state.
    run_monad. cbn [negb]. guild_simpl'. rewrite Hflag. reflexivity. }
  unfold g1. rewrite Hleft. cbn [fst snd]. guild_simpl'.
  repeat (split; [reflexivity|]).
  split.
  - intros randbelow. unfold QueueService.get_next_song. guild_simpl'.
    destruct (String.eqb (loop_mode g) "song");
      destruct (String.eqb (loop_mode g) "queue"); reflexivity.
  - unfold MusicBot.on_voice_state_update. cbn [negb].
    destruct (vw_guild_voice_client vw) as [vc|]; [|reflexivity].
    run_monad. rewrite resume_playback_run. guild_simpl'. reflexivity.
Qed.

Lemma intentional_leave_forgets_queue_witness :
  let left :=
    MusicBot.on_voice_state_update healing_world true (Some 5%Z) None
      guild_leaving in
  let g1 := snd (fst left) in
  snd left = [ClearGuildQueueFromDb]
  /\ queue g1 = [] /\ loop_backup g1 = [] /\ current g1 = None
  /\ voice_client g1 = None /\ intentional_disconnect g1 = false
  /\ history g1 = history guild_leaving
  /\ history_position g1 = Z.of_nat (length (history guild_leaving))
  /\ (forall randbelow,
         fst (QueueService.get_next_song randbelow g1) = None)
  /\ MusicBot.on_voice_state_update healing_world true None (Some 6%Z) g1
     = (tt,
        match vw_guild_voice_client healing_world with
        | Some vc => set_voice_client (Some vc) g1
        | None => g1
        end,
        match vw_guild_voice_client healing_world with
        | Some _ => [Sleep 1000]
        | None => []
        end).
Proof.
  apply (intentional_leave_forgets_queue healing_world 5 6 guild_leaving).
  reflexivity.
Defined.

Lemma play_next_without_voice (w : World) (g : GuildData) :
  voice_client g = None ->
  snd (PlaybackService.play_next w g) = []
  /\ queue (snd (fst (PlaybackService.play_next w g))) = queue g.
Proof.
  intros Hvc. unfold PlaybackService.play_next,
    PlaybackService.voice_busy, PlaybackService.voice_live.
  run_monad. rewrite Hvc.
  destruct (seeking g); [split; reflexivity|].
  destruct (current g); cbn [negb]; split; reflexivity.
Qed.

(** X21. A reconnect that fails (the library holds no live connection, the
    guild's handle is dead and [connect] raises anything but
    already-connected) drops the interrupted song and the handle but keeps
    the queue, the loop backup and the history for a later [/play]; it calls
    nothing but the delay, the connection attempt and at most the one
    notification of the lost connection, and a transition entered afterwards
    starts nothing and leaves the queue as it is. *)
Theorem failed_reconnect_keeps_queue :
  forall (vw : VoiceWorld) (voice_channel : Z) (g : GuildData),
    MusicBot.connected_client (vw_guild_voice_client vw) = false ->
    MusicBot.connected_client (voice_client g) = false ->
    connect_failed (vw_connect vw) = true ->
    let r := MusicBot._attempt_voice_reconnect vw voice_channel g in
    let g' := snd (fst r) in
    current g' = None /\ start_time g' = None /\ voice_client g' = None
    /\ queue g' = queue g /\ loop_backup g' = loop_backup g
    /\ history g' = history g
    /\ snd r
       = Sleep (Bot.voice_reconnect_delay * 1000)
         :: VoiceConnect voice_channel :: lost_notice vw g
    /\ snd (PlaybackService.play_next (vw_world vw) g') = []
    /\ queue (snd (fst (PlaybackService.play_next (vw_world vw) g')))
       = queue g.
Proof.
  intros vw voice_channel g Hlib Hown Hfail r g'.
  assert (Hr : r
               = (tt,
                  set_voice_client None
                    (set_start_time None (set_current None g)),
                  Sleep (Bot.voice_reconnect_delay * 1000)
                  :: VoiceConnect voice_channel :: lost_notice vw g)).
  { unfold r, MusicBot._attempt_voice_reconnect. run_monad.
    rewrite Hlib, Hown.
    unfold MusicBot._cleanup_after_failed_reconnect, lost_notice.
    run_monad. guild_simpl'.
    destruct (vw_connect vw); try discriminate Hfail;
      destruct (w_music_cog (vw_world vw) && int_truthy (music_channel_id g)
                && vw_get_channel vw); reflexivity. }
  unfold g'. rewrite Hr. cbn [fst snd]. guild_simpl'.
  repeat (split; [reflexivity|]).
  apply (play_next_without_voice (vw_world vw)
           (set_voice_client None
              (set_start_time None (set_current None g)))).
  reflexivity.
Qed.

Lemma failed_reconnect_keeps_queue_witness :
  let r := MusicBot._attempt_voice_reconnect unreachable_world 5
             guild_cut_off in
  let g' := snd (fst r) in
  current g' = None /\ start_time g' = None /\ voice_client g' = None
  /\ queue g' = queue guild_cut_off
  /\ loop_backup g' = loop_backup guild_cut_off
  /\ history g' = history guild_cut_off
  /\ snd r
     = Sleep (Bot.voice_reconnect_delay * 1000)
       :: VoiceConnect 5 :: lost_notice unreachable_world guild_cut_off
  /\ snd (PlaybackService.play_next (vw_world unreachable_world) g') = []
  /\ queue (snd (fst (PlaybackService.play_next
                        (vw_world unreachable_world) g')))
     = queue guild_cut_off.
Proof.
  apply (failed_reconnect_keeps_queue unreachable_world 5 guild_cut_off);
    reflexivity.
Defined.

(** X22. The idle timeout disconnects only a guild that is connected, is
    neither playing nor paused, has no current song and has been inactive
    for more than five minutes; it takes nothing but the handle, the health
    check leaves such a guild alone, and, since the timeout does not flag
    its disconnect as intentional, the voice-state handler run on the guild
    it left schedules a reconnect when songs are still queued. *)
Theorem idle_timeout_only_idle_guilds :
  forall (vw : VoiceWorld) (now voice_channel : Z) (g : GuildData),
    fst (BotTasks.cleanup_inactive now g) = true ->
    intentional_disconnect g = false ->
    queue g <> [] ->
    let g' := snd (BotTasks.cleanup_inactive now g) in
    (exists vc, voice_client g = Some vc /\ is_connected vc = true
                /\ is_playing vc = false /\ is_paused vc = false)
    /\ current g = None
    /\ (now - last_activity g > 300)%Z
    /\ g' = set_voice_client None g
    /\ BotTasks.check_voice_health (vw_world vw) g = (tt, g, [])
    /\ MusicBot.on_voice_state_update vw true (Some voice_channel) None g'
       = (tt, g', [CreateTaskAttemptVoiceReconnect voice_channel]).
Proof.
  intros vw now voice_channel g Hout Hflag Hqueue g'.
  unfold g'. clear g'. unfold BotTasks.cleanup_inactive in *.
  destruct (voice_client g) as [vc|] eqn:Evc; [|discriminate Hout].
  destruct (is_connected vc) eqn:Econn; [|discriminate Hout].
  cbv zeta in *.
  destruct (now - last_activity g >? 5 * 60)%Z eqn:Etime;
    [|discriminate Hout].
  destruct (is_playing vc) eqn:Eplay; [discriminate Hout|].
  destruct (is_paused vc) eqn:Epause; [discriminate Hout|].
  destruct (current g) eqn:Ecur; [discriminate Hout|].
  cbn [negb andb fst snd].
  split; [exists vc; auto|]. split; [reflexivity|].
  split; [lia|]. split; [reflexivity|]. split.
  - rewrite check_voice_health_run. unfold stalled, orphaned.
    rewrite Evc, Ecur, Econn. reflexivity.
  - unfold MusicBot.on_voice_state_update. run_monad. cbn [negb].
    guild_simpl'. rewrite Hflag, Ecur.
    destruct (queue g); [congruence|]. reflexivity.
Qed.

Lemma idle_timeout_only_idle_guilds_witness :
  let g' := snd (BotTasks.cleanup_inactive 301 guild_idle_queued) in
  (exists vc, voice_client guild_idle_queued = Some vc
              /\ is_connected vc = true
              /\ is_playing vc = false /\ is_paused vc = false)
  /\ current guild_idle_queued = None
  /\ (301 - last_activity guild_idle_queued > 300)%Z
  /\ g' = set_voice_client None guild_idle_queued
  /\ BotTasks.check_voice_health (vw_world healing_world) guild_idle_queued
     = (tt, guild_idle_queued, [])
  /\ MusicBot.on_voice_state_update healing_world true (Some 5%Z) None g'
     = (tt, g', [CreateTaskAttemptVoiceReconnect 5]).
Proof.
  apply (idle_timeout_only_idle_guilds healing_world 301 5
           guild_idle_queued).
  - reflexivity.
  - reflexivity.
  - discriminate.
Defined.

(** ** Persistence *)

Lemma map_from_dict_to_dict (songs : list Song) :
  map SongModel.from_dict (map SongModel.to_dict songs) = songs.
Proof.
  induction songs as [|s l IH]; [reflexivity|].
  cbn [map]. now rewrite from_dict_to_dict, IH.
Qed.

(** X23. What [_delayed_save_guild_queue] writes, [load_persistent_queues]
    reads back: the queue, the loop backup, the history and its cursor, the
    repeat mode, the shuffle flag and the volume of the saved guild, and its
    music channel when it has one; the current song and the voice handle are
    not part of the row.  What [clear_guild_queue_from_db] writes reads back
    as an empty queue and backup with repeat and shuffle off, the history
    and the volume kept.  A row without queue data, or with text that is not
    JSON, sets the music channel when the row has one and changes nothing
    else. *)
Theorem saved_queue_loads_back :
  forall (g g0 : GuildData) (stored_channel_id : option Z),
    let loaded :=
      BotTasks.load_row (music_channel_id g)
        (Json (BotTasks.queue_data_of g)) g0 in
    let cleared :=
      BotTasks.load_row (music_channel_id g)
        (Json (BotTasks.cleared_queue_data g)) g0 in
    let channel_only :=
      if int_truthy stored_channel_id
      then set_music_channel_id stored_channel_id g0
      else g0 in
    (queue loaded = queue g /\ loop_backup loaded = loop_backup g
     /\ history loaded = history g
     /\ history_position loaded = history_position g
     /\ loop_mode loaded = loop_mode g /\ shuffle loaded = shuffle g
     /\ volume loaded = volume g
     /\ music_channel_id loaded
        = (if int_truthy (music_channel_id g) then music_channel_id g
           else music_channel_id g0)
     /\ current loaded = current g0 /\ voice_client loaded = voice_client g0)
    /\ (queue cleared = [] /\ loop_backup cleared = []
        /\ history cleared = history g
        /\ history_position cleared = history_position g
        /\ loop_mode cleared = "off" /\ shuffle cleared = false
        /\ volume cleared = volume g
        /\ music_channel_id cleared = music_channel_id loaded
        /\ current cleared = current g0)
    /\ BotTasks.load_row stored_channel_id NoQueueData g0 = channel_only
    /\ BotTasks.load_row stored_channel_id CorruptJson g0 = channel_only
    /\ (queue channel_only = queue g0
        /\ loop_backup channel_only = loop_backup g0
        /\ history channel_only = history g0
        /\ history_position channel_only = history_position g0
        /\ loop_mode channel_only = loop_mode g0
        /\ shuffle channel_only = shuffle g0
        /\ volume channel_only = volume g0
        /\ current channel_only = current g0
        /\ music_channel_id channel_only
           = (if int_truthy stored_channel_id then stored_channel_id
              else music_channel_id g0)).
Proof.
  intros g g0 stored_channel_id loaded cleared channel_only.
  unfold loaded, cleared, channel_only, BotTasks.load_row,
    BotTasks.queue_data_of, BotTasks.cleared_queue_data.
  cbn [qd_queue qd_loop_backup qd_history qd_history_position qd_loop_mode
       qd_shuffle qd_volume dict_get map].
  rewrite !map_from_dict_to_dict.
  destruct (int_truthy (music_channel_id g));
    destruct (int_truthy stored_channel_id); guild_simpl';
    repeat split; reflexivity.
Qed.

(** ** Commands that hand over to the engine *)






